(** * textmify: the word counter, the bundle packer and the converter adapter

    A shallow embedding of [count_words], [combine_markdown_files],
    [is_supported_file], [translate_to_markdown] and [main] of
    [textmify.py], with the properties of the packing algorithm and of the
    retries of the conversion.

    Python [str] values are lists of Unicode code points, Python [int]s are
    [Z] (or [nat] where the code only counts up from zero), the directory
    being packed is a finite map from entry names to entries, and the
    effects of the code (reading, writing, logging) are threaded through a
    [world] that also records them in a trace. A call that raises an
    exception which the code does not catch gives [None] in place of its
    result. *)

From stdpp Require Import gmap list sorting pretty strings.
From Equations Require Import Equations.

Open Scope Z_scope.

(** ** Text *)

(** A Python [str]: the sequence of its code points. *)
Abbreviation str := (list N).

(** A literal of the source, written as a Rocq string. *)
Definition lit (s : string) : str :=
  Ascii.N_of_ascii <$> String.list_ascii_of_string s.

(** [sep.join(parts)]. *)
Fixpoint join (sep : str) (parts : list str) : str :=
  match parts with
  | [] => []
  | [p] => p
  | p :: ps => p ++ sep ++ join sep ps
  end.

(** [s.startswith(p)]. *)
Fixpoint startswith (s p : str) {struct p} : bool :=
  match p, s with
  | [], _ => true
  | _ :: _, [] => false
  | a :: p', b :: s' => bool_decide (a = b) && startswith s' p'
  end.

(** [s.endswith(p)]. *)
Definition endswith (s p : str) : bool :=
  startswith (reverse s) (reverse p).

(** [s.rfind(c)] for a single character: the highest index of [c], or
    [None] where Python returns [-1]. *)
Fixpoint rfind (c : N) (s : str) : option nat :=
  match s with
  | [] => None
  | x :: s' =>
      match rfind c s' with
      | Some i => Some (S i)
      | None => if bool_decide (x = c) then Some 0%nat else None
      end
  end.

(** Comparison of two [str] values, [a <= b] in Python: lexicographic on
    code points, a proper prefix being smaller. Two [Path] objects of one
    directory compare as their names do (case matters, as on POSIX). *)
Fixpoint str_leb (a b : str) : bool :=
  match a, b with
  | [], _ => true
  | _ :: _, [] => false
  | x :: a', y :: b' =>
      if bool_decide (x = y) then str_leb a' b' else bool_decide (x < y)%N
  end.

Definition str_le (a b : str) : Prop := str_leb a b = true.

Global Instance str_le_dec a b : Decision (str_le a b).
Proof. unfold str_le. apply _. Defined.

(** ** The word counter *)

Section WordCounter.
(** [str.isalnum] on one character. It is a table of the Unicode database
    of the Python runtime, not of this program, so it is a parameter. *)
Variable isalnum : N → bool.

(** The class [\w] of a Unicode pattern: alphanumeric or underscore. *)
Definition is_word (c : N) : bool := isalnum c || bool_decide (c = 95%N).

Definition word_at (s : str) (i : nat) : bool :=
  match s !! i with Some c => is_word c | None => false end.

(** [\b] at position [i]: the characters on the two sides of [i] differ
    in being word characters, the outside of the text counting as not. *)
Definition at_boundary (s : str) (i : nat) : bool :=
  xorb (match i with O => false | S j => word_at s j end) (word_at s i).

(** The longest prefix of word characters: what a greedy [\w+] takes. *)
Fixpoint span_len (l : str) : nat :=
  match l with
  | c :: l' => if is_word c then S (span_len l') else O
  | [] => O
  end.

(** After [\w+] took [k] characters from [i], the trailing [\b] is tried
    at [i + k], then with one character given back, down to one. *)
Fixpoint backtrack (s : str) (i k : nat) : option nat :=
  match k with
  | O => None
  | S k' => if at_boundary s (i + k) then Some (i + k)%nat
            else backtrack s i k'
  end.

(** A match of [\b\w+\b] starting exactly at [i]: the end of the match. *)
Definition match_at (s : str) (i : nat) : option nat :=
  if at_boundary s i then backtrack s i (span_len (drop i s)) else None.

(** The scan of [re.findall]: the leftmost match from [pos], then on from
    its end (an empty match would move on by one character). *)
Equations? findall_from (s : str) (pos : nat) : list (nat * nat)
  by wf (length s - pos)%nat lt :=
  findall_from s pos with decide (pos < length s)%nat => {
    | right _ := [];
    | left _ with match_at s pos => {
        | Some e := (pos, e) :: findall_from s (Nat.max e (S pos));
        | None := findall_from s (S pos) } }.
Proof. all: lia. Qed.

(** [re.findall(r'\b\w+\b', content)]: the matched substrings. *)
Definition re_findall (content : str) : list str :=
  (λ m : nat * nat, take (m.2 - m.1) (drop m.1 content))
    <$> findall_from content 0.

(** What the specification counts: a maximal run of word characters is a
    non-empty span [i, j) of word characters that is extended by a word
    character neither on the left nor on the right. *)
Definition maximal_run (s : str) (i j : nat) : Prop :=
  (i < j)%nat ∧
  (∀ k, (i ≤ k < j)%nat → word_at s k = true) ∧
  (i = O ∨ word_at s (i - 1) = false) ∧
  word_at s j = false.
End WordCounter.

(** The ASCII part of [str.isalnum], for running the model on examples. *)
Definition ascii_alnum (c : N) : bool :=
  ((48 <=? c) && (c <=? 57) || (65 <=? c) && (c <=? 90)
   || (97 <=? c) && (c <=? 122))%N.

(** ** Paths and the directory *)

(** Every path of the code lies directly in [markdown_dir], so a path is
    represented by its final component. [Path.stem]: the name without its
    last suffix, a leading or a trailing dot not starting a suffix. *)
Definition stem (name : str) : str :=
  match rfind 46 name with
  | Some i =>
      if bool_decide (0 < i < length name - 1)%nat then take i name else name
  | None => name
  end.

(** [markdown_dir / f"packed_{index}.md"]. *)
Definition packed_path (index : nat) : str :=
  lit "packed_" ++ lit (pretty index) ++ lit ".md".

(** An entry of the directory, as [open] sees it: a regular file that can
    be opened, with its text as [read()] with [errors='replace'] decodes
    it, or an entry that cannot be opened, neither for reading nor for
    writing (a directory named [x.md], a file without permissions). *)
Inductive entry :=
| File (text : str)
| Unreadable.

(** What the code does to the outside, in the order it does it. *)
Inductive event :=
| EvRead (path : str)              (* [open(path, 'r')] was attempted *)
| EvWrite (path text : str)        (* [open(path, 'w')] and one [write] *)
| EvWriteError (path : str) (emptied : bool)
      (* [open(path, 'w')] raised, or it emptied the file and [write] raised *)
| EvCountError (file_path : str)   (* [logging.error] of [count_words] *)
| EvReadError (md_file : str)      (* [logger.error] of the packer *)
| EvNoFiles.                       (* [logger.warning]: nothing to pack *)

Record world := World {
  w_dir : gmap str entry;   (* the entries of [markdown_dir] *)
  w_trace : list event }.

Definition emit (e : event) (w : world) : world :=
  World (w_dir w) (w_trace w ++ [e]).

(** [with open(path, 'r', ...) as f: f.read()]; [None] when it raises. *)
Definition read_text (path : str) (w : world) : option str * world :=
  (match w_dir w !! path with
   | Some (File text) => Some text
   | _ => None
   end, emit (EvRead path) w).

(** Whether [text] can be written with [encoding='utf-8']: it has no
    surrogate code point. The text of a file never has one, as it was read
    with [errors='replace']; the stem of a file whose name is not UTF-8
    has. *)
Definition encodable (text : str) : bool :=
  forallb (λ c, negb ((55296 <=? c) && (c <=? 57343))%N) text.

(** [with open(path, 'w', encoding='utf-8') as f: f.write(text)], with
    [false] when it raises. [open] raises on an entry that cannot be
    opened, which stays as it is; otherwise it creates the file or empties
    it, and then [write] raises on a text that cannot be encoded, before
    anything is written. *)
Definition write_text (path text : str) (w : world) : bool * world :=
  match w_dir w !! path with
  | Some Unreadable => (false, emit (EvWriteError path false) w)
  | _ =>
      if encodable text then
        (true, World (<[path := File text]> (w_dir w))
                     (w_trace w ++ [EvWrite path text]))
      else
        (false, World (<[path := File []]> (w_dir w))
                      (w_trace w ++ [EvWriteError path true]))
  end.

(** [markdown_dir.glob('*.md')]: the names that end in [.md], dot files
    included, in the order the directory is listed. *)
Definition glob_md (d : gmap str entry) : list str :=
  filter (λ name, endswith name (lit ".md")) (elements (dom d)).

(** The two list-building lines of [combine_markdown_files]. *)
Definition discover (d : gmap str entry) : list str :=
  filter (λ f, ¬ startswith (stem f) (lit "packed_")) (glob_md d).

(** The joining delimiter and the entry of one file in a bundle,
    [f"## {md_file.stem}\n\n{file_content}"]. *)
Definition delimiter : str := [10; 10; 45; 45; 45; 10; 10]%N.

Definition section_of (md_file file_content : str) : str :=
  lit "## " ++ stem md_file ++ [10; 10]%N ++ file_content.

(** A [for] loop over [files] with the state [st], whose body may raise:
    [None] from the body ends the loop. *)
Fixpoint for_each {S W : Type} (body : S * W → str → option S * W)
    (files : list str) (st : S * W) : option S * W :=
  match files with
  | [] => (Some st.1, st.2)
  | f :: files =>
      match body st f with
      | (Some s, w) => for_each body files (s, w)
      | (None, w) => (None, w)
      end
  end.

(** ** The packer *)

(** The local variables of [combine_markdown_files] that the loop updates. *)
Record locals := Locals {
  combined_files : list str;
  current_file_index : nat;
  current_word_count : Z;
  current_content : list str }.

(** A bundle of the specification: the files whose sections went into one
    output file. The code keeps only the sections; the members and the
    total are recorded next to it by the instrumented packer below. *)
Record bundle := Bundle {
  index : nat;
  members : list str;
  total_words : Z }.

Record ghost := Ghost {
  g_members : list str;      (* the files behind [current_content] *)
  g_bundles : list bundle }. (* the bundles behind [combined_files] *)

Section Packer.
Variable isalnum : N → bool.

(** [count_words(file_path)]. *)
Definition count_words (file_path : str) (w : world) : Z * world :=
  match read_text file_path w with
  | (Some content, w) => (Z.of_nat (length (re_findall isalnum content)), w)
  | (None, w) => (0, emit (EvCountError file_path) w)
  end.

Section Loop.
Variables (max_words : Z) (logger : bool).

(** The body of the [for md_file in markdown_files] loop ([tqdm] only
    reports progress). The write of the flush is in no [try], so the body
    raises when it does. *)
Definition loop_body (st : locals * world) (md_file : str)
  : option locals * world :=
  let '(l, w) := st in
  let '(word_count, w) := count_words md_file w in
  let '(flushed, w) :=
    if bool_decide (current_word_count l > 0
                    ∧ current_word_count l + word_count > max_words)
    then
      let output_path := packed_path (current_file_index l) in
      match write_text output_path (join delimiter (current_content l)) w with
      | (true, w) =>
          (Some (Locals (combined_files l ++ [output_path])
                        (current_file_index l + 1) 0 []), w)
      | (false, w) => (None, w)
      end
    else (Some l, w) in
  match flushed with
  | None => (None, w)
  | Some l =>
      match read_text md_file w with
      | (Some file_content, w) =>
          (Some (Locals (combined_files l) (current_file_index l)
                        (current_word_count l + word_count)
                        (current_content l ++ [section_of md_file file_content])),
           w)
      | (None, w) =>
          (Some l, if logger then emit (EvReadError md_file) w else w)
      end
  end.

(** The statements after the loop. *)
Definition save_last (st : locals * world) : option (list str) * world :=
  let '(l, w) := st in
  match current_content l with
  | [] => (Some (combined_files l), w)
  | _ :: _ =>
      let output_path := packed_path (current_file_index l) in
      match write_text output_path (join delimiter (current_content l)) w with
      | (true, w) => (Some (combined_files l ++ [output_path]), w)
      | (false, w) => (None, w)
      end
  end.

(** [combine_markdown_files(markdown_dir, max_words, logger)], where
    [logger] tells whether a logger was passed; [None] when the call
    raises. The list is sorted by a total order on distinct names, so the
    result of [markdown_files.sort()] does not depend on the sorting
    algorithm ([sorted_inputs_unique]). *)
Definition combine_markdown_files (w : world) : option (list str) * world :=
  let markdown_files := discover (w_dir w) in
  match markdown_files with
  | [] => (Some [], if logger then emit EvNoFiles w else w)
  | _ :: _ =>
      let markdown_files := merge_sort str_le markdown_files in
      match for_each loop_body markdown_files (Locals [] 0 0 [], w) with
      | (Some l, w) => save_last (l, w)
      | (None, w) => (None, w)
      end
  end.

(** The same code carrying the bundles along: each update of
    [current_content] and of [combined_files] is mirrored on the
    members. [packer_erasure] below shows that forgetting the ghost
    gives back the code above. *)
Definition loop_body_g (st : locals * (world * ghost)) (md_file : str)
  : option locals * (world * ghost) :=
  let '(l, (w, g)) := st in
  let '(word_count, w) := count_words md_file w in
  let '(flushed, w, g) :=
    if bool_decide (current_word_count l > 0
                    ∧ current_word_count l + word_count > max_words)
    then
      let output_path := packed_path (current_file_index l) in
      match write_text output_path (join delimiter (current_content l)) w with
      | (true, w) =>
          (Some (Locals (combined_files l ++ [output_path])
                        (current_file_index l + 1) 0 []), w,
           Ghost [] (g_bundles g ++ [Bundle (current_file_index l)
                                            (g_members g)
                                            (current_word_count l)]))
      | (false, w) => (None, w, g)
      end
    else (Some l, w, g) in
  match flushed with
  | None => (None, (w, g))
  | Some l =>
      match read_text md_file w with
      | (Some file_content, w) =>
          (Some (Locals (combined_files l) (current_file_index l)
                        (current_word_count l + word_count)
                        (current_content l ++ [section_of md_file file_content])),
           (w, Ghost (g_members g ++ [md_file]) (g_bundles g)))
      | (None, w) =>
          (Some l, (if logger then emit (EvReadError md_file) w else w, g))
      end
  end.

Definition save_last_g (st : locals * (world * ghost))
  : option (list str) * world * list bundle :=
  let '(l, (w, g)) := st in
  match current_content l with
  | [] => (Some (combined_files l), w, g_bundles g)
  | _ :: _ =>
      let output_path := packed_path (current_file_index l) in
      match write_text output_path (join delimiter (current_content l)) w with
      | (true, w) =>
          (Some (combined_files l ++ [output_path]), w,
           g_bundles g ++ [Bundle (current_file_index l) (g_members g)
                                  (current_word_count l)])
      | (false, w) => (None, w, g_bundles g)
      end
  end.

Definition pack (w : world) : option (list str) * world * list bundle :=
  let markdown_files := discover (w_dir w) in
  match markdown_files with
  | [] => (Some [], if logger then emit EvNoFiles w else w, [])
  | _ :: _ =>
      let markdown_files := merge_sort str_le markdown_files in
      match for_each loop_body_g markdown_files
              (Locals [] 0 0 [], (w, Ghost [] [])) with
      | (Some l, wg) => save_last_g (l, wg)
      | (None, (w, g)) => (None, w, g_bundles g)
      end
  end.

(** The bundles of an invocation: those whose files it has written, which
    are all it has formed when it returns. *)
Definition bundles (w : world) : list bundle := (pack w).2.
End Loop.

(** The word count of a file of the directory, as the packer obtains it. *)
Definition words_of (d : gmap str entry) (f : str) : Z :=
  match d !! f with
  | Some (File text) => Z.of_nat (length (re_findall isalnum text))
  | _ => 0
  end.
End Packer.

(** Whether a file of the directory can be read, and its text. *)
Definition readable (d : gmap str entry) (f : str) : bool :=
  match d !! f with Some (File _) => true | _ => false end.

Definition text_of (d : gmap str entry) (f : str) : str :=
  match d !! f with Some (File text) => text | _ => [] end.

(** Whether [open(path, 'w')] goes through in the directory [d], whether
    [write_text] does, and the directory it leaves when it does not. *)
Definition openable (d : gmap str entry) (path : str) : bool :=
  match d !! path with Some Unreadable => false | _ => true end.

Definition write_ok (d : gmap str entry) (path text : str) : bool :=
  openable d path && encodable text.

Definition failed_write (d : gmap str entry) (path : str) : gmap str entry :=
  if openable d path then <[path := File []]> d else d.

(** No write of the packer raises in the directory [d]: no entry named as
    a bundle file is in the way, and the stems and the texts of the inputs
    can be encoded. *)
Definition writes_go_through (d : gmap str entry) : Prop :=
  (∀ k, openable d (packed_path k) = true)
  ∧ ∀ f, f ∈ discover d →
      encodable (stem f) = true ∧ encodable (text_of d f) = true.

(** The inputs of one invocation in processing order:
    [markdown_files] after [markdown_files.sort()]. *)
Definition sorted_inputs (d : gmap str entry) : list str :=
  merge_sort str_le (discover d).

(** ** What the packer is expected to maintain

    The state of the loop is described against the directory [d0] the
    invocation started from. *)

Definition reads_of (evs : list event) : list str :=
  omap (λ e, match e with EvRead p => Some p | _ => None end) evs.

Definition writes_of (evs : list event) : list (str * str) :=
  omap (λ e, match e with EvWrite p t => Some (p, t) | _ => None end) evs.

Section PackerInvariant.
Variables (isalnum : N → bool) (d0 : gmap str entry).

(** The text of a bundle file with the given members. *)
Definition bundle_text (ms : list str) : str :=
  join delimiter ((λ f, section_of f (text_of d0 f)) <$> ms).

Definition sum_words (ms : list str) : Z :=
  foldr (λ f acc, words_of isalnum d0 f + acc) 0 ms.

Definition bundle_file (b : bundle) : str * str :=
  (packed_path (index b), bundle_text (members b)).

(** The directory after the bundles [bs] were written. *)
Definition written (bs : list bundle) : gmap str entry :=
  foldl (λ d b, <[(bundle_file b).1 := File (bundle_file b).2]> d) d0 bs.

(** Whether the file of the bundle [b] can be written. *)
Definition writable (b : bundle) : bool :=
  write_ok d0 (bundle_file b).1 (bundle_file b).2.

Definition bundle_ok (b : bundle) : Prop :=
  total_words b = sum_words (members b) ∧ members b ≠ [].

(** Every readable file among [fs] has at least one word. *)
Definition no_blank (fs : list str) : Prop :=
  ∀ f, f ∈ fs → readable d0 f = true → words_of isalnum d0 f > 0.

(** The threshold on the bundles [bs]: only a bundle of one member may
    exceed it, and a file that exceeds it on its own is alone. *)
Definition within_threshold (max_words : Z) (fs : list str)
    (bs : list bundle) : Prop :=
  (∀ b, b ∈ bs → (1 < length (members b))%nat → total_words b ≤ max_words)
  ∧ (∀ f, f ∈ fs → readable d0 f = true →
       words_of isalnum d0 f > max_words → ∃ b, b ∈ bs ∧ members b = [f]).

(** The same while the loop runs, the accumulator [ms] counting as the
    bundle it is going to be. *)
Definition accumulator_ok (max_words : Z) (fs : list str)
    (bs : list bundle) (ms : list str) : Prop :=
  (ms ≠ [] → sum_words ms > 0)
  ∧ within_threshold max_words fs (bs ++ [Bundle (length bs) ms (sum_words ms)]).

(** The events [evs] of the loop after the files [done]. *)
Record trace_inv (logger : bool) (done : list str) (bs : list bundle)
    (evs : list event) : Prop := {
  tr_reads : reads_of evs = done ≫= (λ f, [f; f]);
  tr_writes : writes_of evs = bundle_file <$> bs;
  tr_write_error : ∀ p e, EvWriteError p e ∉ evs;
  tr_count_error : ∀ f,
    EvCountError f ∈ evs ↔ f ∈ done ∧ readable d0 f = false;
  tr_read_error : ∀ f,
    EvReadError f ∈ evs ↔ logger = true ∧ f ∈ done ∧ readable d0 f = false }.

(** The loop invariant after the files [done], the trace having been
    [tr0] at the start. *)
Record loop_inv (max_words : Z) (logger : bool) (tr0 : list event)
    (done : list str) (l : locals) (w : world) (g : ghost) : Prop := {
  inv_dir : w_dir w = written (g_bundles g);
  inv_index : current_file_index l = length (g_bundles g);
  inv_indices : index <$> g_bundles g = seq 0 (length (g_bundles g));
  inv_files :
    combined_files l = packed_path <$> seq 0 (length (g_bundles g));
  inv_members :
    concat (members <$> g_bundles g) ++ g_members g
    = filter (λ f, readable d0 f) done;
  inv_count : current_word_count l = sum_words (g_members g);
  inv_bundles : Forall bundle_ok (g_bundles g);
  inv_content :
    current_content l = (λ f, section_of f (text_of d0 f)) <$> g_members g;
  inv_trace : ∃ evs,
    w_trace w = tr0 ++ evs ∧ trace_inv logger done (g_bundles g) evs;
  inv_threshold :
    no_blank done →
    accumulator_ok max_words done (g_bundles g) (g_members g);
  inv_writable : Forall (λ b, writable b = true) (g_bundles g) }.

(** The write of the accumulator raises in the state [w], [g], leaving
    [w']: when the next file [f] would bring it above [max_words], or
    after the loop. The events since [w] are [evs]. *)
Record raised_at (w : world) (g : ghost) (w' : world) (evs : list event)
    : Prop := {
  ra_members : g_members g ≠ [];
  ra_writable :
    writable (Bundle (length (g_bundles g)) (g_members g)
                     (sum_words (g_members g))) = false;
  ra_dir :
    w_dir w'
    = failed_write (written (g_bundles g)) (packed_path (length (g_bundles g)));
  ra_trace : w_trace w' = w_trace w ++ evs;
  ra_writes : writes_of evs = [];
  ra_error : ∃ e, EvWriteError (packed_path (length (g_bundles g))) e ∈ evs }.

(** What an invocation that returns leaves behind: the world [w'] and the
    bundles [bs] after an invocation on [d0] with the trace [tr0] that
    returned [r]. *)
Record pack_post (max_words : Z) (logger : bool) (tr0 : list event)
    (r : list str) (w' : world) (bs : list bundle) : Prop := {
  post_dir : w_dir w' = written bs;
  post_indices : index <$> bs = seq 0 (length bs);
  post_files : r = packed_path <$> seq 0 (length bs);
  post_members :
    concat (members <$> bs)
    = filter (λ f, readable d0 f) (sorted_inputs d0);
  post_bundles : Forall bundle_ok bs;
  post_writable : Forall (λ b, writable b = true) bs;
  post_trace : ∃ evs,
    w_trace w' = tr0 ++ evs ∧ trace_inv logger (sorted_inputs d0) bs evs;
  post_threshold :
    no_blank (sorted_inputs d0) →
    within_threshold max_words (sorted_inputs d0) bs }.

(** What an invocation that raises leaves behind: the bundles [bs] are
    written, and the write of the next one, with the members [ms], has
    raised; of the inputs, [done] were read. *)
Record raise_post (max_words : Z) (logger : bool) (tr0 : list event)
    (w' : world) (bs : list bundle) : Prop := {
  rp_indices : index <$> bs = seq 0 (length bs);
  rp_bundles : Forall bundle_ok bs;
  rp_writable : Forall (λ b, writable b = true) bs;
  rp_failed : ∃ ms rest,
    ms ≠ []
    ∧ concat (members <$> bs) ++ ms ++ rest
      = filter (λ f, readable d0 f) (sorted_inputs d0)
    ∧ writable (Bundle (length bs) ms (sum_words ms)) = false
    ∧ w_dir w' = failed_write (written bs) (packed_path (length bs));
  rp_trace : ∃ evs,
    w_trace w' = tr0 ++ evs
    ∧ writes_of evs = bundle_file <$> bs
    ∧ (∀ p, p ∈ reads_of evs → p ∈ sorted_inputs d0)
    ∧ (∃ e, EvWriteError (packed_path (length bs)) e ∈ evs);
  rp_threshold :
    no_blank (sorted_inputs d0) →
    ∀ b, b ∈ bs → (1 < length (members b))%nat → total_words b ≤ max_words }.
End PackerInvariant.
(** ** Data for examples *)

(** A directory given by its entries. *)
Definition dir_of (l : list (string * entry)) : gmap str entry :=
  list_to_map (prod_map lit id <$> l).

(** A directory after a conversion run and an earlier packing: three
    converted files, a directory that happens to be named [c.md], a bundle
    of the earlier packing and a file that is not markdown. *)
Definition example_dir : gmap str entry :=
  dir_of [("a.md", File (lit "one two"));
          ("b.md", File (lit "three, four; five"));
          ("c.md", Unreadable);
          ("d.md", File (lit "six"));
          ("packed_0.md", File (lit "## old"));
          ("notes.txt", File (lit "not markdown"))]%string.

(** Two converted files, the name of one being a prefix of the name of the
    other. *)
Definition prefix_dir : gmap str entry :=
  dir_of [("a-b.md", File (lit "second draft"));
          ("a.md", File (lit "first draft"))]%string.

(** A converted file without a word, as an empty page gives, and one of
    five words. *)
Definition blank_dir : gmap str entry :=
  dir_of [("a.md", File (lit ""));
          ("b.md", File (lit "one two three four five"))]%string.

(** The same without the entry that cannot be read. *)
Definition readable_dir : gmap str entry :=
  dir_of [("a.md", File (lit "one two"));
          ("b.md", File (lit "three, four; five"));
          ("d.md", File (lit "six"));
          ("packed_0.md", File (lit "## old"))]%string.

(** One converted file and a directory that happens to be named
    [packed_0.md]. *)
Definition blocked_dir : gmap str entry :=
  dir_of [("a.md", File (lit "one two"));
          ("packed_0.md", Unreadable)]%string.

(** A converted file whose name is not UTF-8: its stem holds the surrogate
    code point that stands for the byte [0xff]. *)
Definition surrogate_dir : gmap str entry :=
  {[ [56575%N] ++ lit ".md" := File (lit "one two") ]}.

(** ** The word count in one pass

    For the proofs about sizes: the number of positions at which a run of
    word characters starts, [prev] telling whether the character before
    the text is a word character. *)
Fixpoint run_starts (isalnum : N → bool) (prev : bool) (s : str) : nat :=
  match s with
  | [] => O
  | c :: s' =>
      (if is_word isalnum c && negb prev then 1 else 0)%nat
      + run_starts isalnum (is_word isalnum c) s'
  end.

(** [len(re.findall(r'\b\w+\b', content))] as a Python [int]. *)
Definition word_count (isalnum : N → bool) (content : str) : Z :=
  Z.of_nat (length (re_findall isalnum content)).

(** ** The partition the packer computes

    What the loop does to the members, without the files and the trace:
    the accumulator is closed when it has a positive total that the next
    file would bring above [max_words], and a readable file joins the
    accumulator. [bundles_greedy] shows that the bundles of an invocation
    are those of this partition of its sorted inputs that get written,
    which are all of them when it returns. *)
Section Greedy.
Variables (isalnum : N → bool) (max_words : Z) (d0 : gmap str entry).

Definition greedy_step (g : ghost) (f : str) : ghost :=
  let total := sum_words isalnum d0 (g_members g) in
  let g1 :=
    if bool_decide (total > 0 ∧ total + words_of isalnum d0 f > max_words)
    then Ghost [] (g_bundles g
                   ++ [Bundle (length (g_bundles g)) (g_members g) total])
    else g in
  if readable d0 f then Ghost (g_members g1 ++ [f]) (g_bundles g1) else g1.

Definition greedy_close (g : ghost) : list bundle :=
  match g_members g with
  | [] => g_bundles g
  | _ :: _ =>
      g_bundles g ++ [Bundle (length (g_bundles g)) (g_members g)
                             (sum_words isalnum d0 (g_members g))]
  end.

Definition greedy (files : list str) : list bundle :=
  greedy_close (foldl greedy_step (Ghost [] []) files).
End Greedy.

(** The bundles of [bs] whose files get written: those before the first
    one whose write raises. *)
Fixpoint written_prefix (d0 : gmap str entry) (bs : list bundle)
  : list bundle :=
  match bs with
  | [] => []
  | b :: bs => if writable d0 b then b :: written_prefix d0 bs else []
  end.

(** ** Neighbouring bundles

    [tight bs]: the first member of each bundle would not have fitted into
    the bundle before it. [tight_open g] is the same while the loop runs:
    the accumulator, or where it is empty whatever comes next, does not fit
    into the last bundle. *)
Section Tight.
Variables (isalnum : N → bool) (max_words : Z) (d0 : gmap str entry).

Definition tight (bs : list bundle) : Prop :=
  ∀ k b b' m,
    bs !! k = Some b → bs !! S k = Some b' → head (members b') = Some m →
    total_words b + words_of isalnum d0 m > max_words.

Definition tight_open (g : ghost) : Prop :=
  tight (g_bundles g)
  ∧ ∀ b, last (g_bundles g) = Some b →
      match g_members g with
      | m :: _ => total_words b + words_of isalnum d0 m > max_words
      | [] => total_words b > max_words
      end.
End Tight.

(** The words of the headings of the members [ms]: the word counts of
    their stems. *)
Definition heading_words (isalnum : N → bool) (ms : list str) : Z :=
  foldr (λ m acc, word_count isalnum (stem m) + acc) 0 ms.

(** ** The converter adapter *)

(** [Path.suffix]: the last suffix of the name with its dot, empty for a
    name without a dot, with a leading dot only, or ending in a dot. *)
Definition suffix (name : str) : str :=
  match rfind 46 name with
  | Some i =>
      if bool_decide (0 < i < length name - 1)%nat then drop i name else []
  | None => []
  end.

(** The list [supported_extensions] of [is_supported_file]. *)
Definition supported_extensions : list str :=
  lit <$> [".pdf"; ".docx"; ".xlsx"; ".pptx"; ".md"; ".asciidoc";
           ".html"; ".xhtml"; ".htm"; ".csv"; ".png"; ".jpg"; ".jpeg";
           ".tiff"; ".bmp"; ".xml"; ".json"]%string.

(** What the engine does in one pass through the [try] block of
    [translate_to_markdown]: it reports success or partial success and
    exports the markdown, it reports another status, or it raises an
    exception: while the converter is built or converts, or in
    [export_to_markdown], which for a partial success is after the warning
    ([after_partial]). *)
Inductive conversion :=
| Success (markdown_content : str)
| PartialSuccess (markdown_content : str)
| Failure
| Raised (after_partial : bool).

(** The lines [translate_to_markdown] logs. *)
Inductive cmessage :=
| MsgSkipUnsupported             (* warning *)
| MsgConverting                  (* debug *)
| MsgConverted                   (* debug *)
| MsgPartial                     (* warning *)
| MsgFailed (attempt : nat) (max_retries : Z)   (* warning, other status *)
| MsgError (attempt : nat) (max_retries : Z)    (* warning, exception *)
| MsgRetrying (retry_delay : Z)  (* debug *)
| MsgGaveUp (max_retries : Z).   (* error *)

Inductive cevent :=
| CvLog (m : cmessage)
| CvConvert (file_path : str) (with_options : bool)
      (* the converter is built and converts *)
| CvWrite (path text : str)
| CvWriteError (path : str) (emptied : bool)
      (* [open(path, 'w')] raised, or it emptied the file and [write] raised *)
| CvSleep (seconds : Z).

(** The output directory and what the adapter did so far. *)
Record cworld := CWorld {
  c_out : gmap str entry;
  c_trace : list cevent }.

Definition cemit (e : cevent) (cw : cworld) : cworld :=
  CWorld (c_out cw) (c_trace cw ++ [e]).

(** The write of the output file, as [write_text] of the packer: [false]
    when it raises, which the [try] block catches. *)
Definition cwrite (path text : str) (cw : cworld) : bool * cworld :=
  match c_out cw !! path with
  | Some Unreadable => (false, cemit (CvWriteError path false) cw)
  | _ =>
      if encodable text then
        (true, CWorld (<[path := File text]> (c_out cw))
                      (c_trace cw ++ [CvWrite path text]))
      else
        (false, CWorld (<[path := File []]> (c_out cw))
                       (c_trace cw ++ [CvWriteError path true]))
  end.

(** The warning of a partial success, when the pass got that far. *)
Definition warn_partial (after_partial : bool) (cw : cworld) : cworld :=
  if after_partial then cemit (CvLog MsgPartial) cw else cw.

(** How [translate_to_markdown] ends: it returns a path or [None], or
    [time.sleep] raises, outside the [try] block: [ValueError] for a
    negative delay, [OverflowError] for one that is too large. *)
Inductive translated :=
| Returned (output_file : option str)
| SleepRaised.

Section Converter.
(** [str.lower], of the Python runtime. *)
Variable lower : str → str.
(** The conversion engine, which is not of this program: what the pass
    number [attempt] (from 0) through the [try] block comes to for a
    file, with or without the PDF pipeline options. *)
Variable engine : str → bool → nat → conversion.
(** The largest delay that [time.sleep] of the runtime accepts: 9223372036
    where the delay is converted to a 64-bit number of nanoseconds. *)
Variable sleep_limit : Z.

(** [is_supported_file(file_path)]. *)
Definition is_supported_file (file_path : str) : bool :=
  bool_decide (lower (suffix file_path) ∈ supported_extensions).

Section Translate.
Variables (pipeline_options : bool) (max_retries : Z).
Variables (file_path output_file : str).

(** Whether the converter is built with the PDF options. *)
Definition with_options : bool :=
  pipeline_options && bool_decide (lower (suffix file_path) = lit ".pdf").

(** One pass through the [try] block, [retries] passes having failed:
    [true] when it returns the output file, [false] when it goes on to the
    statements after the block, an exception having been logged where there
    was one. *)
Definition attempt (retries : nat) (cw : cworld) : bool * cworld :=
  let cw := cemit (CvConvert file_path with_options)
              (cemit (CvLog MsgConverting) cw) in
  match engine file_path with_options retries with
  | Success markdown_content =>
      match cwrite output_file markdown_content cw with
      | (true, cw) => (true, cemit (CvLog MsgConverted) cw)
      | (false, cw) =>
          (false, cemit (CvLog (MsgError (S retries) max_retries)) cw)
      end
  | PartialSuccess markdown_content =>
      match cwrite output_file markdown_content
              (cemit (CvLog MsgPartial) cw) with
      | (true, cw) => (true, cw)
      | (false, cw) =>
          (false, cemit (CvLog (MsgError (S retries) max_retries)) cw)
      end
  | Failure => (false, cemit (CvLog (MsgFailed (S retries) max_retries)) cw)
  | Raised after_partial =>
      (false, cemit (CvLog (MsgError (S retries) max_retries))
                (warn_partial after_partial cw))
  end.

(** The statements after a pass that did not return: [retries] is already
    incremented. [None] when [time.sleep] raises. *)
Definition after_failure (retries : nat) (retry_delay : Z) (cw : cworld)
  : option (Z * cworld) :=
  if bool_decide (Z.of_nat retries < max_retries) then
    if bool_decide (retry_delay < 0 ∨ sleep_limit < retry_delay) then None
    else Some (retry_delay * 2,
               cemit (CvSleep retry_delay) (cemit (CvLog (MsgRetrying retry_delay)) cw))
  else Some (retry_delay, cw).

(** The [while retries < max_retries] loop and the two statements after
    it. *)
Equations? retry_loop (retries : nat) (retry_delay : Z) (cw : cworld)
  : translated * cworld
  by wf (Z.to_nat (max_retries - Z.of_nat retries)) lt :=
  retry_loop retries retry_delay cw
    with decide (Z.of_nat retries < max_retries) => {
    | right _ := (Returned None, cemit (CvLog (MsgGaveUp max_retries)) cw);
    | left _
        with attempt retries cw => {
        | (true, cw1) := (Returned (Some output_file), cw1);
        | (false, cw1)
            with after_failure (S retries) retry_delay cw1 => {
            | Some (retry_delay', cw2) := retry_loop (S retries) retry_delay' cw2;
            | None :=
                (SleepRaised, cemit (CvLog (MsgRetrying retry_delay)) cw1) } } }.
Proof. all: lia. Qed.
End Translate.

(** [translate_to_markdown(file_path, output_dir, logger, pipeline_options,
    max_retries, retry_delay)]; the paths it returns lie in [output_dir]
    and are given by their names. *)
Definition translate_to_markdown (file_path : str) (pipeline_options : bool)
    (max_retries retry_delay : Z) (cw : cworld) : translated * cworld :=
  if negb (is_supported_file file_path) then
    (Returned None, cemit (CvLog MsgSkipUnsupported) cw)
  else
    let output_file := stem file_path ++ lit ".md" in
    retry_loop pipeline_options max_retries file_path output_file
               0 retry_delay cw.
End Converter.

(** The calls of the engine, the delays slept, the files written, and the
    paths whose file was written or emptied. *)
Definition converts_of (evs : list cevent) : list (str * bool) :=
  omap (λ e, match e with CvConvert f o => Some (f, o) | _ => None end) evs.

Definition sleeps_of (evs : list cevent) : list Z :=
  omap (λ e, match e with CvSleep d => Some d | _ => None end) evs.

Definition cwrites_of (evs : list cevent) : list (str * str) :=
  omap (λ e, match e with CvWrite p t => Some (p, t) | _ => None end) evs.

Definition touched_of (evs : list cevent) : list str :=
  omap (λ e, match e with
             | CvWrite p _ | CvWriteError p true => Some p
             | _ => None
             end) evs.

(** The markdown of a pass in which the engine gives some. *)
Definition markdown_of (c : conversion) : option str :=
  match c with
  | Success md | PartialSuccess md => Some md
  | _ => None
  end.

(** A pass in which the engine gives no markdown. *)
Definition fails (c : conversion) : bool :=
  match c with Failure | Raised _ => true | _ => false end.

(** A pass that does not return: the engine gives no markdown, or the
    markdown cannot be written to [output_file] in the directory [d]. *)
Definition pass_fails (d : gmap str entry) (output_file : str)
    (c : conversion) : bool :=
  match markdown_of c with
  | Some md => negb (write_ok d output_file md)
  | None => true
  end.

(** The ASCII part of [str.lower], for examples. *)
Definition ascii_lower (s : str) : str :=
  (λ c, if bool_decide (65 ≤ c ≤ 90)%N then (c + 32)%N else c) <$> s.

(** ** The command line program *)

(** The arguments that the conversion and the packing depend on:
    [--combine], [--max-words] and [--retries]. *)
Record arguments := Args {
  args_combine : bool;
  args_max_words : Z;
  args_retries : Z }.

(** How [main] ends: with [sys.exit(code)], with the exception of
    [time.sleep] or of a write of the packer, or after its last line, with
    the numbers of its summary and, where it packed, the name and the word
    count it logs for each combined file. *)
Inductive ended :=
| Exited (code : Z)
| SleepError
| PackError
| Completed (processed : nat) (successful_files : list str)
            (combined_files : option (list (str * Z))).

(** A run of [main]: how it ended, the output directory it left, and what
    the converter and the packer did. The lines [main] itself logs and
    prints are left out. *)
Record run := Run {
  r_ended : ended;
  r_dir : gmap str entry;
  r_conv : list cevent;
  r_pack : list event }.

Section Main.
Variable isalnum : N → bool.
Variable lower : str → str.
Variable engine : str → bool → nat → conversion.
Variable sleep_limit : Z.

(** The entries of [input_folder.glob('*')] are given with [is_file()];
    hidden files and directories are left out. *)
Definition all_files (entries : list (str * bool)) : list str :=
  (filter (λ e, e.2 = true ∧ startswith e.1 (lit ".") = false) entries).*1.

Definition supported_files (entries : list (str * bool)) : list str :=
  filter (λ f, is_supported_file lower f = true) (all_files entries).

(** The loop over [supported_files]: [pipeline_options] is always given,
    [retry_delay] is the default 2. [None] when a call raised. *)
Fixpoint convert_files (max_retries : Z) (files successful_files : list str)
    (cw : cworld) : option (list str) * cworld :=
  match files with
  | [] => (Some successful_files, cw)
  | file_path :: files =>
      match translate_to_markdown lower engine sleep_limit file_path true
              max_retries 2 cw with
      | (Returned (Some result_path), cw) =>
          convert_files max_retries files (successful_files ++ [result_path]) cw
      | (Returned None, cw) =>
          convert_files max_retries files successful_files cw
      | (SleepRaised, cw) => (None, cw)
      end
  end.

(** The loop over [combined_files] that logs their word counts. *)
Fixpoint report_counts (combined_files : list str) (w : world)
  : list (str * Z) * world :=
  match combined_files with
  | [] => ([], w)
  | cf :: combined_files =>
      let '(word_count, w) := count_words isalnum cf w in
      let '(rest, w) := report_counts combined_files w in
      ((cf, word_count) :: rest, w)
  end.

(** [main()] on an input folder, [None] when it does not exist or is not a
    directory, and an output directory. *)
Definition main (folder : option (list (str * bool))) (args : arguments)
    (output_dir : gmap str entry) : run :=
  match folder with
  | None => Run (Exited 1) output_dir [] []
  | Some entries =>
      let supported_files := supported_files entries in
      if bool_decide (supported_files = []) then Run (Exited 0) output_dir [] []
      else
        match convert_files (args_retries args) supported_files []
                (CWorld output_dir []) with
        | (None, cw) => Run SleepError (c_out cw) (c_trace cw) []
        | (Some successful_files, cw) =>
            if args_combine args && bool_decide (successful_files ≠ []) then
              match combine_markdown_files isalnum (args_max_words args) true
                      (World (c_out cw) []) with
              | (Some combined_files, w) =>
                  let '(counts, w) := report_counts combined_files w in
                  Run (Completed (length supported_files) successful_files
                         (Some counts))
                      (w_dir w) (c_trace cw) (w_trace w)
              | (None, w) => Run PackError (w_dir w) (c_trace cw) (w_trace w)
              end
            else
              Run (Completed (length supported_files) successful_files None)
                  (c_out cw) (c_trace cw) []
        end
  end.
End Main.

(** An engine that raises in the first [k] passes and gives [c] from then
    on, for examples. *)
Definition engine_after (k : nat) (c : conversion)
  : str → bool → nat → conversion :=
  λ _ _ attempt, if bool_decide (attempt < k)%nat then Raised false else c.

(** * Properties *)

(** ** The word counter *)

Section WordCounterFacts.
Variable isalnum : N → bool.

Lemma word_at_drop s i k : word_at isalnum (drop i s) k = word_at isalnum s (i + k).
Proof. unfold word_at. by rewrite lookup_drop. Qed.

Lemma span_len_inside l k : (k < span_len isalnum l)%nat → word_at isalnum l k = true.
Proof.
  revert k. induction l as [|c l IH]; intros k; simpl; [lia|].
  destruct (is_word isalnum c) eqn:Hc; [|lia].
  destruct k as [|k]; intros Hk.
  - unfold word_at. simpl. done.
  - apply (IH k). lia.
Qed.

Lemma span_len_end l : word_at isalnum l (span_len isalnum l) = false.
Proof.
  induction l as [|c l IH]; simpl; [done|].
  destruct (is_word isalnum c) eqn:Hc; [exact IH|].
  unfold word_at. simpl. done.
Qed.

(** The span is the distance to the first character that is not a word
    character. *)
Lemma span_len_unique l n :
  (∀ k, (k < n)%nat → word_at isalnum l k = true) → word_at isalnum l n = false →
  span_len isalnum l = n.
Proof.
  intros Hin Hend.
  destruct (Nat.lt_trichotomy (span_len isalnum l) n) as [Hlt|[Heq|Hgt]]; [|done|].
  - pose proof (Hin _ Hlt) as H. rewrite span_len_end in H. done.
  - pose proof (span_len_inside l n Hgt) as H. congruence.
Qed.

Lemma backtrack_first s i k :
  at_boundary isalnum s (i + S k) = true → backtrack isalnum s i (S k) = Some (i + S k)%nat.
Proof. intros H. simpl. by rewrite H. Qed.

(** A match of [\b\w+\b] at [i] is a maximal run that starts at [i]. *)
Lemma match_at_spec s i e : match_at isalnum s i = Some e ↔ maximal_run isalnum s i e.
Proof.
  unfold match_at, maximal_run.
  pose proof (span_len_inside (drop i s)) as Hin.
  pose proof (span_len_end (drop i s)) as Hend.
  setoid_rewrite word_at_drop in Hin. rewrite word_at_drop in Hend.
  split.
  - destruct (at_boundary isalnum s i) eqn:Hb; [|done].
    destruct (span_len isalnum (drop i s)) as [|n] eqn:Hn; [done|].
    assert (at_boundary isalnum s (i + S n) = true) as Hb'.
    { unfold at_boundary. replace (i + S n)%nat with (S (i + n)) by lia.
      rewrite (Hin n) by lia. replace (S (i + n)) with (i + S n)%nat by lia.
      by rewrite Hend. }
    rewrite backtrack_first by done. intros [= <-].
    split; [lia|]. split; [|split; [|done]].
    + intros k Hk. replace k with (i + (k - i))%nat by lia. apply Hin. lia.
    + unfold at_boundary in Hb. rewrite <- (Nat.add_0_r i) in Hb at 2.
      rewrite (Hin O) in Hb by lia. destruct i as [|i]; [by left|right].
      replace (S i - 1)%nat with i by lia. by destruct (word_at isalnum s i).
  - intros (Hlt & Hrun & Hleft & Hright).
    assert (span_len isalnum (drop i s) = (e - i)%nat) as Hn.
    { apply span_len_unique.
      - intros k Hk. rewrite word_at_drop. apply Hrun. lia.
      - rewrite word_at_drop. by replace (i + (e - i))%nat with e by lia. }
    assert (at_boundary isalnum s i = true) as ->.
    { unfold at_boundary. rewrite (Hrun i) by lia.
      destruct Hleft as [-> | Hleft]; [done|]. destruct i as [|i]; [done|].
      replace (S i - 1)%nat with i in Hleft by lia. by rewrite Hleft. }
    rewrite Hn. destruct (e - i)%nat as [|n] eqn:Hei; [lia|].
    replace e with (i + S n)%nat by lia. apply backtrack_first.
    unfold at_boundary. replace (i + S n)%nat with (S (i + n)) by lia.
    rewrite (Hrun (i + n)%nat) by lia. replace (S (i + n)) with e by lia.
    by rewrite Hright.
Qed.

Lemma maximal_run_in_text s i j : maximal_run isalnum s i j → (j ≤ length s)%nat.
Proof.
  intros (Hlt & Hrun & _ & _).
  specialize (Hrun (j - 1)%nat ltac:(lia)). unfold word_at in Hrun.
  destruct (s !! (j - 1)%nat) eqn:Hl; [|done].
  apply lookup_lt_Some in Hl. lia.
Qed.

(** A maximal run does not start inside another one. *)
Lemma maximal_run_disjoint s i j i' j' :
  maximal_run isalnum s i j → maximal_run isalnum s i' j' → (i ≤ i' < j)%nat → i' = i ∧ j' = j.
Proof.
  intros (Hlt & Hrun & Hleft & Hright) (Hlt' & Hrun' & Hleft' & Hright') Hi.
  assert (i' = i) as ->.
  { destruct (decide (i' = i)) as [|Hne]; [done|].
    destruct Hleft' as [-> | Hleft']; [lia|].
    rewrite Hrun in Hleft' by lia. done. }
  split; [done|].
  destruct (Nat.lt_trichotomy j j') as [H|[H|H]]; [|done|].
  - rewrite Hrun' in Hright by lia. done.
  - rewrite Hrun in Hright' by lia. done.
Qed.

(** The scan from [pos] finds the maximal runs that start at [pos] or
    later, each once and from left to right. *)
Lemma findall_from_spec s pos i j :
  (i, j) ∈ findall_from isalnum s pos
  ↔ (pos ≤ i)%nat ∧ maximal_run isalnum s i j.
Proof.
  funelim (findall_from isalnum s pos).
  - (* the end of the text *)
    rewrite elem_of_nil. split; [done|]. intros [Hge Hr].
    apply maximal_run_in_text in Hr as Hj. destruct Hr as [Hlt _]. lia.
  - (* a match at [pos] *)
    pose proof Heq as Hm. apply match_at_spec in Hm.
    assert (pos < e)%nat as Hlt by apply Hm.
    rewrite Nat.max_l in * by lia.
    rewrite elem_of_cons, H. split.
    + intros [[= -> ->] | [Hge Hr]]; [done|]. split; [lia|done].
    + intros [Hge Hr].
      destruct (decide (i < e)%nat) as [Hin|Hout]; [left|right; split; [lia|done]].
      destruct (maximal_run_disjoint s pos e i j Hm Hr) as [-> ->]; [lia|done].
  - (* no match at [pos] *)
    rewrite H. split.
    + intros [Hge Hr]. split; [lia|done].
    + intros [Hge Hr]. split; [|done].
      destruct (decide (i = pos)) as [->|]; [|lia].
      apply match_at_spec in Hr. congruence.
Qed.

Lemma findall_from_NoDup s pos : NoDup (findall_from isalnum s pos).
Proof.
  funelim (findall_from isalnum s pos).
  - constructor.
  - apply NoDup_cons. split; [|done].
    pose proof Heq as Hm. apply match_at_spec in Hm.
    assert (pos < e)%nat as Hlt by apply Hm.
    rewrite findall_from_spec. rewrite Nat.max_l by lia. lia.
  - done.
Qed.

Lemma length_re_findall content :
  length (re_findall isalnum content) = length (findall_from isalnum content 0).
Proof. unfold re_findall. by rewrite length_fmap. Qed.
End WordCounterFacts.

(** ** Text and paths *)

Lemma lit_inj : Inj (=) (=) lit.
Proof.
  intros a b Hab. unfold lit in Hab.
  assert (Inj (=) (=) Ascii.N_of_ascii) as Hinj.
  { intros x y Hxy. rewrite <- (Ascii.ascii_N_embedding x), Hxy.
    apply Ascii.ascii_N_embedding. }
  apply (inj (fmap Ascii.N_of_ascii)) in Hab.
  rewrite <- (String.string_of_list_ascii_of_string a), Hab.
  apply String.string_of_list_ascii_of_string.
Qed.

Lemma startswith_app p s : startswith (p ++ s) p = true.
Proof.
  induction p as [|a p IH]; simpl; [done|].
  rewrite IH. by rewrite bool_decide_eq_true_2.
Qed.

Lemma startswith_prefix s p : startswith s p = true ↔ ∃ r, s = p ++ r.
Proof.
  revert s. induction p as [|a p IH]; intros s; simpl.
  - split; [by exists s|done].
  - destruct s as [|b s].
    + split; [done|]. by intros [r Hr].
    + rewrite andb_true_iff, bool_decide_eq_true, IH. split.
      * intros [-> [r ->]]. by exists r.
      * intros [r [= -> ->]]. eauto.
Qed.

Lemma rfind_None c s : c ∉ s → rfind c s = None.
Proof.
  induction s as [|x s IH]; simpl; [done|].
  rewrite not_elem_of_cons. intros [Hne Hs]. rewrite (IH Hs).
  by rewrite bool_decide_eq_false_2.
Qed.

Lemma rfind_last a c b : c ∉ b → rfind c (a ++ c :: b) = Some (length a).
Proof.
  intros Hb. induction a as [|x a IH]; simpl.
  - rewrite (rfind_None _ _ Hb). by rewrite bool_decide_eq_true_2.
  - by rewrite IH.
Qed.

Lemma stem_md a : a ≠ [] → stem (a ++ lit ".md") = a.
Proof.
  intros Ha. unfold stem. change (lit ".md") with ([46; 109; 100]%N).
  rewrite rfind_last.
  - rewrite bool_decide_eq_true_2.
    + by rewrite take_app_length.
    + rewrite length_app. simpl. destruct a; [done|simpl; lia].
  - rewrite !not_elem_of_cons. repeat split; try done. apply not_elem_of_nil.
Qed.

Lemma stem_packed_path k : stem (packed_path k) = lit "packed_" ++ lit (pretty k).
Proof. unfold packed_path. rewrite (assoc_L (++)). by apply stem_md. Qed.

Lemma packed_path_inj : Inj (=) (=) packed_path.
Proof.
  intros i j Hij. unfold packed_path in Hij.
  apply (inj (app _)) in Hij. apply (inj (λ x, x ++ _)) in Hij.
  apply lit_inj in Hij. by apply (inj pretty) in Hij.
Qed.

Lemma elem_of_discover d f :
  f ∈ discover d ↔
  is_Some (d !! f) ∧ endswith f (lit ".md") = true
  ∧ startswith (stem f) (lit "packed_") = false.
Proof.
  unfold discover, glob_md.
  rewrite !list_elem_of_filter, elem_of_elements, elem_of_dom.
  destruct (startswith _ _), (endswith _ _); simpl; intuition congruence.
Qed.

(** No bundle path is ever an input of the packer. *)
Lemma discover_not_packed d f k : f ∈ discover d → f ≠ packed_path k.
Proof.
  rewrite elem_of_discover. intros (_ & _ & Hs) ->.
  rewrite stem_packed_path, startswith_app in Hs. done.
Qed.

Lemma NoDup_discover d : NoDup (discover d).
Proof.
  unfold discover, glob_md. do 2 apply NoDup_filter. apply NoDup_elements.
Qed.

(** ** The order of the sort *)

Global Instance str_le_refl : Reflexive str_le.
Proof.
  intros a. unfold str_le. induction a as [|x a IH]; simpl; [done|].
  by rewrite bool_decide_eq_true_2.
Qed.

Global Instance str_le_total : Total str_le.
Proof.
  intros a. unfold str_le. induction a as [|x a IH]; intros [|y b]; simpl; auto.
  destruct (decide (x = y)) as [->|Hne].
  - rewrite !bool_decide_eq_true_2 by done. apply IH.
  - rewrite !(bool_decide_eq_false_2 (_ = _)) by done.
    rewrite !bool_decide_eq_true. lia.
Qed.

Global Instance str_le_trans : Transitive str_le.
Proof.
  intros a. unfold str_le.
  induction a as [|x a IH]; intros [|y b] [|z c]; simpl; try done.
  repeat case_bool_decide; subst; try done; try lia; eauto.
Qed.

Global Instance str_le_antisymm : AntiSymm (=) str_le.
Proof.
  intros a. unfold str_le.
  induction a as [|x a IH]; intros [|y b]; simpl; try done.
  repeat case_bool_decide; subst; try done; try lia.
  intros H1 H2. f_equal. by apply IH.
Qed.

Lemma sorted_inputs_perm d : sorted_inputs d ≡ₚ discover d.
Proof. apply merge_sort_Permutation. Qed.

Lemma sorted_inputs_sorted d : Sorted str_le (sorted_inputs d).
Proof. apply (Sorted_merge_sort str_le). Qed.

Lemma elem_of_sorted_inputs d f : f ∈ sorted_inputs d ↔ f ∈ discover d.
Proof. by rewrite sorted_inputs_perm. Qed.

(** Whatever the algorithm of [list.sort], its result on the discovered
    files is this list: the sorted arrangement of a list is unique. *)
Lemma sorted_inputs_unique d l :
  l ≡ₚ discover d → Sorted str_le l → l = sorted_inputs d.
Proof.
  intros Hp Hs. apply (Sorted_unique str_le); [done|apply sorted_inputs_sorted|].
  by rewrite sorted_inputs_perm.
Qed.

(** ** Reading and writing *)

Section PackerFacts.
Variables (isalnum : N → bool).

Lemma count_words_eq p w :
  count_words isalnum p w
  = (words_of isalnum (w_dir w) p,
     if readable (w_dir w) p then emit (EvRead p) w
     else emit (EvCountError p) (emit (EvRead p) w)).
Proof.
  unfold count_words, read_text, readable, words_of.
  by destruct (w_dir w !! p) as [[]|].
Qed.

Lemma words_of_nonneg d f : 0 ≤ words_of isalnum d f.
Proof. unfold words_of. destruct (d !! f) as [[]|]; lia. Qed.

Lemma words_of_unreadable d f : readable d f = false → words_of isalnum d f = 0.
Proof. unfold words_of, readable. by destruct (d !! f) as [[]|]. Qed.

Lemma sum_words_app d a b :
  sum_words isalnum d (a ++ b) = sum_words isalnum d a + sum_words isalnum d b.
Proof. unfold sum_words. induction a as [|x a IH]; simpl; lia. Qed.

Lemma sum_words_nonneg d a : 0 ≤ sum_words isalnum d a.
Proof.
  unfold sum_words. induction a as [|x a IH]; simpl; [lia|].
  pose proof (words_of_nonneg d x). lia.
Qed.
End PackerFacts.

Section WrittenFacts.
Variable d0 : gmap str entry.

Lemma written_snoc bs b :
  written d0 (bs ++ [b])
  = <[packed_path (index b) := File (bundle_text d0 (members b))]> (written d0 bs).
Proof. unfold written. by rewrite foldl_app. Qed.

(** Writing bundles leaves every other entry as it was. *)
Lemma written_lookup_other bs p :
  (∀ k, p ≠ packed_path k) → written d0 bs !! p = d0 !! p.
Proof.
  intros Hp. induction bs as [|b bs IH] using rev_ind; [done|].
  rewrite written_snoc, lookup_insert_ne; [done|]. intros H. by eapply Hp.
Qed.

Lemma written_lookup bs k b :
  index <$> bs = seq 0 (length bs) → bs !! k = Some b →
  written d0 bs !! packed_path k = Some (File (bundle_text d0 (members b))).
Proof.
  revert k b. induction bs as [|b' bs IH] using rev_ind; intros k b Hidx Hk; [done|].
  rewrite fmap_app, length_app, seq_app in Hidx. simpl in Hidx.
  apply app_inj_1 in Hidx as [Hidx Hb']; [|by rewrite length_fmap, length_seq].
  injection Hb' as Hb'. rewrite written_snoc, Hb'.
  destruct (decide (k = length bs)) as [->|Hne].
  - rewrite list_lookup_middle in Hk by done. injection Hk as ->.
    by rewrite lookup_insert_eq.
  - assert (k < length bs)%nat as Hlt.
    { apply lookup_lt_Some in Hk. rewrite length_app in Hk. simpl in Hk. lia. }
    rewrite lookup_app_l in Hk by done.
    rewrite lookup_insert_ne; [by apply IH|].
    intros H. apply packed_path_inj in H. lia.
Qed.

End WrittenFacts.

Lemma lookup_text (d : gmap str entry) f :
  match d !! f with Some (File text) => Some text | _ => None end
  = if readable d f then Some (text_of d f) else None.
Proof. unfold readable, text_of. by destruct (d !! f) as [[]|]. Qed.

Lemma seq_snoc n : seq 0 (n + 1) = seq 0 n ++ [n].
Proof. by rewrite seq_app. Qed.

(** [write_text] by cases on whether the write goes through. *)
Lemma write_text_eq p t w :
  write_text p t w
  = if write_ok (w_dir w) p t then
      (true, World (<[p := File t]> (w_dir w)) (w_trace w ++ [EvWrite p t]))
    else
      (false, World (failed_write (w_dir w) p)
                    (w_trace w ++ [EvWriteError p (openable (w_dir w) p)])).
Proof.
  unfold write_text, write_ok, failed_write, openable.
  by destruct (w_dir w !! p) as [[t'|]|] eqn:Hp; destruct (encodable t).
Qed.

Lemma write_ok_encodable d p t : write_ok d p t = true → encodable t = true.
Proof. unfold write_ok. by intros [_ ?]%andb_true_iff. Qed.

Lemma write_ok_ext d d' p t :
  openable d p = openable d' p → write_ok d p t = write_ok d' p t.
Proof. unfold write_ok. by intros ->. Qed.

(** A write that raises leaves every other entry as it was and removes
    none. *)
Lemma failed_write_lookup_ne (d : gmap str entry) p q :
  q ≠ p → failed_write d p !! q = d !! q.
Proof.
  intros Hne. unfold failed_write.
  destruct (openable d p); by rewrite ?lookup_insert_ne.
Qed.

Lemma failed_write_lookup (d : gmap str entry) p :
  failed_write d p !! p = if openable d p then Some (File []) else d !! p.
Proof.
  unfold failed_write. destruct (openable d p); by rewrite ?lookup_insert_eq.
Qed.

Section WrittenMore.
Variable d0 : gmap str entry.

Lemma written_lookup_notin (bs : list bundle) p :
  index <$> bs = seq 0 (length bs) →
  p ∉ packed_path <$> seq 0 (length bs) →
  written d0 bs !! p = d0 !! p.
Proof.
  intros Hidx Hp. rewrite <- Hidx in Hp. clear Hidx.
  induction bs as [|b bs IH] using rev_ind; [done|].
  rewrite written_snoc, lookup_insert_ne.
  - apply IH. intros Hin. apply Hp. rewrite !fmap_app.
    apply elem_of_app. by left.
  - intros <-. apply Hp. rewrite !fmap_app. apply elem_of_app. right.
    simpl. by apply list_elem_of_singleton.
Qed.

(** The path of the next bundle is not written yet. *)
Lemma written_lookup_next (bs : list bundle) k :
  index <$> bs = seq 0 (length bs) → (length bs ≤ k)%nat →
  written d0 bs !! packed_path k = d0 !! packed_path k.
Proof.
  intros Hidx Hk. apply written_lookup_notin; [done|].
  intros (j & Hj & Hin)%list_elem_of_fmap.
  apply packed_path_inj in Hj as <-. apply elem_of_seq in Hin. lia.
Qed.

Lemma write_ok_written (bs : list bundle) t :
  index <$> bs = seq 0 (length bs) →
  write_ok (written d0 bs) (packed_path (length bs)) t
  = write_ok d0 (packed_path (length bs)) t.
Proof.
  intros Hidx. apply write_ok_ext. unfold openable.
  by rewrite written_lookup_next.
Qed.
End WrittenMore.

(** The loop over a list with one more file. *)
Lemma for_each_snoc {S W} (body : S * W → str → option S * W) files f st :
  for_each body (files ++ [f]) st
  = match for_each body files st with
    | (Some s, w) => body (s, w) f
    | (None, w) => (None, w)
    end.
Proof.
  revert st. induction files as [|f' files IH]; intros st; simpl.
  - destruct st as [s w]. simpl. by destruct (body (s, w) f) as [[s'|] w'].
  - destruct (body st f') as [[s'|] w']; [apply IH|done].
Qed.

Lemma elem_of_twice' (l : list str) p : p ∈ l ≫= (λ f, [f; f]) → p ∈ l.
Proof.
  intros (f & Hp & Hf)%list_elem_of_bind.
  rewrite !elem_of_cons, elem_of_nil in Hp. by destruct Hp as [->|[->|[]]].
Qed.

(** ** The threshold, where no readable file is without a word *)

Section ThresholdFacts.
Variables (isalnum : N → bool) (d0 : gmap str entry) (max_words : Z).

Lemma no_blank_app_l done f :
  no_blank isalnum d0 (done ++ [f]) → no_blank isalnum d0 done.
Proof. intros H g Hg. apply H, elem_of_app. by left. Qed.

Lemma no_blank_last done f :
  no_blank isalnum d0 (done ++ [f]) → readable d0 f = true →
  words_of isalnum d0 f > 0.
Proof.
  intros H. apply H, elem_of_app. right. by apply list_elem_of_singleton.
Qed.

Lemma accumulator_ok_init : accumulator_ok isalnum d0 max_words [] [] [].
Proof.
  split; [done|]. split.
  - intros b Hb. apply list_elem_of_singleton in Hb as ->. simpl. lia.
  - intros f Hf. by apply elem_of_nil in Hf.
Qed.

(** The accumulator is finalized and the file starts the next one. *)
Lemma accumulator_ok_flush done bs ms f :
  accumulator_ok isalnum d0 max_words done bs ms →
  no_blank isalnum d0 (done ++ [f]) →
  accumulator_ok isalnum d0 max_words (done ++ [f])
    (bs ++ [Bundle (length bs) ms (sum_words isalnum d0 ms)])
    (if readable d0 f then [f] else []).
Proof.
  intros (Hpos & Hone & Hbig) Hnb.
  pose proof (no_blank_last _ _ Hnb) as Hf.
  split; [|split].
  - destruct (readable d0 f); [|done]. intros _.
    unfold sum_words. simpl. specialize (Hf eq_refl). lia.
  - intros b Hb. apply elem_of_app in Hb as [Hb|Hb]; [by apply Hone|].
    apply list_elem_of_singleton in Hb as ->. simpl.
    destruct (readable d0 f); simpl; lia.
  - intros g Hg Hrd Hgt. apply elem_of_app in Hg as [Hg|Hg].
    + destruct (Hbig g Hg Hrd Hgt) as (b & Hb & Hm). exists b.
      split; [|done]. apply elem_of_app. by left.
    + apply list_elem_of_singleton in Hg as ->. rewrite Hrd.
      eexists.
      split; [apply elem_of_app; right; by apply list_elem_of_singleton|].
      done.
Qed.

(** The file joins the accumulator, or is skipped. *)
Lemma accumulator_ok_keep done bs ms f :
  accumulator_ok isalnum d0 max_words done bs ms →
  no_blank isalnum d0 (done ++ [f]) →
  ¬ (sum_words isalnum d0 ms > 0
     ∧ sum_words isalnum d0 ms + words_of isalnum d0 f > max_words) →
  accumulator_ok isalnum d0 max_words (done ++ [f]) bs
    (ms ++ if readable d0 f then [f] else []).
Proof.
  intros (Hpos & Hone & Hbig) Hnb Hkeep.
  pose proof (no_blank_last _ _ Hnb) as Hf.
  pose proof (sum_words_nonneg isalnum d0 ms) as Hms.
  pose proof (words_of_nonneg isalnum d0 f) as Hwf.
  assert (sum_words isalnum d0 (ms ++ if readable d0 f then [f] else [])
          = sum_words isalnum d0 ms
            + if readable d0 f then words_of isalnum d0 f else 0) as Hsum.
  { rewrite sum_words_app. destruct (readable d0 f); unfold sum_words; simpl; lia. }
  assert (∀ b, b ∈ bs ++ [Bundle (length bs) ms (sum_words isalnum d0 ms)] →
          b ∈ bs ∨ b = Bundle (length bs) ms (sum_words isalnum d0 ms)) as Hsplit.
  { intros b Hb. apply elem_of_app in Hb as [Hb|Hb]; [by left|right].
    by apply list_elem_of_singleton in Hb. }
  split; [|split].
  - intros Hne. rewrite Hsum. destruct ms as [|m ms].
    + destruct (readable d0 f); [|done]. specialize (Hf eq_refl). simpl.
      unfold sum_words. simpl. lia.
    + specialize (Hpos ltac:(done)). destruct (readable d0 f); lia.
  - intros b Hb. apply elem_of_app in Hb as [Hb|Hb].
    + apply Hone, elem_of_app. by left.
    + apply list_elem_of_singleton in Hb as ->.
      simpl. rewrite Hsum. intros Hlen.
      destruct (readable d0 f) eqn:Hrd.
      * rewrite length_app in Hlen. simpl in Hlen.
        assert (ms ≠ []) as Hne by (intros ->; simpl in Hlen; lia).
        specialize (Hpos Hne). lia.
      * rewrite app_nil_r in Hlen.
        assert (sum_words isalnum d0 ms ≤ max_words); [|lia].
        apply (Hone (Bundle (length bs) ms (sum_words isalnum d0 ms))); [|done].
        apply elem_of_app. right. by apply list_elem_of_singleton.
  - intros g Hg Hrd Hgt. apply elem_of_app in Hg as [Hg|Hg].
    + destruct (Hbig g Hg Hrd Hgt) as (b & Hb & Hm).
      apply Hsplit in Hb as [Hb| ->].
      * exists b. split; [|done]. apply elem_of_app. by left.
      * simpl in Hm. subst ms. exfalso. apply Hkeep.
        specialize (Hpos ltac:(done)). unfold sum_words in *. simpl in *. lia.
    + apply list_elem_of_singleton in Hg as ->. rewrite Hrd.
      assert (ms = []) as ->.
      { destruct ms as [|m ms]; [done|]. exfalso. apply Hkeep.
        specialize (Hpos ltac:(done)). lia. }
      eexists.
      split; [apply elem_of_app; right; by apply list_elem_of_singleton|].
      done.
Qed.

(** After the loop the accumulator, where it has members, becomes the
    last bundle. *)
Lemma accumulator_ok_final fs bs ms :
  accumulator_ok isalnum d0 max_words fs bs ms →
  within_threshold isalnum d0 max_words fs
    (bs ++ match ms with
           | [] => []
           | _ :: _ => [Bundle (length bs) ms (sum_words isalnum d0 ms)]
           end).
Proof.
  intros (Hpos & Hone & Hbig). destruct ms as [|m ms]; [|by split].
  rewrite app_nil_r. split.
  - intros b Hb. apply Hone, elem_of_app. by left.
  - intros g Hg Hrd Hgt. destruct (Hbig g Hg Hrd Hgt) as (b & Hb & Hm).
    apply elem_of_app in Hb as [Hb|Hb]; [by exists b|].
    apply list_elem_of_singleton in Hb as ->. done.
Qed.
End ThresholdFacts.

(** ** The loop invariant *)

Section LoopFacts.
Variables (isalnum : N → bool) (max_words : Z).
Variables (d0 : gmap str entry) (tr0 : list event).

Lemma trace_inv_step logger done bs evs f bs' evs' :
  trace_inv d0 logger done bs evs →
  reads_of evs' = [f; f] →
  writes_of evs' = bundle_file d0 <$> bs' →
  (∀ p e, EvWriteError p e ∉ evs') →
  (∀ x, EvCountError x ∈ evs' ↔ x = f ∧ readable d0 f = false) →
  (∀ x, EvReadError x ∈ evs' ↔ logger = true ∧ x = f ∧ readable d0 f = false) →
  trace_inv d0 logger (done ++ [f]) (bs ++ bs') (evs ++ evs').
Proof.
  intros [Hr Hw Hwe Hc He] Hr' Hw' Hwe' Hc' He'. split.
  - unfold reads_of in *. by rewrite omap_app, Hr, Hr', bind_app.
  - unfold writes_of in *. by rewrite omap_app, Hw, Hw', fmap_app.
  - intros p e [H|H]%elem_of_app; [by eapply Hwe | by eapply Hwe'].
  - intros x. rewrite !elem_of_app, Hc, Hc', list_elem_of_singleton.
    naive_solver.
  - intros x. rewrite !elem_of_app, He, He', list_elem_of_singleton.
    naive_solver.
Qed.

Lemma trace_inv_same logger done bs evs f evs' :
  trace_inv d0 logger done bs evs →
  reads_of evs' = [f; f] →
  writes_of evs' = [] →
  (∀ p e, EvWriteError p e ∉ evs') →
  (∀ x, EvCountError x ∈ evs' ↔ x = f ∧ readable d0 f = false) →
  (∀ x, EvReadError x ∈ evs' ↔ logger = true ∧ x = f ∧ readable d0 f = false) →
  trace_inv d0 logger (done ++ [f]) bs (evs ++ evs').
Proof.
  intros. rewrite <- (app_nil_r bs). by apply trace_inv_step.
Qed.

Lemma loop_inv_init logger :
  loop_inv isalnum d0 max_words logger tr0 [] (Locals [] 0 0 []) (World d0 tr0)
           (Ghost [] []).
Proof.
  split; simpl; try done; [|intros _; apply accumulator_ok_init].
  exists []. split; [by rewrite app_nil_r|].
  split; simpl; try done.
  - intros p e H. by apply elem_of_nil in H.
  - intros f; rewrite !elem_of_nil; tauto.
  - intros f; rewrite !elem_of_nil; tauto.
Qed.

(** The members of the accumulator when its total is positive. *)
Lemma sum_words_pos ms : sum_words isalnum d0 ms > 0 → ms ≠ [].
Proof. intros Hpos ->. unfold sum_words in Hpos. simpl in Hpos. lia. Qed.

(** The body where the flush raises. *)
Lemma loop_body_g_raise logger done l w g f :
  (∀ k, f ≠ packed_path k) →
  loop_inv isalnum d0 max_words logger tr0 done l w g →
  sum_words isalnum d0 (g_members g) > 0 →
  sum_words isalnum d0 (g_members g) + words_of isalnum d0 f > max_words →
  writable d0 (Bundle (length (g_bundles g)) (g_members g)
                 (sum_words isalnum d0 (g_members g))) = false →
  ∃ w' evs,
    loop_body_g isalnum max_words logger (l, (w, g)) f = (None, (w', g))
    ∧ raised_at isalnum d0 w g w' evs
    ∧ reads_of evs = [f].
Proof.
  intros Hf [Hdir Hidx Hidcs Hfiles Hmem Hcnt Hbs Hcont (evs & Htr & Htinv) Hthr Hwr]
    Hpos Hbig Hw.
  destruct l as [cf idx cnt content], w as [d tr], g as [ms bs].
  simpl in *. subst d idx cf cnt content tr.
  unfold loop_body_g. rewrite count_words_eq. simpl.
  assert (words_of isalnum (written d0 bs) f = words_of isalnum d0 f) as ->.
  { unfold words_of. by rewrite written_lookup_other. }
  rewrite bool_decide_eq_true_2 by done.
  unfold writable, bundle_file in Hw. simpl in Hw. unfold bundle_text in Hw.
  set (e := EvWriteError (packed_path (length bs))
              (openable (written d0 bs) (packed_path (length bs)))).
  destruct (readable (written d0 bs) f); rewrite write_text_eq; simpl;
    rewrite write_ok_written, Hw by done; simpl.
  - exists (World (failed_write (written d0 bs) (packed_path (length bs)))
              ((tr0 ++ evs) ++ [EvRead f; e])), [EvRead f; e].
    split; [by rewrite <- !(assoc_L (++))|]. split; [|done].
    split; simpl; try done; [by apply sum_words_pos|].
    eexists. apply elem_of_cons. right. apply elem_of_cons. by left.
  - exists (World (failed_write (written d0 bs) (packed_path (length bs)))
              ((tr0 ++ evs) ++ [EvRead f; EvCountError f; e])),
           [EvRead f; EvCountError f; e].
    split; [by rewrite <- !(assoc_L (++))|]. split; [|done].
    split; simpl; try done; [by apply sum_words_pos|].
    eexists. rewrite !elem_of_cons. eauto.
Qed.

(** The body where it does not raise: the flush is not due, or its write
    goes through. *)
Lemma loop_body_g_inv logger done l w g f :
  (∀ k, f ≠ packed_path k) →
  loop_inv isalnum d0 max_words logger tr0 done l w g →
  (sum_words isalnum d0 (g_members g) > 0
   ∧ sum_words isalnum d0 (g_members g) + words_of isalnum d0 f > max_words →
   writable d0 (Bundle (length (g_bundles g)) (g_members g)
                  (sum_words isalnum d0 (g_members g))) = true) →
  ∃ l' w' g',
    loop_body_g isalnum max_words logger (l, (w, g)) f = (Some l', (w', g'))
    ∧ loop_inv isalnum d0 max_words logger tr0 (done ++ [f]) l' w' g'.
Proof.
  intros Hf [Hdir Hidx Hidcs Hfiles Hmem Hcnt Hbs Hcont (evs & Htr & Htinv) Hthr Hwr]
    Hwok.
  destruct l as [cf idx cnt content], w as [d tr], g as [ms bs].
  simpl in *. subst d idx cf cnt content tr.
  unfold loop_body_g. rewrite count_words_eq. simpl.
  assert (∀ bs', readable (written d0 bs') f = readable d0 f) as Hrd.
  { intros bs'. unfold readable. by rewrite written_lookup_other. }
  assert (words_of isalnum (written d0 bs) f = words_of isalnum d0 f) as ->.
  { unfold words_of. by rewrite written_lookup_other. }
  rewrite Hrd.
  set (b := Bundle (length bs) ms (sum_words isalnum d0 ms)) in *.
  unfold writable, bundle_file in Hwok. simpl in Hwok.
  unfold bundle_text in Hwok.
  assert (written d0 (bs ++ [b])
          = <[packed_path (length bs) :=
                File (join delimiter
                        ((λ f0, section_of f0 (text_of d0 f0)) <$> ms))]>
              (written d0 bs)) as Hwr' by apply written_snoc.
  assert (length (bs ++ [b]) = (length bs + 1)%nat) as Hlen
    by by rewrite length_app.
  assert (index <$> bs ++ [b] = seq 0 (length (bs ++ [b]))) as Hidcs'.
  { by rewrite Hlen, seq_snoc, fmap_app, Hidcs. }
  assert ((packed_path <$> seq 0 (length bs)) ++ [packed_path (length bs)]
          = packed_path <$> seq 0 (length (bs ++ [b]))) as Hfiles'.
  { by rewrite Hlen, seq_snoc, fmap_app. }
  assert (concat (members <$> bs ++ [b]) = concat (members <$> bs) ++ ms)
    as Hconcat.
  { rewrite fmap_app, concat_app. simpl. by rewrite app_nil_r. }
  assert (filter (λ f0, readable d0 f0) (done ++ [f])
          = filter (λ f0, readable d0 f0) done
            ++ (if readable d0 f then [f] else [])) as Hfilt.
  { rewrite filter_app. f_equal.
    destruct (readable d0 f) eqn:Hr.
    - rewrite filter_cons_True; [done|]. by rewrite Hr.
    - rewrite filter_cons_False; [done|]. rewrite Hr. by intros []. }
  assert (sum_words isalnum d0 ms > 0 → Forall (bundle_ok isalnum d0) (bs ++ [b]))
    as Hbs'.
  { intros Hpos. apply Forall_app. split; [done|].
    apply Forall_singleton. split; [done|]. simpl. by apply sum_words_pos. }
  assert (sum_words isalnum d0 ms > 0
          ∧ sum_words isalnum d0 ms + words_of isalnum d0 f > max_words →
          Forall (λ b0, writable d0 b0 = true) (bs ++ [b])) as Hwrt.
  { intros Hg. apply Forall_app. split; [done|].
    apply Forall_singleton. by apply Hwok. }
  pose proof (words_of_unreadable isalnum d0 f) as Hzero.
  destruct logger, (readable d0 f) eqn:Hread;
    case_bool_decide as Hflush; simpl;
    rewrite ?write_text_eq; simpl;
    rewrite ?write_ok_written by done;
    try rewrite (Hwok Hflush); simpl;
    rewrite ?lookup_insert_ne by done;
    rewrite written_lookup_other, lookup_text, Hread by done;
    eexists _, _, _; (split; [reflexivity|]); split; simpl;
    try done; try (by apply Hbs'; tauto); try (by apply Hwrt);
    rewrite ?Hconcat, ?Hfilt, ?Hread, <- ?Hmem, ?app_nil_r,
      ?sum_words_app, ?fmap_app, <- ?app_assoc;
    try done; try (unfold sum_words; simpl; lia).
  all: try (intros Hnb; specialize (Hthr (no_blank_app_l _ _ _ _ Hnb));
            first [ pose proof (accumulator_ok_flush _ _ max_words _ _ _ f
                                  Hthr Hnb) as Hok;
                    rewrite Hread in Hok; exact Hok
                  | pose proof (accumulator_ok_keep _ _ max_words _ _ _ f
                                  Hthr Hnb Hflush) as Hok;
                    rewrite Hread, ?app_nil_r in Hok; exact Hok ]).
  all: eexists; (split; [reflexivity|]); simpl.
  all: first [apply trace_inv_step | apply trace_inv_same];
    [done|done|done|..].
  all: clear -Hread;
    try (match goal with |- ∀ (p : str) (e : bool), _ => intros p e end);
    try (match goal with |- ∀ x : str, _ => intros x end);
    rewrite ?Hread, ?elem_of_cons, ?elem_of_nil;
    intuition (subst; auto; congruence).
Qed.
End LoopFacts.
Section RunFacts.
Variables (isalnum : N → bool) (max_words : Z) (logger : bool).

(** Where the body does not raise it does to the members what
    [greedy_step] does. *)
Lemma loop_body_g_ghost d0 tr0 done l w g f l' w' g' :
  (∀ k, f ≠ packed_path k) →
  loop_inv isalnum d0 max_words logger tr0 done l w g →
  loop_body_g isalnum max_words logger (l, (w, g)) f = (Some l', (w', g')) →
  g' = greedy_step isalnum max_words d0 g f.
Proof.
  intros Hf [Hdir Hidx Hidcs _ _ Hcnt _ _ _ _ _].
  destruct l as [cf idx cnt content], w as [d tr], g as [ms bs].
  simpl in *. subst d idx cnt.
  unfold loop_body_g, greedy_step. rewrite count_words_eq. simpl.
  assert (words_of isalnum (written d0 bs) f = words_of isalnum d0 f) as ->.
  { unfold words_of. by rewrite written_lookup_other. }
  assert (readable (written d0 bs) f = readable d0 f) as ->.
  { unfold readable. by rewrite written_lookup_other. }
  destruct (readable d0 f) eqn:Hread; case_bool_decide as Hflush; simpl;
    rewrite ?write_text_eq; simpl;
    try (destruct (write_ok _ _ _); simpl; [|done]);
    rewrite ?lookup_insert_ne by done;
    rewrite written_lookup_other, lookup_text, Hread by done;
    by intros [= <- <- <-].
Qed.

(** The loop: it ends with the invariant, or it raised at one of the
    files, where the invariant held and the flush was due. *)
Lemma loop_g_inv d0 tr0 files :
  (∀ f k, f ∈ files → f ≠ packed_path k) →
  match for_each (loop_body_g isalnum max_words logger) files
          (Locals [] 0 0 [], (World d0 tr0, Ghost [] [])) with
  | (Some l, (w, g)) =>
      loop_inv isalnum d0 max_words logger tr0 files l w g
      ∧ g = foldl (greedy_step isalnum max_words d0) (Ghost [] []) files
  | (None, (w', g)) =>
      ∃ done f todo l w evs,
        files = done ++ f :: todo
        ∧ loop_inv isalnum d0 max_words logger tr0 done l w g
        ∧ g = foldl (greedy_step isalnum max_words d0) (Ghost [] []) done
        ∧ raised_at isalnum d0 w g w' evs
        ∧ reads_of evs = [f]
        ∧ sum_words isalnum d0 (g_members g) > 0
        ∧ sum_words isalnum d0 (g_members g) + words_of isalnum d0 f > max_words
  end.
Proof.
  induction files as [|f files IH] using rev_ind; intros Hfiles.
  - simpl. split; [apply loop_inv_init | done].
  - assert (∀ f' k, f' ∈ files → f' ≠ packed_path k) as Hfiles'.
    { intros f' k Hin. apply Hfiles. apply elem_of_app. by left. }
    assert (∀ k, f ≠ packed_path k) as Hf.
    { intros k. apply Hfiles. apply elem_of_app. right.
      by apply list_elem_of_singleton. }
    specialize (IH Hfiles'). rewrite for_each_snoc.
    destruct (for_each _ files _) as [[l|] [w g]].
    + destruct IH as [Hinv Hg].
      set (b := Bundle (length (g_bundles g)) (g_members g)
                  (sum_words isalnum d0 (g_members g))).
      destruct (decide (sum_words isalnum d0 (g_members g) > 0
                        ∧ sum_words isalnum d0 (g_members g)
                          + words_of isalnum d0 f > max_words
                        ∧ writable d0 b = false)) as [(Hpos & Hbig & Hw)|Hno].
      * destruct (loop_body_g_raise isalnum max_words d0 tr0 logger files
                    l w g f Hf Hinv Hpos Hbig Hw) as (w' & evs & -> & Hra & Hrd).
        exists files, f, [], l, w, evs. done.
      * destruct (loop_body_g_inv isalnum max_words d0 tr0 logger files
                    l w g f Hf Hinv) as (l' & w' & g' & Hrun & Hinv').
        { intros [Hpos Hbig]. fold b. destruct (writable d0 b); [done|].
          destruct Hno. done. }
        rewrite Hrun. split; [done|].
        rewrite foldl_app. simpl. rewrite <- Hg.
        by eapply loop_body_g_ghost.
    + destruct IH as (done & f0 & todo & l & w0 & evs & -> & Hrest).
      exists done, f0, (todo ++ [f]), l, w0, evs.
      split; [by rewrite <- (assoc_L (++))|]. done.
Qed.

(** The bundles of [greedy_step] only grow. *)
Lemma greedy_step_bundles d0 g f :
  ∃ more, g_bundles (greedy_step isalnum max_words d0 g f) = g_bundles g ++ more.
Proof.
  unfold greedy_step. case_bool_decide; destruct (readable d0 f); simpl;
    eauto using app_nil_r.
  all: exists []; by rewrite app_nil_r.
Qed.

Lemma greedy_run_bundles d0 g files :
  ∃ more,
    g_bundles (foldl (greedy_step isalnum max_words d0) g files)
    = g_bundles g ++ more.
Proof.
  revert g. induction files as [|f files IH]; intros g; simpl.
  - exists []. by rewrite app_nil_r.
  - destruct (IH (greedy_step isalnum max_words d0 g f)) as [more ->].
    destruct (greedy_step_bundles d0 g f) as [more' ->].
    exists (more' ++ more). by rewrite (assoc_L (++)).
Qed.

Lemma greedy_close_bundles d0 g :
  ∃ more, greedy_close isalnum d0 g = g_bundles g ++ more.
Proof.
  unfold greedy_close. destruct (g_members g); eauto.
  exists []. by rewrite app_nil_r.
Qed.

Lemma written_prefix_app d0 bs rest :
  Forall (λ b, writable d0 b = true) bs →
  written_prefix d0 (bs ++ rest) = bs ++ written_prefix d0 rest.
Proof.
  induction 1 as [|b bs Hb _ IH]; [done|]. simpl. by rewrite Hb, IH.
Qed.

Lemma written_prefix_all d0 bs :
  Forall (λ b, writable d0 b = true) bs → written_prefix d0 bs = bs.
Proof.
  intros H. rewrite <- (app_nil_r bs) at 1.
  rewrite written_prefix_app by done. simpl. by rewrite app_nil_r.
Qed.

Lemma written_prefix_stop d0 bs b rest :
  Forall (λ b, writable d0 b = true) bs → writable d0 b = false →
  written_prefix d0 (bs ++ b :: rest) = bs.
Proof.
  intros Hbs Hb. rewrite written_prefix_app by done. simpl.
  by rewrite Hb, app_nil_r.
Qed.

Lemma written_prefix_prefix d0 bs :
  ∃ rest, bs = written_prefix d0 bs ++ rest.
Proof.
  induction bs as [|b bs [rest IH]]; simpl; [by exists []|].
  destruct (writable d0 b); [|by eexists].
  exists rest. simpl. by rewrite <- IH.
Qed.

(** What an invocation leaves behind, and its bundles as those of the
    partition of the sorted inputs that get written. *)
Lemma pack_spec w res w' bs :
  pack isalnum max_words logger w = (res, w', bs) →
  match res with
  | Some r => pack_post isalnum (w_dir w) max_words logger (w_trace w) r w' bs
  | None => raise_post isalnum (w_dir w) max_words logger (w_trace w) w' bs
  end
  ∧ bs = written_prefix (w_dir w)
           (greedy isalnum max_words (w_dir w) (sorted_inputs (w_dir w)))
  ∧ (is_Some res ↔
     bs = greedy isalnum max_words (w_dir w) (sorted_inputs (w_dir w))).
Proof.
  destruct w as [d0 tr0]. unfold pack. simpl.
  destruct (discover d0) as [|f0 fs] eqn:Hdisc.
  - intros [= <- <- <-].
    assert (sorted_inputs d0 = []) as Hs.
    { unfold sorted_inputs. by rewrite Hdisc. }
    rewrite Hs. split; [|by split].
    split; rewrite ?Hs; simpl; try done.
    + by destruct logger.
    + exists (if logger then [EvNoFiles] else []).
      split; [destruct logger; simpl; by rewrite ?app_nil_r|].
      destruct logger; split; simpl; try done.
      all: try (intros p e; rewrite ?elem_of_cons, !elem_of_nil;
                intuition congruence).
      all: intros f; rewrite ?elem_of_cons, !elem_of_nil; intuition congruence.
    + intros _. split; intros x Hx; by apply elem_of_nil in Hx.
  - rewrite <- Hdisc. fold (sorted_inputs d0).
    pose proof (loop_g_inv d0 tr0 (sorted_inputs d0)) as Hloop.
    destruct (for_each _ (sorted_inputs d0) _) as [[l|] [w g]].
    + destruct Hloop as [Hinv Hg].
      { intros f k Hin. apply (discover_not_packed d0).
        by apply elem_of_sorted_inputs. }
      destruct Hinv as [Hdir Hidx Hidcs Hfiles Hmem Hcnt Hbs Hcont
                          (evs & Htr & Htinv) Hthr Hwr].
      unfold greedy. rewrite <- Hg. unfold greedy_close.
      destruct l as [cf idx cnt content], w as [d tr], g as [ms bs0].
      simpl in *. subst d idx cf cnt tr.
      assert (no_blank isalnum d0 (sorted_inputs d0) →
              within_threshold isalnum d0 max_words (sorted_inputs d0)
                (bs0 ++ match ms with
                        | [] => []
                        | _ :: _ =>
                            [Bundle (length bs0) ms (sum_words isalnum d0 ms)]
                        end)) as Hfinal.
      { intros Hnb. by apply accumulator_ok_final, Hthr. }
      destruct ms as [|m ms]; simpl in Hcont; subst content; simpl.
      * intros [= <- <- <-]. rewrite app_nil_r in Hmem, Hfinal.
        split; [|split; [by rewrite written_prefix_all | by split; eauto]].
        split; simpl; try done. by exists evs.
      * change (words_of isalnum d0 m + sum_words isalnum d0 ms)
          with (sum_words isalnum d0 (m :: ms)).
        set (b := Bundle (length bs0) (m :: ms) (sum_words isalnum d0 (m :: ms))).
        rewrite write_text_eq. simpl. rewrite write_ok_written by done.
        change (write_ok d0 (packed_path (length bs0)) _)
          with (writable d0 b).
        destruct (writable d0 b) eqn:Hwb; intros [= <- <- <-].
        -- assert (length (bs0 ++ [b]) = (length bs0 + 1)%nat) as Hlen
             by by rewrite length_app.
           assert (Forall (λ b0, writable d0 b0 = true) (bs0 ++ [b])) as Hall.
           { apply Forall_app. split; [done|]. by apply Forall_singleton. }
           split; [|split; [by rewrite written_prefix_all | by split; eauto]].
           split.
           ++ symmetry. apply (written_snoc d0 bs0 b).
           ++ by rewrite Hlen, seq_snoc, fmap_app, Hidcs.
           ++ by rewrite Hlen, seq_snoc, fmap_app.
           ++ rewrite fmap_app, concat_app. simpl. by rewrite app_nil_r.
           ++ apply Forall_app. split; [done|]. by apply Forall_singleton.
           ++ done.
           ++ exists (evs ++ [EvWrite (packed_path (length bs0))
                                      (bundle_text d0 (m :: ms))]).
              split; [by rewrite (assoc_L (++))|].
              destruct Htinv as [Hr Hw Hwe Hc He]. split.
              ** unfold reads_of in *. rewrite omap_app, Hr. simpl.
                 by rewrite app_nil_r.
              ** unfold writes_of in *. by rewrite omap_app, Hw, fmap_app.
              ** intros p e [H|H]%elem_of_app; [by eapply Hwe|].
                 by apply list_elem_of_singleton in H.
              ** intros f. rewrite elem_of_app, Hc, list_elem_of_singleton.
                 intuition congruence.
              ** intros f. rewrite elem_of_app, He, list_elem_of_singleton.
                 intuition congruence.
           ++ done.
        -- split; [|split].
           ++ split; try done.
              ** exists (m :: ms), []. rewrite app_nil_r. done.
              ** exists (evs ++ [EvWriteError (packed_path (length bs0))
                                   (openable (written d0 bs0)
                                      (packed_path (length bs0)))]).
                 destruct Htinv as [Hr Hw Hwe Hc He].
                 split; [by rewrite (assoc_L (++))|]. split; [|split].
                 --- unfold writes_of in *. rewrite omap_app, Hw. simpl.
                     by rewrite app_nil_r.
                 --- intros p. unfold reads_of in *. rewrite omap_app, Hr.
                     simpl. rewrite app_nil_r. by intros ?%elem_of_twice'.
                 --- eexists. apply elem_of_app. right.
                     by apply list_elem_of_singleton.
              ** intros Hnb b' Hb'. destruct (Hfinal Hnb) as [Hone _].
                 apply Hone. apply elem_of_app. by left.
           ++ by rewrite written_prefix_stop.
           ++ split; [by intros [? ?]|]. intros Heq.
              apply (f_equal length) in Heq. rewrite length_app in Heq.
              simpl in Heq. lia.
    + destruct Hloop as (done & f & todo & l & w0 & evs & Hsplit & Hinv & Hg
                         & Hra & Hrd & Hpos & Hbig).
      { intros f k Hin. apply (discover_not_packed d0).
        by apply elem_of_sorted_inputs. }
      intros [= <- <- <-].
      destruct Hinv as [Hdir Hidx Hidcs Hfiles Hmem Hcnt Hbs Hcont
                          (evs0 & Htr & Htinv) Hthr Hwr].
      destruct Hra as [Hms Hw Hdir' Htr' Hwrites [e He]].
      assert (greedy isalnum max_words d0 (sorted_inputs d0)
              = g_bundles g
                ++ Bundle (length (g_bundles g)) (g_members g)
                     (sum_words isalnum d0 (g_members g))
                :: drop (S (length (g_bundles g)))
                     (greedy isalnum max_words d0 (sorted_inputs d0))) as Hgr.
      { unfold greedy. rewrite Hsplit, foldl_app. simpl. rewrite <- Hg.
        set (g1 := greedy_step isalnum max_words d0 g f).
        assert (∃ ms', g1 = Ghost ms'
                  (g_bundles g ++ [Bundle (length (g_bundles g)) (g_members g)
                                     (sum_words isalnum d0 (g_members g))]))
          as [ms' Hg1].
        { unfold g1, greedy_step. rewrite bool_decide_eq_true_2 by done.
          destruct (readable d0 f); simpl; eauto. }
        destruct (greedy_run_bundles d0 g1 todo) as [more Hmore].
        destruct (greedy_close_bundles d0
                    (foldl (greedy_step isalnum max_words d0) g1 todo))
          as [more' Hmore'].
        rewrite Hmore', Hmore, Hg1. simpl.
        rewrite <- !(assoc_L (++)). simpl.
        do 2 f_equal. rewrite drop_app_ge by lia.
        by replace (S (length (g_bundles g)) - length (g_bundles g))%nat
          with 1%nat by lia. }
      split; [|split].
      * split; try done.
        -- exists (g_members g), (filter (λ x, readable d0 x) (f :: todo)).
           split; [done|]. split; [|by split].
           rewrite Hsplit, filter_app, <- Hmem. by rewrite <- (assoc_L (++)).
        -- exists (evs0 ++ evs). rewrite Htr', Htr.
           destruct Htinv as [Hr Hw0 Hwe Hc Hee].
           split; [by rewrite (assoc_L (++))|]. split; [|split].
           ++ unfold writes_of in *. rewrite omap_app, Hw0, Hwrites.
              by rewrite app_nil_r.
           ++ intros p. unfold reads_of in *. rewrite omap_app, Hr, Hrd.
              rewrite Hsplit, !elem_of_app, list_elem_of_singleton.
              intros [Hp%elem_of_twice'| ->]; [by left|].
              right. apply elem_of_cons. by left.
           ++ exists e. apply elem_of_app. by right.
        -- intros Hnb b' Hb'.
           assert (no_blank isalnum d0 done) as Hnb'.
           { intros x Hx. apply Hnb. rewrite Hsplit. apply elem_of_app.
             by left. }
           destruct (Hthr Hnb') as [_ [Hone _]]. apply Hone.
           apply elem_of_app. by left.
      * rewrite Hgr. by rewrite written_prefix_stop.
      * split; [by intros [? ?]|]. intros Heq. rewrite Heq in Hgr at 1.
        apply (f_equal length) in Hgr. rewrite length_app in Hgr.
        simpl in Hgr. lia.
Qed.

(** Forgetting the bundles gives back the code as it is written. *)
Lemma loop_body_erasure l w g f :
  loop_body isalnum max_words logger (l, w) f
  = let '(o, (w', _)) := loop_body_g isalnum max_words logger (l, (w, g)) f in
    (o, w').
Proof.
  unfold loop_body, loop_body_g.
  destruct (count_words isalnum f w) as [word_count w1].
  case_bool_decide.
  - destruct (write_text _ _ _) as [[|] w2]; [|done].
    by destruct (read_text f _) as [[c|] w3].
  - by destruct (read_text f _) as [[c|] w2].
Qed.

Lemma loop_erasure files l w g :
  for_each (loop_body isalnum max_words logger) files (l, w)
  = let '(o, (w', _)) :=
      for_each (loop_body_g isalnum max_words logger) files (l, (w, g)) in
    (o, w').
Proof.
  revert l w g. induction files as [|f files IH]; intros l w g; [done|].
  cbn [for_each]. rewrite (loop_body_erasure l w g f).
  destruct (loop_body_g _ _ _ _ f) as [[l'|] [w' g']]; [apply IH|done].
Qed.

Lemma packer_erasure w :
  combine_markdown_files isalnum max_words logger w
  = (pack isalnum max_words logger w).1.
Proof.
  unfold combine_markdown_files, pack.
  destruct (discover (w_dir w)) as [|f0 fs]; [done|].
  rewrite (loop_erasure _ _ _ (Ghost [] [])).
  destruct (for_each _ _ _) as [[l|] [w' g]]; [|done]. simpl.
  destruct (current_content l); [done|].
  by destruct (write_text _ _ _) as [[|] w2].
Qed.

(** So an invocation of the code that ends with [res] and leaves [w'] has
    the bundles [bundles w]. *)
Lemma pack_of_combine w res w' :
  combine_markdown_files isalnum max_words logger w = (res, w') →
  pack isalnum max_words logger w
  = (res, w', bundles isalnum max_words logger w).
Proof.
  rewrite packer_erasure. unfold bundles.
  destruct (pack isalnum max_words logger w) as [[r0 w0] bs]. simpl.
  by intros [= -> ->].
Qed.

Lemma combine_spec w r w' :
  combine_markdown_files isalnum max_words logger w = (Some r, w') →
  pack_post isalnum (w_dir w) max_words logger (w_trace w) r w'
            (bundles isalnum max_words logger w).
Proof.
  intros Hrun. apply pack_of_combine, pack_spec in Hrun. by destruct Hrun.
Qed.

Lemma combine_raise_spec w w' :
  combine_markdown_files isalnum max_words logger w = (None, w') →
  raise_post isalnum (w_dir w) max_words logger (w_trace w) w'
             (bundles isalnum max_words logger w).
Proof.
  intros Hrun. apply pack_of_combine, pack_spec in Hrun. by destruct Hrun.
Qed.

(** The bundles of an invocation are those of the greedy partition of its
    sorted inputs that get written, and all of them exactly when it
    returns. *)
Lemma bundles_greedy w :
  bundles isalnum max_words logger w
  = written_prefix (w_dir w)
      (greedy isalnum max_words (w_dir w) (sorted_inputs (w_dir w)))
  ∧ (is_Some (combine_markdown_files isalnum max_words logger w).1 ↔
     bundles isalnum max_words logger w
     = greedy isalnum max_words (w_dir w) (sorted_inputs (w_dir w))).
Proof.
  destruct (combine_markdown_files isalnum max_words logger w)
    as [res w'] eqn:Hrun.
  apply pack_of_combine, pack_spec in Hrun. by destruct Hrun as (_ & ? & ?).
Qed.

(** What holds of the bundles of every invocation, whether it returns or
    raises. *)
Lemma bundles_spec w :
  let bs := bundles isalnum max_words logger w in
  index <$> bs = seq 0 (length bs)
  ∧ Forall (bundle_ok isalnum (w_dir w)) bs
  ∧ Forall (λ b, writable (w_dir w) b = true) bs
  ∧ (∃ rest, concat (members <$> bs) ++ rest
             = filter (λ f, readable (w_dir w) f) (sorted_inputs (w_dir w)))
  ∧ (no_blank isalnum (w_dir w) (sorted_inputs (w_dir w)) →
     ∀ b, b ∈ bs → (1 < length (members b))%nat → total_words b ≤ max_words).
Proof.
  intros bs.
  destruct (combine_markdown_files isalnum max_words logger w)
    as [[r|] w'] eqn:Hrun.
  - apply combine_spec in Hrun. fold bs in Hrun.
    destruct Hrun as [_ Hidx _ Hmem Hbs Hwr _ Hthr].
    split; [done|]. split; [done|]. split; [done|]. split.
    + exists []. by rewrite app_nil_r.
    + intros Hnb. by destruct (Hthr Hnb).
  - apply combine_raise_spec in Hrun. fold bs in Hrun.
    destruct Hrun as [Hidx Hbs Hwr (ms & rest & _ & Hmem & _) _ Hthr].
    split; [done|]. split; [done|]. split; [done|]. split; [|done].
    by exists (ms ++ rest).
Qed.
End RunFacts.
(** ** Consequences for one invocation *)

Lemma bundle_index (bs : list bundle) k b :
  index <$> bs = seq 0 (length bs) → bs !! k = Some b → index b = k.
Proof.
  intros Hidx Hk.
  assert ((index <$> bs) !! k = Some (index b)) as H
    by by rewrite list_lookup_fmap, Hk.
  rewrite Hidx in H. apply lookup_seq in H. simpl in H. by destruct H.
Qed.

Lemma elem_of_twice (l : list str) p : p ∈ l ≫= (λ f, [f; f]) ↔ p ∈ l.
Proof.
  split; [apply elem_of_twice'|].
  intros Hp. apply list_elem_of_bind. exists p. split; [|done].
  apply elem_of_cons. by left.
Qed.

(** The inputs of an invocation are untouched by its writes, and so are
    the inputs a later invocation discovers. *)
Lemma elem_of_discover_ext d d' f :
  (∀ p, (∀ k, p ≠ packed_path k) → is_Some (d' !! p) ↔ is_Some (d !! p)) →
  f ∈ discover d' ↔ f ∈ discover d.
Proof.
  intros Hext. rewrite !elem_of_discover.
  destruct (startswith (stem f) (lit "packed_")) eqn:Hs; [intuition congruence|].
  rewrite Hext; [done|].
  intros k ->. rewrite stem_packed_path, startswith_app in Hs. done.
Qed.

Lemma sorted_inputs_ext d d' :
  (∀ p, (∀ k, p ≠ packed_path k) → is_Some (d' !! p) ↔ is_Some (d !! p)) →
  sorted_inputs d' = sorted_inputs d.
Proof.
  intros Hext. apply sorted_inputs_unique; [|apply sorted_inputs_sorted].
  rewrite sorted_inputs_perm.
  apply NoDup_Permutation; [apply NoDup_discover..|].
  intros f. by apply elem_of_discover_ext.
Qed.

Lemma filter_all {A} (P : A → Prop) `{∀ x, Decision (P x)} (l : list A) :
  (∀ x, x ∈ l → P x) → filter P l = l.
Proof.
  induction l as [|x l IH]; intros Hall; [done|].
  rewrite filter_cons_True by (apply Hall, elem_of_cons; by left).
  f_equal. apply IH. intros y Hy. apply Hall, elem_of_cons. by right.
Qed.

(** The readable files of a directory given by its entries. *)
Lemma Forall_discover (P : str → Prop) d l :
  sorted_inputs d = l → Forall P l → ∀ f, f ∈ discover d → P f.
Proof.
  intros <- Hall f Hf. rewrite Forall_forall in Hall.
  by apply Hall, elem_of_sorted_inputs.
Qed.

Lemma elem_of_concat_members (bs : list bundle) f :
  f ∈ concat (members <$> bs) ↔ ∃ k b, bs !! k = Some b ∧ f ∈ members b.
Proof.
  rewrite list_elem_of_In, in_concat. split.
  - intros (ms & Hms & Hf). apply list_elem_of_In in Hms, Hf.
    apply list_elem_of_fmap in Hms as (b & -> & Hb).
    apply list_elem_of_lookup_1 in Hb as [k Hk]. eauto.
  - intros (k & b & Hk & Hf). exists (members b).
    split; apply list_elem_of_In; [|done].
    apply list_elem_of_fmap. exists b. split; [done|].
    by eapply list_elem_of_lookup_2.
Qed.

Section InvocationFacts.
Variables (isalnum : N → bool) (max_words : Z) (logger : bool).

(** The members of the bundles are inputs that could be read, so none is
    a bundle path. *)
Lemma member_input w b f :
  b ∈ bundles isalnum max_words logger w → f ∈ members b →
  f ∈ discover (w_dir w) ∧ readable (w_dir w) f = true.
Proof.
  intros Hb Hf.
  destruct (bundles_spec isalnum max_words logger w)
    as (_ & _ & _ & (rest & Hmem) & _).
  assert (f ∈ filter (λ f, readable (w_dir w) f) (sorted_inputs (w_dir w)))
    as Hin.
  { rewrite <- Hmem. apply elem_of_app. left.
    apply list_elem_of_lookup_1 in Hb as [k Hk].
    apply elem_of_concat_members. eauto. }
  apply list_elem_of_filter in Hin as [Hrd Hin].
  split; [by apply elem_of_sorted_inputs | by apply Is_true_true].
Qed.

Lemma member_not_packed w b f k :
  b ∈ bundles isalnum max_words logger w → f ∈ members b →
  f ≠ packed_path k.
Proof.
  intros Hb Hf. destruct (member_input w b f Hb Hf) as [Hin _].
  by apply (discover_not_packed (w_dir w)).
Qed.

(** The directory an invocation leaves: the files of its bundles hold
    their texts, and every entry that is no bundle path is as before. *)
Lemma combine_written w res w' k b :
  combine_markdown_files isalnum max_words logger w = (res, w') →
  bundles isalnum max_words logger w !! k = Some b →
  w_dir w' !! packed_path k = Some (File (bundle_text (w_dir w) (members b))).
Proof.
  intros Hrun Hb. destruct res as [r|].
  - apply combine_spec in Hrun.
    destruct Hrun as [-> Hidx _ _ _ _ _ _]. by apply written_lookup.
  - apply combine_raise_spec in Hrun.
    destruct Hrun as [Hidx _ _ (ms & rest & _ & _ & _ & ->) _ _].
    rewrite failed_write_lookup_ne; [by apply written_lookup|].
    intros Heq%packed_path_inj. apply lookup_lt_Some in Hb. lia.
Qed.

Lemma combine_frame w res w' p :
  combine_markdown_files isalnum max_words logger w = (res, w') →
  (∀ k, p ≠ packed_path k) → w_dir w' !! p = w_dir w !! p.
Proof.
  intros Hrun Hp. destruct res as [r|].
  - apply combine_spec in Hrun.
    destruct Hrun as [-> _ _ _ _ _ _ _]. by apply written_lookup_other.
  - apply combine_raise_spec in Hrun.
    destruct Hrun as [_ _ _ (ms & rest & _ & _ & _ & ->) _ _].
    rewrite failed_write_lookup_ne by done. by apply written_lookup_other.
Qed.

Lemma combine_frame_returned w r w' p :
  combine_markdown_files isalnum max_words logger w = (Some r, w') →
  p ∉ r → w_dir w' !! p = w_dir w !! p.
Proof.
  intros Hrun Hp. apply combine_spec in Hrun.
  destruct Hrun as [-> Hidx -> _ _ _ _ _]. by apply written_lookup_notin.
Qed.

Lemma combine_keeps w res w' p :
  combine_markdown_files isalnum max_words logger w = (res, w') →
  is_Some (w_dir w !! p) → is_Some (w_dir w' !! p).
Proof.
  intros Hrun Hsome.
  assert (∀ bs : list bundle, is_Some (written (w_dir w) bs !! p)) as Hwr.
  { induction bs as [|b bs IH] using rev_ind; [done|].
    rewrite written_snoc.
    destruct (decide (p = packed_path (index b))) as [->|Hne].
    - rewrite lookup_insert_eq. eauto.
    - by rewrite lookup_insert_ne. }
  destruct res as [r|].
  - apply combine_spec in Hrun. destruct Hrun as [-> _ _ _ _ _ _ _]. apply Hwr.
  - apply combine_raise_spec in Hrun.
    destruct Hrun as [_ _ _ (ms & rest & _ & _ & _ & ->) _ _].
    set (q := packed_path _). destruct (decide (p = q)) as [->|Hne].
    + rewrite failed_write_lookup. destruct (openable _ q); [eauto|apply Hwr].
    + rewrite failed_write_lookup_ne by done. apply Hwr.
Qed.

(** The events of an invocation: its writes are the files of its bundles,
    and it reads inputs only. *)
Lemma combine_trace w res w' :
  combine_markdown_files isalnum max_words logger w = (res, w') →
  ∃ evs, w_trace w' = w_trace w ++ evs
    ∧ writes_of evs
      = bundle_file (w_dir w) <$> bundles isalnum max_words logger w
    ∧ (∀ p, p ∈ reads_of evs → p ∈ discover (w_dir w)).
Proof.
  intros Hrun. destruct res as [r|].
  - apply combine_spec in Hrun.
    destruct Hrun as [_ _ _ _ _ _ (evs & Htr & [Hr Hw _ _ _]) _].
    exists evs. split; [done|]. split; [done|].
    intros p. rewrite Hr, elem_of_twice. apply elem_of_sorted_inputs.
  - apply combine_raise_spec in Hrun.
    destruct Hrun as [_ _ _ _ (evs & Htr & Hw & Hr & _) _].
    exists evs. split; [done|]. split; [done|].
    intros p Hp. by apply elem_of_sorted_inputs, Hr.
Qed.

(** The inputs of a second invocation are those of the first. *)
Lemma combine_inputs w res w' :
  combine_markdown_files isalnum max_words logger w = (res, w') →
  sorted_inputs (w_dir w') = sorted_inputs (w_dir w).
Proof.
  intros Hrun. apply sorted_inputs_ext. intros p Hp.
  by rewrite (combine_frame _ _ _ _ Hrun Hp).
Qed.

(** An invocation that returns has packed every input that could be
    read. *)
Lemma members_returned w r w' :
  combine_markdown_files isalnum max_words logger w = (Some r, w') →
  concat (members <$> bundles isalnum max_words logger w)
  = filter (λ f, readable (w_dir w) f) (sorted_inputs (w_dir w)).
Proof. intros Hrun. apply combine_spec in Hrun. by destruct Hrun. Qed.
End InvocationFacts.

(** ** When the writes go through *)

Lemma encodable_app a b : encodable (a ++ b) = encodable a && encodable b.
Proof. unfold encodable. apply forallb_app. Qed.

Lemma encodable_join sep parts :
  encodable sep = true → Forall (λ p, encodable p = true) parts →
  encodable (join sep parts) = true.
Proof.
  intros Hsep. induction 1 as [|p parts Hp _ IH]; [done|].
  destruct parts as [|q parts]; [done|].
  change (join sep (p :: q :: parts)) with (p ++ sep ++ join sep (q :: parts)).
  by rewrite !encodable_app, Hp, Hsep, IH.
Qed.

Lemma encodable_bundle_text d ms :
  Forall (λ f, encodable (stem f) = true ∧ encodable (text_of d f) = true) ms →
  encodable (bundle_text d ms) = true.
Proof.
  intros Hms. unfold bundle_text. apply encodable_join; [done|].
  apply Forall_fmap. eapply Forall_impl; [exact Hms|].
  intros f [Hs Ht]. unfold compose, section_of.
  by rewrite !encodable_app, Hs, Ht.
Qed.

Section ReturnFacts.
Variables (isalnum : N → bool) (max_words : Z) (logger : bool).

(** An invocation raises only in a write. *)
Lemma raises_in_write w w' :
  combine_markdown_files isalnum max_words logger w = (None, w') →
  ∃ k ms,
    ms ≠ [] ∧ (∀ f, f ∈ ms → f ∈ discover (w_dir w))
    ∧ write_ok (w_dir w) (packed_path k) (bundle_text (w_dir w) ms) = false
    ∧ ∃ evs e, w_trace w' = w_trace w ++ evs
        ∧ EvWriteError (packed_path k) e ∈ evs.
Proof.
  intros Hrun. apply combine_raise_spec in Hrun.
  destruct Hrun as [_ _ _ (ms & rest & Hms & Hmem & Hw & _)
                      (evs & Htr & _ & _ & e & He) _].
  exists (length (bundles isalnum max_words logger w)), ms.
  split; [done|]. split; [|split; [done|by eauto]].
  intros f Hf. apply elem_of_sorted_inputs.
  assert (f ∈ filter (λ f, readable (w_dir w) f) (sorted_inputs (w_dir w)))
    as Hin.
  { rewrite <- Hmem, !elem_of_app. right. by left. }
  by apply list_elem_of_filter in Hin as [_ Hin].
Qed.

(** So it returns where no entry named as a bundle file is in the way and
    the stems and the texts of the inputs can be encoded, whatever cannot
    be read. *)
Lemma returns_when_writes_go_through w :
  writes_go_through (w_dir w) →
  is_Some (combine_markdown_files isalnum max_words logger w).1.
Proof.
  intros [Hopen Henc].
  destruct (combine_markdown_files isalnum max_words logger w)
    as [[r|] w'] eqn:Hrun; [by eauto|]. exfalso.
  destruct (raises_in_write w w' Hrun) as (k & ms & _ & Hms & Hw & _).
  unfold write_ok in Hw. rewrite Hopen in Hw. simpl in Hw.
  rewrite encodable_bundle_text in Hw; [done|].
  apply Forall_forall. intros f Hf. by apply Henc, Hms.
Qed.
End ReturnFacts.
(** A part of a sorted list without repetitions that is left after
    dropping elements and cutting the end off is sorted and without
    repetitions. *)
Lemma sorted_part (l part rest : list str) (P : str → Prop)
    `{∀ x, Decision (P x)} :
  Sorted str_le l → NoDup l → part ++ rest = filter P l →
  Sorted str_le part ∧ NoDup part.
Proof.
  intros Hs Hnd Heq. split.
  - apply StronglySorted_Sorted.
    apply Sorted_StronglySorted in Hs; [|apply _].
    assert (StronglySorted str_le (filter P l)) as Hf.
    { clear Heq Hnd. induction Hs as [|x l Hs IH Hx]; [constructor|].
      rewrite filter_cons. destruct (decide (P x)); [|done].
      constructor; [done|]. apply Forall_forall. intros y Hy.
      apply list_elem_of_filter in Hy as [_ Hy].
      rewrite Forall_forall in Hx. by apply Hx. }
    rewrite <- Heq in Hf. by apply StronglySorted_app_1_l in Hf.
  - assert (NoDup (filter P l)) as Hf by by apply NoDup_filter.
    rewrite <- Heq in Hf. by apply NoDup_app in Hf as [? _].
Qed.

(** The section of a member in the text of its bundle. *)
Lemma bundle_text_member d ms f :
  f ∈ ms →
  ∃ before after,
    bundle_text d ms
    = join delimiter (before ++ section_of f (text_of d f) :: after).
Proof.
  intros (l1 & l2 & ->)%list_elem_of_split.
  exists ((λ f, section_of f (text_of d f)) <$> l1),
         ((λ f, section_of f (text_of d f)) <$> l2).
  unfold bundle_text. by rewrite fmap_app, fmap_cons.
Qed.

(** * The claims *)

(** ** The word counter *)

(** C6. For every text content, the word counter returns the number of
    maximal runs of alphanumeric or underscore characters of the content:
    the matches of [\b\w+\b] are exactly these runs, each found once. The
    runs are given by their spans [(i, j)]. *)
Theorem count_words_counts_maximal_runs isalnum file_path content w :
  w_dir w !! file_path = Some (File content) →
  ∃ runs : list (nat * nat),
    NoDup runs
    ∧ (∀ i j, (i, j) ∈ runs ↔ maximal_run isalnum content i j)
    ∧ (count_words isalnum file_path w).1 = Z.of_nat (length runs).
Proof.
  intros Hfile. exists (findall_from isalnum content 0). split; [|split].
  - apply findall_from_NoDup.
  - intros i j. rewrite findall_from_spec. split; [tauto|]. split; [lia|done].
  - rewrite count_words_eq. simpl. unfold words_of. rewrite Hfile.
    by rewrite length_re_findall.
Qed.

Lemma count_words_counts_maximal_runs_witness :
  ∃ runs : list (nat * nat),
    NoDup runs
    ∧ (∀ i j, (i, j) ∈ runs
              ↔ maximal_run ascii_alnum (lit "three, four; five") i j)
    ∧ (count_words ascii_alnum (lit "b.md") (World example_dir [])).1
      = Z.of_nat (length runs).
Proof.
  apply count_words_counts_maximal_runs. vm_compute. reflexivity.
Defined.

(** The count on the example, and what [re.findall] returns there. *)
Example count_words_example :
  (count_words ascii_alnum (lit "b.md") (World example_dir [])).1 = 3
  ∧ re_findall ascii_alnum (lit "three, four; five")
    = [lit "three"; lit "four"; lit "five"]
  ∧ re_findall ascii_alnum (lit "snake_case x-1")
    = [lit "snake_case"; lit "x"; lit "1"].
Proof. vm_compute. done. Qed.

(** ** The packer *)

(** C9. Every finalized bundle is written as one file [packed_<index>.md]
    of the directory, the indices being 0, 1, 2, ... in the order of
    finalization, and the text of the file is, for each member in order,
    [## <name>], a blank line and the text of the member, the members
    being joined by a blank line, three hyphens and a blank line. These
    are the only files the invocation writes; when it returns, it returns
    their paths and their members are all the inputs that could be read.
    The bundles are those written, also where a later write raises. *)
Theorem bundles_written_as_packed_files isalnum max_words logger w res w' :
  combine_markdown_files isalnum max_words logger w = (res, w') →
  let bs := bundles isalnum max_words logger w in
  let member_text := λ f,
    lit "## " ++ stem f ++ [10; 10]%N ++ text_of (w_dir w) f in
  let file_text := λ b : bundle,
    join [10; 10; 45; 45; 45; 10; 10]%N (member_text <$> members b) in
  (∀ r, res = Some r →
     r = (λ k : nat, lit "packed_" ++ lit (pretty k) ++ lit ".md")
           <$> seq 0 (length bs)
     ∧ concat (members <$> bs)
       = filter (λ f, readable (w_dir w) f) (sorted_inputs (w_dir w)))
  ∧ (∀ k b, bs !! k = Some b →
       index b = k ∧ members b ≠ []
       ∧ w_dir w' !! packed_path k = Some (File (file_text b)))
  ∧ ∃ evs, w_trace w' = w_trace w ++ evs
      ∧ writes_of evs = (λ b, (packed_path (index b), file_text b)) <$> bs.
Proof.
  intros Hrun bs member_text file_text.
  destruct (bundles_spec isalnum max_words logger w)
    as (Hidx & Hbs & _ & _ & _).
  split; [|split].
  - intros r ->. apply combine_spec in Hrun. by destruct Hrun.
  - intros k b Hk. split; [by eapply bundle_index|]. split.
    + rewrite Forall_forall in Hbs. apply Hbs. by eapply list_elem_of_lookup_2.
    + by apply (combine_written _ _ _ _ _ _ _ _ Hrun Hk).
  - destruct (combine_trace _ _ _ _ _ _ Hrun) as (evs & Htr & Hw & _).
    by exists evs.
Qed.

Lemma bundles_written_as_packed_files_witness :
  let res := combine_markdown_files ascii_alnum 4 true (World example_dir []) in
  let bs := bundles ascii_alnum 4 true (World example_dir []) in
  let member_text := λ f,
    lit "## " ++ stem f ++ [10; 10]%N ++ text_of example_dir f in
  let file_text := λ b : bundle,
    join [10; 10; 45; 45; 45; 10; 10]%N (member_text <$> members b) in
  (∀ r, res.1 = Some r →
     r = (λ k : nat, lit "packed_" ++ lit (pretty k) ++ lit ".md")
           <$> seq 0 (length bs)
     ∧ concat (members <$> bs)
       = filter (λ f, readable example_dir f) (sorted_inputs example_dir))
  ∧ (∀ k b, bs !! k = Some b →
       index b = k ∧ members b ≠ []
       ∧ w_dir res.2 !! packed_path k = Some (File (file_text b)))
  ∧ ∃ evs, w_trace res.2 = [] ++ evs
      ∧ writes_of evs = (λ b, (packed_path (index b), file_text b)) <$> bs.
Proof.
  intros res.
  apply (bundles_written_as_packed_files ascii_alnum 4 true
           (World example_dir []) res.1 res.2).
  apply surjective_pairing.
Defined.

(** The invocation on the example: [a.md] alone, since [b.md] would make
    five words, then [b.md] and [d.md]; the directory [c.md] is skipped
    and [packed_0.md] is overwritten. *)
Example pack_example :
  let res := combine_markdown_files ascii_alnum 4 true (World example_dir []) in
  bundles ascii_alnum 4 true (World example_dir [])
  = [Bundle 0 [lit "a.md"] 2; Bundle 1 [lit "b.md"; lit "d.md"] 4]
  ∧ res.1 = Some [lit "packed_0.md"; lit "packed_1.md"]
  ∧ w_dir res.2 !! lit "packed_0.md"
    = Some (File (lit "## a" ++ [10; 10]%N ++ lit "one two"))
  ∧ w_dir res.2 !! lit "packed_1.md"
    = Some (File (lit "## b" ++ [10; 10]%N ++ lit "three, four; five"
                  ++ [10; 10]%N ++ lit "---" ++ [10; 10]%N
                  ++ lit "## d" ++ [10; 10]%N ++ lit "six")).
Proof. vm_compute. done. Qed.

(** Where a directory is in the way of the first bundle file the
    invocation raises, having written nothing; where the stem of an input
    cannot be encoded it raises, leaving the bundle file empty. *)
Example raise_example :
  let res := combine_markdown_files ascii_alnum 4 true (World blocked_dir []) in
  let res' :=
    combine_markdown_files ascii_alnum 4 true (World surrogate_dir []) in
  res.1 = None ∧ w_dir res.2 = blocked_dir
  ∧ bundles ascii_alnum 4 true (World blocked_dir []) = []
  ∧ w_trace res.2
    = [EvRead (lit "a.md"); EvRead (lit "a.md");
       EvWriteError (lit "packed_0.md") false]
  ∧ res'.1 = None
  ∧ w_dir res'.2 !! lit "packed_0.md" = Some (File []).
Proof. vm_compute. done. Qed.

(** C10. Within one invocation the input files are fixed before any bundle
    is written: the files opened for reading are among those discovered in
    the directory as it was at the start, and no file that the invocation
    writes is ever opened for reading by it, although it is an entry of the
    directory being packed. When the invocation returns, the files read
    are all those discovered, in sorted order (each twice, once by
    [count_words] and once for its text), and no path it returns was
    read, all of them having been written. *)
Theorem inputs_fixed_before_writing isalnum max_words logger w res w' :
  combine_markdown_files isalnum max_words logger w = (res, w') →
  ∃ evs, w_trace w' = w_trace w ++ evs
    ∧ (∀ p, p ∈ reads_of evs → p ∈ discover (w_dir w))
    ∧ (∀ p, p ∈ (writes_of evs).*1 →
         is_Some (w_dir w' !! p) ∧ p ∉ reads_of evs)
    ∧ (∀ r, res = Some r →
         reads_of evs = sorted_inputs (w_dir w) ≫= (λ f, [f; f])
         ∧ ∀ p, p ∈ r →
             is_Some (w_dir w' !! p) ∧ p ∈ (writes_of evs).*1
             ∧ p ∉ reads_of evs).
Proof.
  intros Hrun.
  set (bs := bundles isalnum max_words logger w).
  destruct (bundles_spec isalnum max_words logger w) as (Hidx & _).
  fold bs in Hidx.
  destruct (combine_trace _ _ _ _ _ _ Hrun) as (evs & Htr & Hw & Hreads).
  fold bs in Hw.
  exists evs. split; [done|]. split; [done|].
  assert (∀ k b, bs !! k = Some b →
            is_Some (w_dir w' !! packed_path k)
            ∧ packed_path k ∈ (writes_of evs).*1
            ∧ packed_path k ∉ reads_of evs) as Hpath.
  { intros k b Hb.
    pose proof (bundle_index _ _ _ Hidx Hb) as Hib. split; [|split].
    - rewrite (combine_written _ _ _ _ _ _ _ _ Hrun Hb). eauto.
    - rewrite Hw. apply list_elem_of_fmap.
      exists (bundle_file (w_dir w) b). split; [by rewrite <- Hib|].
      apply list_elem_of_fmap. exists b. split; [done|].
      by eapply list_elem_of_lookup_2.
    - intros Hread. apply Hreads in Hread.
      by apply (discover_not_packed _ _ k) in Hread. }
  split.
  - intros p. rewrite Hw.
    intros (pt & -> & (b & -> & Hb)%list_elem_of_fmap)%list_elem_of_fmap.
    apply list_elem_of_lookup_1 in Hb as [k Hk]. simpl.
    rewrite (bundle_index _ _ _ Hidx Hk).
    destruct (Hpath k b Hk) as (? & _ & ?). done.
  - intros r ->. apply combine_spec in Hrun. fold bs in Hrun.
    destruct Hrun as [_ _ Hr _ _ _ (evs' & Htr' & [Hreads' _ _ _ _]) _].
    rewrite Htr in Htr'. apply (inj (app _)) in Htr' as <-.
    split; [done|]. intros p Hp. rewrite Hr in Hp.
    apply list_elem_of_fmap in Hp as (k & -> & Hk). apply elem_of_seq in Hk.
    destruct (lookup_lt_is_Some_2 bs k) as [b Hb]; [lia|]. by eapply Hpath.
Qed.

Lemma inputs_fixed_before_writing_witness :
  let res := combine_markdown_files ascii_alnum 4 true (World example_dir []) in
  ∃ evs, w_trace res.2 = [] ++ evs
    ∧ (∀ p, p ∈ reads_of evs → p ∈ discover example_dir)
    ∧ (∀ p, p ∈ (writes_of evs).*1 →
         is_Some (w_dir res.2 !! p) ∧ p ∉ reads_of evs)
    ∧ (∀ r, res.1 = Some r →
         reads_of evs = sorted_inputs example_dir ≫= (λ f, [f; f])
         ∧ ∀ p, p ∈ r →
             is_Some (w_dir res.2 !! p) ∧ p ∈ (writes_of evs).*1
             ∧ p ∉ reads_of evs).
Proof.
  intros res.
  apply (inputs_fixed_before_writing ascii_alnum 4 true
           (World example_dir []) res.1 res.2).
  apply surjective_pairing.
Defined.

(** The events of the invocation on the example. *)
Example trace_example :
  w_trace (combine_markdown_files ascii_alnum 4 true
             (World example_dir [])).2
  = [EvRead (lit "a.md"); EvRead (lit "a.md");
     EvRead (lit "b.md");
     EvWrite (lit "packed_0.md") (lit "## a" ++ [10; 10]%N ++ lit "one two");
     EvRead (lit "b.md");
     EvRead (lit "c.md"); EvCountError (lit "c.md");
     EvRead (lit "c.md"); EvReadError (lit "c.md");
     EvRead (lit "d.md"); EvRead (lit "d.md");
     EvWrite (lit "packed_1.md")
       (lit "## b" ++ [10; 10]%N ++ lit "three, four; five"
        ++ [10; 10]%N ++ lit "---" ++ [10; 10]%N
        ++ lit "## d" ++ [10; 10]%N ++ lit "six")].
Proof. vm_compute. done. Qed.

(** C8. Discovery excludes every file whose name matches [packed_*], so a
    second invocation on the directory the first one left, with no new
    source files, has the inputs of the first, and no bundle path, those
    the first one returned among them, is an input of the second, a member
    of one of its bundles or read by it. This holds also where one of the
    two invocations raises. *)
Theorem packed_outputs_never_repacked isalnum max1 log1 max2 log2
    w res1 w1 res2 w2 :
  combine_markdown_files isalnum max1 log1 w = (res1, w1) →
  combine_markdown_files isalnum max2 log2 w1 = (res2, w2) →
  (∀ d f, f ∈ discover d → startswith f (lit "packed_") = false)
  ∧ sorted_inputs (w_dir w1) = sorted_inputs (w_dir w)
  ∧ ∀ p, (∃ k, p = packed_path k) ∨ (∃ r1, res1 = Some r1 ∧ p ∈ r1) →
      (p ∉ discover (w_dir w1))
      ∧ (p ∉ concat (members <$> bundles isalnum max2 log2 w1))
      ∧ (∀ evs, w_trace w2 = w_trace w1 ++ evs → p ∉ reads_of evs).
Proof.
  intros Hp1 Hp2.
  assert (∀ p, (∃ k, p = packed_path k) ∨ (∃ r1, res1 = Some r1 ∧ p ∈ r1) →
               ∃ k, p = packed_path k) as Hpacked.
  { intros p [Hk|(r1 & -> & Hin)]; [done|].
    apply combine_spec in Hp1. destruct Hp1 as [_ _ Hr _ _ _ _ _].
    rewrite Hr in Hin. apply list_elem_of_fmap in Hin as (k & -> & _). eauto. }
  assert (∀ p, (∃ k, p = packed_path k) → p ∉ discover (w_dir w1)) as Hnot.
  { intros p [k ->] Hin. by apply (discover_not_packed _ _ k) in Hin. }
  split; [|split].
  - intros d f [_ [Hmd Hs]]%elem_of_discover.
    destruct (startswith f (lit "packed_")) eqn:Hf; [|done].
    apply startswith_prefix in Hf as [q ->].
    unfold endswith in Hmd. apply startswith_prefix in Hmd as [g Hg].
    apply (f_equal reverse) in Hg.
    rewrite reverse_involutive, reverse_app, reverse_involutive in Hg.
    assert (∃ x, reverse g = lit "packed_" ++ x) as [x Hx].
    { generalize dependent (reverse g). intros h Hh.
      change (lit "packed_") with [112; 97; 99; 107; 101; 100; 95]%N in *.
      change (reverse (lit ".md")) with [100; 109; 46]%N in *.
      do 7 (destruct h as [|? h]; [by simplify_eq/=|]).
      simplify_eq/=. eauto. }
    rewrite Hx in Hg. rewrite Hg, stem_md, startswith_app in Hs; [done|].
    by destruct x.
  - by eapply combine_inputs.
  - intros p Hp%Hpacked. split; [by apply Hnot|]. split.
    + intros (k & b & Hk & Hin)%elem_of_concat_members.
      destruct Hp as [k' ->].
      apply (member_not_packed isalnum max2 log2 w1 b (packed_path k') k');
        [by eapply list_elem_of_lookup_2 | done | done].
    + intros evs' Htr'.
      destruct (combine_trace _ _ _ _ _ _ Hp2) as (evs & Htr & _ & Hreads).
      rewrite Htr in Htr'. apply (inj (app _)) in Htr' as <-.
      intros Hin%Hreads. by apply (Hnot p).
Qed.

Lemma packed_outputs_never_repacked_witness :
  let run1 := combine_markdown_files ascii_alnum 4 true
                (World example_dir []) in
  let run2 := combine_markdown_files ascii_alnum 9 false run1.2 in
  (∀ d f, f ∈ discover d → startswith f (lit "packed_") = false)
  ∧ sorted_inputs (w_dir run1.2) = sorted_inputs example_dir
  ∧ ∀ p, (∃ k, p = packed_path k) ∨ (∃ r1, run1.1 = Some r1 ∧ p ∈ r1) →
      (p ∉ discover (w_dir run1.2))
      ∧ (p ∉ concat (members <$> bundles ascii_alnum 9 false run1.2))
      ∧ (∀ evs, w_trace run2.2 = w_trace run1.2 ++ evs → p ∉ reads_of evs).
Proof.
  intros run1 run2.
  apply (packed_outputs_never_repacked ascii_alnum 4 true 9 false
           (World example_dir []) run1.1 run1.2 run2.1 run2.2).
  - apply surjective_pairing.
  - apply surjective_pairing.
Defined.

(** Two invocations in a row on the example: the second one packs the
    three source files again and not the two bundles of the first. *)
Example repack_example :
  let run1 := combine_markdown_files ascii_alnum 4 true
                (World example_dir []) in
  sorted_inputs (w_dir run1.2)
  = [lit "a.md"; lit "b.md"; lit "c.md"; lit "d.md"]
  ∧ bundles ascii_alnum 9 false run1.2
    = [Bundle 0 [lit "a.md"; lit "b.md"; lit "d.md"] 6].
Proof. vm_compute. done. Qed.

(** C5. Assuming no read errors, the artifacts in the files that an
    invocation returns are exactly the discovered input files, as
    multisets: none is lost and none occurs twice. The returned files are
    those of the bundles, they are the only files written, each holds the
    sections of its members, and every discovered file has its section in
    one of them. *)
Theorem artifacts_conserved isalnum max_words logger w r w' :
  (∀ f, f ∈ discover (w_dir w) → readable (w_dir w) f = true) →
  combine_markdown_files isalnum max_words logger w = (Some r, w') →
  let bs := bundles isalnum max_words logger w in
  r = packed_path <$> seq 0 (length bs)
  ∧ (∀ k b, bs !! k = Some b →
       w_dir w' !! packed_path k
       = Some (File (bundle_text (w_dir w) (members b))))
  ∧ (∃ evs, w_trace w' = w_trace w ++ evs
       ∧ writes_of evs = bundle_file (w_dir w) <$> bs)
  ∧ concat (members <$> bs) ≡ₚ discover (w_dir w)
  ∧ NoDup (concat (members <$> bs))
  ∧ ∀ f, f ∈ discover (w_dir w) →
      ∃ p before after,
        p ∈ r
        ∧ w_dir w' !! p
          = Some (File (join delimiter
                          (before ++ section_of f (text_of (w_dir w) f)
                                  :: after))).
Proof.
  intros Hall Hrun bs.
  pose proof (members_returned _ _ _ _ _ _ Hrun) as Hmem. fold bs in Hmem.
  rewrite filter_all in Hmem
    by (intros f Hf; apply Is_true_true, Hall; by apply elem_of_sorted_inputs).
  pose proof (combine_spec _ _ _ _ _ _ Hrun) as [_ _ Hr _ _ _ _ _].
  fold bs in Hr.
  split; [done|]. split; [|split; [|split; [|split]]].
  - intros k b Hk. by apply (combine_written _ _ _ _ _ _ _ _ Hrun Hk).
  - destruct (combine_trace _ _ _ _ _ _ Hrun) as (evs & Htr & Hw & _).
    by exists evs.
  - by rewrite Hmem, sorted_inputs_perm.
  - rewrite Hmem, sorted_inputs_perm. apply NoDup_discover.
  - intros f Hf. apply elem_of_sorted_inputs in Hf. rewrite <- Hmem in Hf.
    apply elem_of_concat_members in Hf as (k & b & Hk & Hin).
    destruct (bundle_text_member (w_dir w) _ _ Hin) as (l1 & l2 & Heq).
    exists (packed_path k), l1, l2. split.
    + rewrite Hr. apply list_elem_of_fmap. exists k. split; [done|].
      apply elem_of_seq. apply lookup_lt_Some in Hk. lia.
    + by rewrite (combine_written _ _ _ _ _ _ _ _ Hrun Hk), Heq.
Qed.

Lemma artifacts_conserved_witness :
  let res := combine_markdown_files ascii_alnum 4 true
               (World readable_dir []) in
  let bs := bundles ascii_alnum 4 true (World readable_dir []) in
  [lit "packed_0.md"; lit "packed_1.md"] = packed_path <$> seq 0 (length bs)
  ∧ (∀ k b, bs !! k = Some b →
       w_dir res.2 !! packed_path k
       = Some (File (bundle_text readable_dir (members b))))
  ∧ (∃ evs, w_trace res.2 = [] ++ evs
       ∧ writes_of evs = bundle_file readable_dir <$> bs)
  ∧ concat (members <$> bs) ≡ₚ discover readable_dir
  ∧ NoDup (concat (members <$> bs))
  ∧ ∀ f, f ∈ discover readable_dir →
      ∃ p before after,
        p ∈ [lit "packed_0.md"; lit "packed_1.md"]
        ∧ w_dir res.2 !! p
          = Some (File (join delimiter
                          (before ++ section_of f (text_of readable_dir f)
                                  :: after))).
Proof.
  intros res.
  apply (artifacts_conserved ascii_alnum 4 true (World readable_dir [])
           [lit "packed_0.md"; lit "packed_1.md"] res.2).
  - apply (Forall_discover _ readable_dir
             [lit "a.md"; lit "b.md"; lit "d.md"]).
    + vm_compute. reflexivity.
    + repeat (apply Forall_cons; split; [vm_compute; reflexivity|]).
      constructor.
  - apply injective_projections; [vm_compute; reflexivity | reflexivity].
Defined.

(** C4, as the code has it. The members of all bundles in the order of
    the bundles are the discovered files that could be read, each once, in
    the lexicographic order of their file names, which is the artifact
    name followed by [.md]: no artifact is reordered against that order,
    and none is split. They are all of these files when the invocation
    returns, and those up to the bundle whose write raised when it does
    not. The bundles are those in the files of the directory: the file of
    each bundle holds the sections of its members, and the paths returned
    are those of the bundles. *)
Theorem members_in_file_name_order isalnum max_words logger w res w' :
  combine_markdown_files isalnum max_words logger w = (res, w') →
  let bs := bundles isalnum max_words logger w in
  let inputs :=
    filter (λ f, readable (w_dir w) f)
           (merge_sort str_le (discover (w_dir w))) in
  (∃ rest, concat (members <$> bs) ++ rest = inputs
           ∧ (is_Some res → rest = []))
  ∧ Sorted str_le (concat (members <$> bs))
  ∧ NoDup (concat (members <$> bs))
  ∧ (∀ r, res = Some r → r = packed_path <$> seq 0 (length bs))
  ∧ (∀ k b, bs !! k = Some b →
       w_dir w' !! packed_path k
       = Some (File (bundle_text (w_dir w) (members b))))
  ∧ ∃ evs, w_trace w' = w_trace w ++ evs
      ∧ writes_of evs = bundle_file (w_dir w) <$> bs.
Proof.
  intros Hrun bs inputs.
  destruct (bundles_spec isalnum max_words logger w)
    as (_ & _ & _ & (rest & Hmem) & _). fold bs in Hmem.
  assert (NoDup (sorted_inputs (w_dir w))) as Hnd0.
  { rewrite sorted_inputs_perm. apply NoDup_discover. }
  destruct (sorted_part (sorted_inputs (w_dir w)) _ rest
              (λ f, readable (w_dir w) f)
              (sorted_inputs_sorted _) Hnd0 Hmem) as [Hsorted Hnd].
  split; [|split; [done|split; [done|split; [|split]]]].
  - exists rest. split; [done|]. intros [r ->].
    pose proof (members_returned _ _ _ _ _ _ Hrun) as Hall. fold bs in Hall.
    unfold inputs in *. fold (sorted_inputs (w_dir w)) in *.
    rewrite <- Hall in Hmem. rewrite <- (app_nil_r (concat _)) in Hmem at 2.
    by apply (inj (app _)) in Hmem.
  - intros r ->. apply combine_spec in Hrun. by destruct Hrun.
  - intros k b Hk. by apply (combine_written _ _ _ _ _ _ _ _ Hrun Hk).
  - destruct (combine_trace _ _ _ _ _ _ Hrun) as (evs & Htr & Hw & _).
    by exists evs.
Qed.

Lemma members_in_file_name_order_witness :
  let res := combine_markdown_files ascii_alnum 4 true (World example_dir []) in
  let bs := bundles ascii_alnum 4 true (World example_dir []) in
  let inputs :=
    filter (λ f, readable example_dir f)
           (merge_sort str_le (discover example_dir)) in
  (∃ rest, concat (members <$> bs) ++ rest = inputs
           ∧ (is_Some res.1 → rest = []))
  ∧ Sorted str_le (concat (members <$> bs))
  ∧ NoDup (concat (members <$> bs))
  ∧ (∀ r, res.1 = Some r → r = packed_path <$> seq 0 (length bs))
  ∧ (∀ k b, bs !! k = Some b →
       w_dir res.2 !! packed_path k
       = Some (File (bundle_text example_dir (members b))))
  ∧ ∃ evs, w_trace res.2 = [] ++ evs
      ∧ writes_of evs = bundle_file example_dir <$> bs.
Proof.
  intros res.
  apply (members_in_file_name_order ascii_alnum 4 true (World example_dir [])
           res.1 res.2).
  apply surjective_pairing.
Defined.

(** C4 as stated fails: the artifact names, which are the stems, come out
    as [a-b], [a], since [a-b.md] sorts before [a.md], while their
    lexicographic order is [a], [a-b]. Both files are readable, and the
    invocation returns. *)
Lemma artifact_names_not_in_lexicographic_order :
  let res := combine_markdown_files ascii_alnum 100000 false
               (World prefix_dir []) in
  let bs := bundles ascii_alnum 100000 false (World prefix_dir []) in
  Forall (λ f, readable prefix_dir f = true) (discover prefix_dir)
  ∧ res.1 = Some [lit "packed_0.md"]
  ∧ stem <$> concat (members <$> bs) = [lit "a-b"; lit "a"]
  ∧ merge_sort str_le (stem <$> discover prefix_dir) = [lit "a"; lit "a-b"]
  ∧ ¬ Sorted str_le (stem <$> concat (members <$> bs))
  ∧ stem <$> concat (members <$> bs)
    ≠ merge_sort str_le (stem <$> discover prefix_dir).
Proof.
  intros res bs.
  assert (stem <$> concat (members <$> bs) = [lit "a-b"; lit "a"]) as Hnames
    by by vm_compute.
  assert (merge_sort str_le (stem <$> discover prefix_dir)
          = [lit "a"; lit "a-b"]) as Hsorted by by vm_compute.
  split.
  { apply Forall_forall.
    apply (Forall_discover _ prefix_dir [lit "a-b.md"; lit "a.md"]).
    - vm_compute. reflexivity.
    - repeat (apply Forall_cons; split; [vm_compute; reflexivity|]).
      constructor. }
  split; [by vm_compute|].
  split; [done|]. split; [done|]. rewrite Hnames, Hsorted. split; [|done].
  intros Hs. apply Sorted_inv in Hs as [_ Hhd]. apply HdRel_inv in Hhd.
  vm_compute in Hhd. done.
Qed.

(** C7. An artifact that cannot be read is skipped: [count_words] gives 0
    for it and logs the failure, the loop body adds nothing for it (the
    accumulator stays as it is, or is emptied by the flush that precedes),
    it is a member of no bundle, and packing goes on. The invocation does
    not abort for it: it returns whenever its writes go through, and where
    it raises a write has raised. When it returns, the failure is logged
    and every input that could be read, those after the unreadable one
    among them, has its section in one of the files returned, the totals
    being the word counts of the members. *)
Theorem unreadable_artifact_skipped isalnum max_words logger w res w' f :
  combine_markdown_files isalnum max_words logger w = (res, w') →
  f ∈ discover (w_dir w) →
  readable (w_dir w) f = false →
  let bs := bundles isalnum max_words logger w in
  (count_words isalnum f w).1 = 0
  ∧ (∀ l w0 l', readable (w_dir w0) f = false →
       (loop_body isalnum max_words logger (l, w0) f).1 = Some l' →
       (current_content l' = current_content l
        ∧ current_word_count l' = current_word_count l)
       ∨ (current_content l' = [] ∧ current_word_count l' = 0))
  ∧ (f ∉ concat (members <$> bs))
  ∧ (writes_go_through (w_dir w) → is_Some res)
  ∧ (res = None →
       ∃ k evs e, w_trace w' = w_trace w ++ evs
         ∧ EvWriteError (packed_path k) e ∈ evs)
  ∧ ∀ r, res = Some r →
      (∃ evs, w_trace w' = w_trace w ++ evs
         ∧ EvCountError f ∈ evs
         ∧ (logger = true → EvReadError f ∈ evs))
      ∧ r = packed_path <$> seq 0 (length bs)
      ∧ Forall (λ b, total_words b = sum_words isalnum (w_dir w) (members b)) bs
      ∧ ∀ g, g ∈ discover (w_dir w) → readable (w_dir w) g = true →
          ∃ k b before after,
            bs !! k = Some b ∧ g ∈ members b ∧ packed_path k ∈ r
            ∧ w_dir w' !! packed_path k
              = Some (File (join delimiter
                              (before ++ section_of g (text_of (w_dir w) g)
                                      :: after))).
Proof.
  intros Hrun Hf Hread bs.
  split; [|split; [|split; [|split; [|split]]]].
  - rewrite count_words_eq. simpl. by apply words_of_unreadable.
  - intros l w0 l' Hread0. unfold loop_body. rewrite count_words_eq, Hread0.
    rewrite (words_of_unreadable _ _ _ Hread0).
    case_bool_decide; simpl.
    + rewrite write_text_eq. destruct (write_ok _ _ _); simpl; [|done].
      rewrite lookup_insert_ne by (intros H'; by eapply discover_not_packed).
      rewrite lookup_text, Hread0. simpl. intros [= <-]. by right.
    + rewrite lookup_text, Hread0. simpl. intros [= <-]. by left.
  - intros (k & b & Hk & Hin)%elem_of_concat_members.
    destruct (member_input isalnum max_words logger w b f) as [_ Hrd];
      [by eapply list_elem_of_lookup_2 | done | congruence].
  - intros Hgo.
    pose proof (returns_when_writes_go_through isalnum max_words logger w Hgo)
      as Hret. by rewrite Hrun in Hret.
  - intros ->.
    destruct (raises_in_write _ _ _ _ _ Hrun)
      as (k & ms & _ & _ & _ & evs & e & Htr & He). eauto.
  - intros r ->.
    pose proof (members_returned _ _ _ _ _ _ Hrun) as Hmem. fold bs in Hmem.
    pose proof (combine_spec _ _ _ _ _ _ Hrun) as Hpost. fold bs in Hpost.
    destruct Hpost as [_ _ Hr _ Hbs _ (evs & Htr & [_ _ _ Hc He]) _].
    split; [|split; [done|split]].
    + exists evs. split; [done|]. rewrite Hc, He.
      apply elem_of_sorted_inputs in Hf. auto.
    + eapply Forall_impl; [exact Hbs|]. by intros b [Hb _].
    + intros g Hg Hrd.
      assert (g ∈ concat (members <$> bs)) as Hin.
      { rewrite Hmem. apply list_elem_of_filter. split; [by rewrite Hrd|].
        by apply elem_of_sorted_inputs. }
      apply elem_of_concat_members in Hin as (k & b & Hk & Hin).
      destruct (bundle_text_member (w_dir w) _ _ Hin) as (l1 & l2 & Heq).
      exists k, b, l1, l2. split; [done|]. split; [done|]. split.
      * rewrite Hr. apply list_elem_of_fmap. exists k. split; [done|].
        apply elem_of_seq. apply lookup_lt_Some in Hk. lia.
      * by rewrite (combine_written _ _ _ _ _ _ _ _ Hrun Hk), Heq.
Qed.

Lemma unreadable_artifact_skipped_witness :
  let res := combine_markdown_files ascii_alnum 4 true (World example_dir []) in
  let f := lit "c.md" in
  let bs := bundles ascii_alnum 4 true (World example_dir []) in
  (count_words ascii_alnum f (World example_dir [])).1 = 0
  ∧ (∀ l w0 l', readable (w_dir w0) f = false →
       (loop_body ascii_alnum 4 true (l, w0) f).1 = Some l' →
       (current_content l' = current_content l
        ∧ current_word_count l' = current_word_count l)
       ∨ (current_content l' = [] ∧ current_word_count l' = 0))
  ∧ (f ∉ concat (members <$> bs))
  ∧ (writes_go_through example_dir → is_Some res.1)
  ∧ (res.1 = None →
       ∃ k evs e, w_trace res.2 = [] ++ evs
         ∧ EvWriteError (packed_path k) e ∈ evs)
  ∧ ∀ r, res.1 = Some r →
      (∃ evs, w_trace res.2 = [] ++ evs
         ∧ EvCountError f ∈ evs
         ∧ (true = true → EvReadError f ∈ evs))
      ∧ r = packed_path <$> seq 0 (length bs)
      ∧ Forall (λ b, total_words b = sum_words ascii_alnum example_dir (members b))
               bs
      ∧ ∀ g, g ∈ discover example_dir → readable example_dir g = true →
          ∃ k b before after,
            bs !! k = Some b ∧ g ∈ members b ∧ packed_path k ∈ r
            ∧ w_dir res.2 !! packed_path k
              = Some (File (join delimiter
                              (before ++ section_of g (text_of example_dir g)
                                      :: after))).
Proof.
  intros res f.
  apply (unreadable_artifact_skipped ascii_alnum 4 true (World example_dir [])
           res.1 res.2 f).
  - apply surjective_pairing.
  - apply (proj1 (elem_of_sorted_inputs example_dir (lit "c.md"))).
    vm_compute. repeat constructor.
  - vm_compute. reflexivity.
Defined.

(** ** The threshold *)

(** The guard of the flush tests [current_word_count > 0], not whether
    [current_content] has members. The two differ once the accumulator
    holds only files without a word, and then the claims C1, C2 and C3 fail.
    The failing input is [blank_dir] with [max_words = 3]: [a.md] has no
    word and [b.md] has five. *)

(** C1 at the failing input: the invocation returns one file, and the
    only bundle has two members and a total of five words, above the
    threshold of three. *)
Theorem threshold_exceeded_after_blank_artifact :
  let bs := bundles ascii_alnum 3 false (World blank_dir []) in
  let res := combine_markdown_files ascii_alnum 3 false (World blank_dir []) in
  res.1 = Some [lit "packed_0.md"]
  ∧ w_dir res.2 !! lit "packed_0.md"
    = Some (File (bundle_text blank_dir [lit "a.md"; lit "b.md"]))
  ∧ bs = [Bundle 0 [lit "a.md"; lit "b.md"] 5]
  ∧ ∃ b, b ∈ bs ∧ (1 < length (members b))%nat ∧ total_words b > 3.
Proof.
  intros bs res. assert (bs = [Bundle 0 [lit "a.md"; lit "b.md"] 5]) as ->
    by by vm_compute.
  split; [by vm_compute|]. split; [by vm_compute|]. split; [done|].
  eexists. split; [by apply list_elem_of_singleton|].
  simpl. split; lia.
Qed.

(** C2 at the failing input: [b.md] has five words, more than the
    threshold of three, and the bundle that holds it, whose file is the one
    returned, holds [a.md] too. *)
Theorem oversized_artifact_not_alone :
  let bs := bundles ascii_alnum 3 false (World blank_dir []) in
  let res := combine_markdown_files ascii_alnum 3 false (World blank_dir []) in
  words_of ascii_alnum blank_dir (lit "b.md") = 5
  ∧ res.1 = Some [lit "packed_0.md"]
  ∧ w_dir res.2 !! lit "packed_0.md"
    = Some (File (bundle_text blank_dir [lit "a.md"; lit "b.md"]))
  ∧ ∀ b, b ∈ bs → lit "b.md" ∈ members b →
         members b = [lit "a.md"; lit "b.md"].
Proof.
  intros bs res. assert (bs = [Bundle 0 [lit "a.md"; lit "b.md"] 5]) as ->
    by by vm_compute.
  split; [by vm_compute|]. split; [by vm_compute|]. split; [by vm_compute|].
  intros b Hb _. by apply list_elem_of_singleton in Hb as ->.
Qed.

(** C3 at the failing input: after [a.md] the accumulator has a member and
    a total of zero; [b.md] with its five words would bring the total above
    three, and yet the loop body does not finalize the accumulator before
    adding it. *)
Theorem nonempty_accumulator_not_flushed :
  ∃ l1 w1 l2 w2,
    loop_body ascii_alnum 3 false
      (Locals [] 0 0 [], World blank_dir []) (lit "a.md") = (Some l1, w1)
    ∧ loop_body ascii_alnum 3 false (l1, w1) (lit "b.md") = (Some l2, w2)
    ∧ length (current_content l1) = 1%nat
    ∧ current_word_count l1 = 0
    ∧ (count_words ascii_alnum (lit "b.md") w1).1 = 5
    ∧ combined_files l2 = []
    ∧ current_file_index l2 = 0%nat
    ∧ length (current_content l2) = 2%nat
    ∧ writes_of (w_trace w2) = [].
Proof.
  set (st1 := loop_body ascii_alnum 3 false
                (Locals [] 0 0 [], World blank_dir []) (lit "a.md")).
  set (l1 := Locals [] 0 0 [section_of (lit "a.md") []]).
  assert (st1.1 = Some l1) as H1 by by vm_compute.
  set (st2 := loop_body ascii_alnum 3 false (l1, st1.2) (lit "b.md")).
  set (l2 := Locals [] 0 5 [section_of (lit "a.md") [];
                            section_of (lit "b.md")
                              (lit "one two three four five")]).
  assert (st2.1 = Some l2) as H2 by by vm_compute.
  exists l1, st1.2, l2, st2.2.
  split; [by rewrite <- H1; apply surjective_pairing|].
  split; [by rewrite <- H2; apply surjective_pairing|].
  split; [done|]. split; [done|]. split; [by vm_compute|].
  split; [done|]. split; [done|]. split; [done|]. by vm_compute.
Qed.

(** A member of a list has at most the words of the list. *)
Lemma sum_words_member isalnum d ms f :
  f ∈ ms → words_of isalnum d f ≤ sum_words isalnum d ms.
Proof.
  intros (l1 & l2 & ->)%list_elem_of_split.
  rewrite sum_words_app.
  pose proof (sum_words_nonneg isalnum d l1).
  pose proof (sum_words_nonneg isalnum d l2).
  unfold sum_words in *. simpl. lia.
Qed.

(** X20. What does hold: where every readable input has at least one word,
    only a bundle of one member exceeds the threshold, its total being the
    word count of that member (this part needs no assumption), and a file
    that exceeds the threshold on its own is the only member of its
    bundle, which it has whenever the invocation returns. *)
Theorem threshold_respected_without_blank isalnum max_words logger w :
  no_blank isalnum (w_dir w) (discover (w_dir w)) →
  let bs := bundles isalnum max_words logger w in
  (∀ b, b ∈ bs → (1 < length (members b))%nat → total_words b ≤ max_words)
  ∧ (∀ b f, b ∈ bs → members b = [f] →
       total_words b = words_of isalnum (w_dir w) f)
  ∧ (∀ b f, b ∈ bs → f ∈ members b →
       words_of isalnum (w_dir w) f > max_words → members b = [f])
  ∧ (is_Some (combine_markdown_files isalnum max_words logger w).1 →
     ∀ f, f ∈ discover (w_dir w) → readable (w_dir w) f = true →
       words_of isalnum (w_dir w) f > max_words →
       ∃ b, b ∈ bs ∧ members b = [f]).
Proof.
  intros Hnb bs.
  assert (no_blank isalnum (w_dir w) (sorted_inputs (w_dir w))) as Hnb'.
  { intros f Hf. apply Hnb. by apply elem_of_sorted_inputs. }
  destruct (bundles_spec isalnum max_words logger w)
    as (_ & Hbs & _ & _ & Hone). fold bs in Hbs, Hone.
  specialize (Hone Hnb'). rewrite Forall_forall in Hbs.
  split; [done|]. split; [|split].
  - intros b f Hb Hm.
    destruct (Hbs b Hb) as [-> _]. rewrite Hm. unfold sum_words. simpl. lia.
  - intros b f Hb Hf Hgt. destruct (Hbs b Hb) as [Ht _].
    pose proof (sum_words_member isalnum (w_dir w) _ _ Hf) as Hle.
    destruct (members b) as [|m [|m' ms]] eqn:Hm.
    + by apply elem_of_nil in Hf.
    + by apply list_elem_of_singleton in Hf as ->.
    + specialize (Hone b Hb). rewrite Hm in Hone.
      specialize (Hone ltac:(simpl; lia)). lia.
  - intros [r Hr] f Hf Hrd Hgt.
    destruct (combine_markdown_files isalnum max_words logger w)
      as [res w'] eqn:Hrun. simpl in Hr. subst res.
    apply combine_spec in Hrun. destruct Hrun as [_ _ _ _ _ _ _ Hthr].
    destruct (Hthr Hnb') as [_ Hbig].
    apply Hbig; [by apply elem_of_sorted_inputs|done..].
Qed.

Lemma threshold_respected_without_blank_witness :
  let bs := bundles ascii_alnum 4 true (World example_dir []) in
  (∀ b, b ∈ bs → (1 < length (members b))%nat → total_words b ≤ 4)
  ∧ (∀ b f, b ∈ bs → members b = [f] →
       total_words b = words_of ascii_alnum example_dir f)
  ∧ (∀ b f, b ∈ bs → f ∈ members b →
       words_of ascii_alnum example_dir f > 4 → members b = [f])
  ∧ (is_Some (combine_markdown_files ascii_alnum 4 true
                (World example_dir [])).1 →
     ∀ f, f ∈ discover example_dir → readable example_dir f = true →
       words_of ascii_alnum example_dir f > 4 →
       ∃ b, b ∈ bs ∧ members b = [f]).
Proof.
  apply (threshold_respected_without_blank ascii_alnum 4 true
           (World example_dir [])).
  refine (Forall_discover
            (λ f, readable example_dir f = true
                  → words_of ascii_alnum example_dir f > 0)
            example_dir [lit "a.md"; lit "b.md"; lit "c.md"; lit "d.md"] _ _).
  - vm_compute. reflexivity.
  - repeat (apply Forall_cons; split; [vm_compute; congruence|]). constructor.
Defined.

(** X21. In particular a directory with one source file, whatever its size
    and whatever the threshold, gives one bundle with that file and its
    word count, so for a file of 200000 words and [max_words = 100000]:
    the invocation returns the path of its file, which holds the section of
    the source file. This is where the file can be written; where it
    cannot, the invocation raises and there is no bundle. *)
Theorem single_file_single_bundle isalnum max_words logger d tr f text :
  discover d = [f] → d !! f = Some (File text) →
  let res := combine_markdown_files isalnum max_words logger (World d tr) in
  let bs := bundles isalnum max_words logger (World d tr) in
  if write_ok d (packed_path 0) (section_of f text) then
    bs = [Bundle 0 [f] (Z.of_nat (length (re_findall isalnum text)))]
    ∧ res.1 = Some [packed_path 0]
    ∧ w_dir res.2 !! packed_path 0 = Some (File (section_of f text))
  else bs = [] ∧ res.1 = None.
Proof.
  intros Hdisc Hfile res bs.
  destruct (bundles_greedy isalnum max_words logger (World d tr))
    as [Hbs Hsome]. fold bs res in Hbs, Hsome. simpl in Hbs, Hsome.
  assert (sorted_inputs d = [f]) as Hs by (unfold sorted_inputs; by rewrite Hdisc).
  assert (readable d f = true) as Hrd by (unfold readable; by rewrite Hfile).
  set (b := Bundle 0 [f] (Z.of_nat (length (re_findall isalnum text)))).
  assert (greedy isalnum max_words d [f] = [b]) as Hgr.
  { unfold greedy. cbn [foldl]. unfold greedy_step. cbn [g_members].
    change (sum_words isalnum d []) with 0.
    rewrite bool_decide_eq_false_2 by lia. rewrite Hrd. unfold greedy_close.
    cbn [g_members g_bundles app length]. unfold b. f_equal. f_equal.
    unfold sum_words, words_of. cbn [fmap list_fmap foldr].
    rewrite Hfile. by rewrite Z.add_0_r. }
  rewrite Hs, Hgr in Hbs, Hsome. simpl in Hbs.
  assert (writable d b = write_ok d (packed_path 0) (section_of f text)) as Hw.
  { unfold writable, bundle_file, bundle_text, text_of. simpl.
    by rewrite Hfile. }
  rewrite Hw in Hbs.
  destruct (write_ok d (packed_path 0) (section_of f text)).
  - destruct (proj2 Hsome Hbs) as [r Hr].
    pose proof (surjective_pairing res) as Hrun. rewrite Hr in Hrun.
    split; [done|].
    pose proof (combine_spec _ _ _ _ _ _ Hrun) as [_ _ Hr' _ _ _ _ _].
    fold bs in Hr'. rewrite Hbs in Hr'. simpl in Hr'. subst r.
    split; [done|].
    rewrite (combine_written isalnum max_words logger (World d tr)
               _ _ 0 b Hrun); [|fold bs; by rewrite Hbs].
    unfold bundle_text, text_of. simpl. by rewrite Hfile.
  - split; [done|]. destruct res.1 as [r|] eqn:Hr; [|done].
    assert (bs = [b]) as Hbad by (apply Hsome; eauto).
    by rewrite Hbs in Hbad.
Qed.

Lemma single_file_single_bundle_witness :
  let d := dir_of [("huge.md", File (lit "one two three four five"))]%string in
  let res := combine_markdown_files ascii_alnum 3 false (World d []) in
  let bs := bundles ascii_alnum 3 false (World d []) in
  if write_ok d (packed_path 0)
       (section_of (lit "huge.md") (lit "one two three four five")) then
    bs = [Bundle 0 [lit "huge.md"]
            (Z.of_nat (length (re_findall ascii_alnum
                                 (lit "one two three four five"))))]
    ∧ res.1 = Some [packed_path 0]
    ∧ w_dir res.2 !! packed_path 0
      = Some (File (section_of (lit "huge.md")
                      (lit "one two three four five")))
  else bs = [] ∧ res.1 = None.
Proof.
  intros d.
  apply (single_file_single_bundle ascii_alnum 3 false d [] (lit "huge.md")
           (lit "one two three four five")).
  - vm_compute. reflexivity.
  - vm_compute. reflexivity.
Defined.

(** X22. And there the guard of the flush is the one C3 states: after
    any number of the inputs, the accumulator has a member exactly when
    its total is positive. *)
Theorem flush_guard_without_blank isalnum max_words logger w done todo l :
  sorted_inputs (w_dir w) = done ++ todo →
  no_blank isalnum (w_dir w) done →
  (for_each (loop_body isalnum max_words logger) done
     (Locals [] 0 0 [], w)).1 = Some l →
  current_content l ≠ [] ↔ current_word_count l > 0.
Proof.
  destruct w as [d0 tr0]. simpl. intros Hsplit Hnb Hrun.
  pose proof (loop_g_inv isalnum max_words logger d0 tr0 done) as Hloop.
  rewrite (loop_erasure _ _ _ _ _ _ (Ghost [] [])) in Hrun.
  destruct (for_each _ done _) as [[l'|] [w' g]]; simpl in Hrun; [|done].
  injection Hrun as ->.
  destruct Hloop as [Hinv _].
  { intros f k Hf. apply (discover_not_packed d0).
    apply elem_of_sorted_inputs. rewrite Hsplit. apply elem_of_app. by left. }
  destruct Hinv as [_ _ _ _ _ Hcnt _ Hcont _ Hthr _].
  destruct (Hthr Hnb) as [Hpos _]. rewrite Hcnt, Hcont.
  destruct (g_members g) as [|m ms]; simpl.
  - unfold sum_words. simpl. split; [done|lia].
  - split; [|done]. intros _. by apply Hpos.
Qed.

Lemma flush_guard_without_blank_witness :
  let l := Locals [lit "packed_0.md"] 1 3
             [section_of (lit "b.md") (lit "three, four; five")] in
  current_content l ≠ [] ↔ current_word_count l > 0.
Proof.
  intros l.
  apply (flush_guard_without_blank ascii_alnum 4 true (World example_dir [])
           [lit "a.md"; lit "b.md"] [lit "c.md"; lit "d.md"] l).
  - vm_compute. reflexivity.
  - intros f Hf. revert f Hf.
    apply (proj1 (Forall_forall
                    (λ f, readable example_dir f = true
                          → words_of ascii_alnum example_dir f > 0) _)).
    repeat (apply Forall_cons; split; [vm_compute; congruence|]).
    constructor.
  - vm_compute. reflexivity.
Defined.

(** * Further properties of the code *)

(** ** The word counter in one pass *)

Section RunStarts.
Variable isalnum : N → bool.

Lemma run_starts_skip n l prev :
  (∀ k, (k < S n)%nat → word_at isalnum l k = true) →
  run_starts isalnum prev l
  = ((if prev then 0 else 1) + run_starts isalnum true (drop (S n) l))%nat.
Proof.
  revert l prev. induction n as [|n IH]; intros l prev Hrun.
  - destruct l as [|c l]; [by specialize (Hrun O ltac:(lia))|].
    pose proof (Hrun O ltac:(lia)) as Hc. unfold word_at in Hc. simpl in Hc.
    simpl. rewrite Hc, drop_0. by destruct prev.
  - destruct l as [|c l]; [by specialize (Hrun O ltac:(lia))|].
    pose proof (Hrun O ltac:(lia)) as Hc. unfold word_at in Hc. simpl in Hc.
    simpl. rewrite Hc. rewrite (IH l true).
    + simpl. by destruct prev.
    + intros k Hk. apply (Hrun (S k)). lia.
Qed.

Lemma run_starts_sep prev a c b :
  is_word isalnum c = false →
  run_starts isalnum prev (a ++ c :: b)
  = (run_starts isalnum prev a + run_starts isalnum false b)%nat.
Proof.
  intros Hc. revert prev. induction a as [|x a IH]; intros prev; simpl.
  - by rewrite Hc.
  - rewrite IH. lia.
Qed.

Lemma run_starts_bound prev s :
  (2 * run_starts isalnum prev s ≤ length s + if prev then 0 else 1)%nat.
Proof.
  revert prev. induction s as [|c s IH]; intros prev; simpl.
  - destruct prev; lia.
  - specialize (IH (is_word isalnum c)).
    destruct (is_word isalnum c), prev; simpl in *; lia.
Qed.

(** Whether the character before position [pos] is a word character. *)
Lemma match_at_start s pos :
  word_at isalnum s pos = true →
  match pos with O => false | S j => word_at isalnum s j end = false →
  is_Some (match_at isalnum s pos).
Proof.
  intros Hw Hprev. exists (pos + span_len isalnum (drop pos s))%nat.
  apply match_at_spec.
  pose proof (span_len_inside isalnum (drop pos s)) as Hin.
  pose proof (span_len_end isalnum (drop pos s)) as Hend.
  setoid_rewrite word_at_drop in Hin. rewrite word_at_drop in Hend.
  assert (0 < span_len isalnum (drop pos s))%nat as Hpos.
  { destruct (span_len isalnum (drop pos s)); [|lia].
    rewrite Nat.add_0_r in Hend. congruence. }
  split; [lia|]. split; [|split; [|done]].
  - intros k Hk. replace k with (pos + (k - pos))%nat by lia. apply Hin. lia.
  - destruct pos as [|j]; [by left|right].
    by replace (S j - 1)%nat with j by lia.
Qed.

(** The scan of [re.findall] finds as many matches as there are starts of
    runs. *)
Lemma findall_from_length s pos :
  length (findall_from isalnum s pos)
  = run_starts isalnum
      (match pos with O => false | S j => word_at isalnum s j end)
      (drop pos s).
Proof.
  funelim (findall_from isalnum s pos).
  - by rewrite drop_ge by lia.
  - pose proof Heq as Hm. apply match_at_spec in Hm.
    destruct Hm as (Hlt & Hrun & Hleft & Hright).
    rewrite Nat.max_l in H |- * by lia. simpl. rewrite H.
    destruct e as [|e']; [lia|].
    assert (word_at isalnum s e' = true) as -> by (apply Hrun; lia).
    rewrite (run_starts_skip (e' - pos) (drop pos s)).
    + rewrite drop_drop. replace (pos + S (e' - pos))%nat with (S e') by lia.
      destruct pos as [|j]; [done|].
      destruct Hleft as [|Hleft]; [done|].
      replace (S j - 1)%nat with j in Hleft by lia. by rewrite Hleft.
    + intros k Hk. rewrite word_at_drop. apply Hrun. lia.
  - rewrite H.
    destruct (s !! pos) as [c|] eqn:Hc;
      [|apply lookup_ge_None in Hc; lia].
    rewrite (drop_S _ _ _ Hc). simpl.
    assert (word_at isalnum s pos = is_word isalnum c) as Hw
      by (unfold word_at; by rewrite Hc).
    rewrite Hw.
    destruct (is_word isalnum c) eqn:Hic; [|done].
    destruct (match pos with O => false | S j => word_at isalnum s j end)
      eqn:Hprev; [done|].
    destruct (match_at_start s pos Hw Hprev) as [e He]. congruence.
Qed.

Lemma word_count_run_starts content :
  word_count isalnum content = Z.of_nat (run_starts isalnum false content).
Proof.
  unfold word_count. by rewrite length_re_findall, findall_from_length, drop_0.
Qed.
End RunStarts.

(** ** Sizes of texts *)

(** X1. Words on the two sides of a character that is not a word character
    are counted separately: the count of [a + c + b] is the count of [a]
    plus the count of [b]. *)
Theorem word_count_separated isalnum a c b :
  is_word isalnum c = false →
  length (re_findall isalnum (a ++ c :: b))
  = (length (re_findall isalnum a) + length (re_findall isalnum b))%nat.
Proof.
  intros Hc. rewrite !length_re_findall, !findall_from_length, !drop_0.
  by apply run_starts_sep.
Qed.

Lemma word_count_separated_witness :
  length (re_findall ascii_alnum (lit "one two" ++ 10%N :: lit "three"))
  = (length (re_findall ascii_alnum (lit "one two"))
     + length (re_findall ascii_alnum (lit "three")))%nat.
Proof. apply word_count_separated. vm_compute. reflexivity. Defined.

(** X2. A text of [n] characters has at most [(n + 1) / 2] words, so an
    empty text has none. *)
Theorem word_count_bound isalnum content :
  (2 * length (re_findall isalnum content) ≤ length content + 1)%nat.
Proof.
  rewrite length_re_findall, findall_from_length, drop_0.
  apply (run_starts_bound isalnum false).
Qed.

(** ** Neighbouring bundles *)

Section TightFacts.
Variables (isalnum : N → bool) (max_words : Z) (d0 : gmap str entry).

Lemma tight_snoc bs b' :
  tight isalnum max_words d0 bs →
  (∀ b m, last bs = Some b → head (members b') = Some m →
     total_words b + words_of isalnum d0 m > max_words) →
  tight isalnum max_words d0 (bs ++ [b']).
Proof.
  intros Hbs Hlast k b1 b2 m H1 H2 Hm.
  destruct (decide (S k < length bs)%nat) as [Hlt|Hge].
  - rewrite lookup_app_l in H1 by lia. rewrite lookup_app_l in H2 by lia.
    by eapply Hbs.
  - assert (S k = length bs) as Hk.
    { apply lookup_lt_Some in H2. rewrite length_app in H2. simpl in H2. lia. }
    rewrite Hk, list_lookup_middle in H2 by done. injection H2 as <-.
    rewrite lookup_app_l in H1 by lia.
    apply (Hlast b1 m); [|done]. rewrite last_lookup.
    by replace (Nat.pred (length bs)) with k by lia.
Qed.

Lemma tight_open_step g f :
  tight_open isalnum max_words d0 g →
  tight_open isalnum max_words d0 (greedy_step isalnum max_words d0 g f).
Proof.
  destruct g as [ms bs]. intros [Hbs Hlast]. simpl in *.
  pose proof (words_of_nonneg isalnum d0 f) as Hf.
  pose proof (words_of_unreadable isalnum d0 f) as Hzero.
  unfold greedy_step. cbn [g_members g_bundles].
  case_bool_decide as Hflush; destruct (readable d0 f) eqn:Hread;
    unfold tight_open; cbn [g_members g_bundles app].
  - split.
    + apply tight_snoc; [done|]. simpl. intros b m Hb Hm.
      specialize (Hlast b Hb). destruct ms as [|m' ms]; [done|].
      by injection Hm as <-.
    + intros b. rewrite last_snoc. intros [= <-]. simpl. lia.
  - split.
    + apply tight_snoc; [done|]. simpl. intros b m Hb Hm.
      specialize (Hlast b Hb). destruct ms as [|m' ms]; [done|].
      by injection Hm as <-.
    + intros b. rewrite last_snoc. intros [= <-]. simpl.
      specialize (Hzero eq_refl). lia.
  - split; [done|]. intros b Hb. specialize (Hlast b Hb).
    destruct ms as [|m ms]; simpl; [lia|done].
  - by split.
Qed.

Lemma tight_open_run files :
  tight_open isalnum max_words d0
    (foldl (greedy_step isalnum max_words d0) (Ghost [] []) files).
Proof.
  induction files as [|f files IH] using rev_ind.
  - split; simpl; [|done]. intros k b b' m Hk. done.
  - rewrite foldl_app. simpl. by apply tight_open_step.
Qed.

Lemma tight_greedy files :
  tight isalnum max_words d0 (greedy isalnum max_words d0 files).
Proof.
  unfold greedy, greedy_close.
  destruct (tight_open_run files) as [Hbs Hlast].
  destruct (foldl _ _ files) as [ms bs]. simpl in *.
  destruct ms as [|m ms]; [done|].
  apply tight_snoc; [done|]. simpl. intros b m' Hb [= <-]. by apply Hlast.
Qed.

Lemma tight_prefix bs rest :
  tight isalnum max_words d0 (bs ++ rest) → tight isalnum max_words d0 bs.
Proof.
  intros H k b b' m H1 H2. apply (H k b b' m); by apply lookup_app_l_Some.
Qed.
End TightFacts.

(** X3. A bundle is closed only when the next member would not fit: for
    two neighbouring bundles, the total of the first plus the word count of
    the first member of the second exceeds [max_words]. So the two could
    not have been one bundle within the threshold. *)
Theorem bundle_closed_only_when_full isalnum max_words logger w k b b' m :
  let bs := bundles isalnum max_words logger w in
  bs !! k = Some b → bs !! S k = Some b' → head (members b') = Some m →
  total_words b + words_of isalnum (w_dir w) m > max_words.
Proof.
  intros bs. unfold bs.
  destruct (bundles_greedy isalnum max_words logger w) as [Hbs _].
  destruct (written_prefix_prefix (w_dir w)
              (greedy isalnum max_words (w_dir w) (sorted_inputs (w_dir w))))
    as [rest Hrest].
  rewrite <- Hbs in Hrest.
  apply (tight_prefix _ _ _ _ rest). rewrite <- Hrest. apply tight_greedy.
Qed.

Lemma bundle_closed_only_when_full_witness :
  total_words (Bundle 0 [lit "a.md"] 2)
  + words_of ascii_alnum example_dir (lit "b.md") > 4.
Proof.
  apply (bundle_closed_only_when_full ascii_alnum 4 true
           (World example_dir []) 0 (Bundle 0 [lit "a.md"] 2)
           (Bundle 1 [lit "b.md"; lit "d.md"] 4) (lit "b.md")).
  - vm_compute. reflexivity.
  - vm_compute. reflexivity.
  - reflexivity.
Defined.

(** ** What an invocation leaves in the directory *)

Lemma bundle_text_ext d d' ms :
  (∀ f, f ∈ ms → d !! f = d' !! f) → bundle_text d ms = bundle_text d' ms.
Proof.
  intros Hext. unfold bundle_text. f_equal. apply list_fmap_ext.
  intros i f Hf. unfold text_of. rewrite (Hext f); [done|].
  by eapply list_elem_of_lookup_2.
Qed.

Lemma sum_words_ext isalnum d d' ms :
  (∀ f, f ∈ ms → d !! f = d' !! f) →
  sum_words isalnum d ms = sum_words isalnum d' ms.
Proof.
  unfold sum_words. induction ms as [|m ms IH]; intros Hext; [done|].
  simpl. rewrite IH by (intros f Hf; apply Hext, elem_of_cons; by right).
  unfold words_of. rewrite (Hext m); [done|]. apply elem_of_cons. by left.
Qed.

Section GreedyExt.
Variables (isalnum : N → bool) (max_words : Z).

Lemma greedy_step_members d g f x :
  x ∈ g_members (greedy_step isalnum max_words d g f) →
  x ∈ g_members g ∨ x = f.
Proof.
  unfold greedy_step. case_bool_decide; destruct (readable d f); simpl.
  all: rewrite ?elem_of_app, ?list_elem_of_singleton, ?elem_of_nil; tauto.
Qed.

Lemma greedy_run_members d files x :
  x ∈ g_members (foldl (greedy_step isalnum max_words d) (Ghost [] []) files) →
  x ∈ files.
Proof.
  induction files as [|f files IH] using rev_ind.
  - simpl. by rewrite elem_of_nil.
  - rewrite foldl_app. simpl. intros [Hx| ->]%greedy_step_members.
    + apply elem_of_app. left. by apply IH.
    + apply elem_of_app. right. by apply list_elem_of_singleton.
Qed.

(** The partition depends on the directory through its inputs only. *)
Lemma greedy_run_ext d d' files :
  (∀ f, f ∈ files → d !! f = d' !! f) →
  foldl (greedy_step isalnum max_words d) (Ghost [] []) files
  = foldl (greedy_step isalnum max_words d') (Ghost [] []) files.
Proof.
  induction files as [|f files IH] using rev_ind; intros Hext; [done|].
  assert (∀ x, x ∈ files → d !! x = d' !! x) as Hext'.
  { intros x Hx. apply Hext, elem_of_app. by left. }
  rewrite !foldl_app. simpl. rewrite <- (IH Hext').
  set (g := foldl (greedy_step isalnum max_words d) (Ghost [] []) files).
  assert (d !! f = d' !! f) as Hf.
  { apply Hext, elem_of_app. right. by apply list_elem_of_singleton. }
  unfold greedy_step, readable, words_of. rewrite Hf.
  rewrite (sum_words_ext isalnum d d' (g_members g)); [done|].
  intros x Hx. apply Hext'. by apply (greedy_run_members d).
Qed.

Lemma greedy_ext d d' files :
  (∀ f, f ∈ files → d !! f = d' !! f) →
  greedy isalnum max_words d files = greedy isalnum max_words d' files.
Proof.
  intros Hext. unfold greedy. rewrite (greedy_run_ext d d' files Hext).
  unfold greedy_close.
  set (g := foldl (greedy_step isalnum max_words d') (Ghost [] []) files).
  rewrite (sum_words_ext isalnum d d' (g_members g)); [done|].
  intros x Hx. apply Hext. apply (greedy_run_members d').  exact Hx.
Qed.
End GreedyExt.


(** The bundles of the partition are numbered from 0, and their members
    are among the files. *)
Lemma greedy_run_wf isalnum max_words d files :
  let g := foldl (greedy_step isalnum max_words d) (Ghost [] []) files in
  index <$> g_bundles g = seq 0 (length (g_bundles g))
  ∧ ∀ b f, b ∈ g_bundles g → f ∈ members b → f ∈ files.
Proof.
  induction files as [|f0 files IH] using rev_ind.
  - simpl. split; [done|]. intros b f Hb. by apply elem_of_nil in Hb.
  - simpl in *. rewrite foldl_app. cbn [foldl].
    pose proof (greedy_run_members isalnum max_words d files) as Hms.
    destruct (foldl _ _ files) as [ms bs]. simpl in *.
    destruct IH as [Hidx Hin].
    assert (∀ b f, b ∈ bs → f ∈ members b → f ∈ files ++ [f0]) as Hin'.
    { intros b f Hb Hf. apply elem_of_app. left. by eapply Hin. }
    unfold greedy_step. cbn [g_members g_bundles].
    assert (index <$> bs ++ [Bundle (length bs) ms (sum_words isalnum d ms)]
            = seq 0 (length (bs ++
                [Bundle (length bs) ms (sum_words isalnum d ms)]))) as Hidx'.
    { rewrite fmap_app, length_app. simpl. by rewrite seq_snoc, Hidx. }
    assert (∀ b f,
              b ∈ bs ++ [Bundle (length bs) ms (sum_words isalnum d ms)] →
              f ∈ members b → f ∈ files ++ [f0]) as Hin''.
    { intros b f [Hb| ->%list_elem_of_singleton]%elem_of_app Hf; [eauto|].
      apply elem_of_app. left. by apply Hms. }
    case_bool_decide; destruct (readable d f0); simpl; by split.
Qed.

Lemma greedy_wf isalnum max_words d files :
  let G := greedy isalnum max_words d files in
  index <$> G = seq 0 (length G)
  ∧ ∀ b f, b ∈ G → f ∈ members b → f ∈ files.
Proof.
  simpl. unfold greedy, greedy_close.
  pose proof (greedy_run_members isalnum max_words d files) as Hms.
  destruct (greedy_run_wf isalnum max_words d files) as [Hidx Hin].
  simpl in Hidx, Hin.
  destruct (foldl _ _ files) as [ms bs]. simpl in *.
  destruct ms as [|m ms]; [by split|]. split.
  - rewrite fmap_app, length_app. simpl. by rewrite seq_snoc, Hidx.
  - intros b f [Hb| ->%list_elem_of_singleton]%elem_of_app Hf; [eauto|].
    by apply Hms.
Qed.

Lemma writable_ext d d' b :
  openable d (packed_path (index b)) = openable d' (packed_path (index b)) →
  (∀ f, f ∈ members b → d !! f = d' !! f) →
  writable d b = writable d' b.
Proof.
  intros Hop Hext. unfold writable, bundle_file, write_ok. simpl.
  by rewrite Hop, (bundle_text_ext d d' _ Hext).
Qed.

Lemma written_prefix_split d bs :
  written_prefix d bs = bs
  ∨ ∃ b rest, bs = written_prefix d bs ++ b :: rest ∧ writable d b = false.
Proof.
  induction bs as [|b bs IH]; [by left|]. simpl.
  destruct (writable d b) eqn:Hb.
  - destruct IH as [->|(b' & rest & Heq & Hb')]; [by left|].
    right. exists b', rest. split; [|done]. simpl. by rewrite <- Heq.
  - right. by exists b, bs.
Qed.

Lemma openable_failed_write (d : gmap str entry) p :
  openable (failed_write d p) p = openable d p.
Proof.
  unfold failed_write. destruct (openable d p) eqn:Hop; [|done].
  unfold openable. by rewrite lookup_insert_eq.
Qed.

Section DirectoryFacts.
Variable isalnum : N → bool.

(** An invocation changes no entry but the files of its bundles and,
    where it raises, the file whose write raised. *)
Lemma combine_frame_outside max_words logger w res w' p :
  combine_markdown_files isalnum max_words logger w = (res, w') →
  p ∉ packed_path
        <$> seq 0 (length (bundles isalnum max_words logger w)
                   + (if res is Some _ then 0 else 1)) →
  w_dir w' !! p = w_dir w !! p.
Proof.
  intros Hrun Hp. destruct res as [r|].
  - rewrite Nat.add_0_r in Hp. apply (combine_frame_returned _ _ _ _ _ _ _ Hrun).
    apply combine_spec in Hrun. by destruct Hrun as [_ _ -> _ _ _ _ _].
  - rewrite seq_snoc, fmap_app, elem_of_app in Hp.
    apply combine_raise_spec in Hrun.
    destruct Hrun as [Hidx _ _ (ms & rest & _ & _ & _ & ->) _ _].
    rewrite failed_write_lookup_ne.
    + apply written_lookup_notin; [done|]. tauto.
    + intros ->. apply Hp. right. by apply list_elem_of_singleton.
Qed.

(** Whether the next file can be opened is not changed by an invocation
    that raises. *)
Lemma openable_after_raise max_words logger w w' :
  combine_markdown_files isalnum max_words logger w = (None, w') →
  let n := length (bundles isalnum max_words logger w) in
  openable (w_dir w') (packed_path n) = openable (w_dir w) (packed_path n).
Proof.
  intros Hrun n. apply combine_raise_spec in Hrun.
  destruct Hrun as [Hidx _ _ (ms & rest & _ & _ & _ & ->) _ _]. fold n.
  rewrite openable_failed_write. unfold openable.
  by rewrite written_lookup_next.
Qed.

(** The bundles that get written are the same when the directory an
    invocation has left is packed again. *)
Lemma written_prefix_again max_words logger w res w' :
  combine_markdown_files isalnum max_words logger w = (res, w') →
  written_prefix (w_dir w')
    (greedy isalnum max_words (w_dir w) (sorted_inputs (w_dir w)))
  = bundles isalnum max_words logger w.
Proof.
  intros Hrun.
  set (bs := bundles isalnum max_words logger w).
  set (G := greedy isalnum max_words (w_dir w) (sorted_inputs (w_dir w))).
  destruct (bundles_greedy isalnum max_words logger w) as [Hbs Hsome].
  fold bs G in Hbs, Hsome. rewrite Hrun in Hsome. simpl in Hsome.
  destruct (bundles_spec isalnum max_words logger w)
    as (Hidx & _ & Hwr & _ & _). fold bs in Hidx, Hwr.
  destruct (greedy_wf isalnum max_words (w_dir w) (sorted_inputs (w_dir w)))
    as [HGidx HGin]. fold G in HGidx, HGin.
  assert (∀ b, b ∈ G → ∀ f, f ∈ members b → w_dir w' !! f = w_dir w !! f)
    as Hframe.
  { intros b Hb f Hf. apply (combine_frame _ _ _ _ _ _ _ Hrun).
    intros k. apply (discover_not_packed (w_dir w)).
    apply elem_of_sorted_inputs. by eapply HGin. }
  assert (∀ b, b ∈ bs → b ∈ G) as Hsub.
  { intros b Hb. destruct (written_prefix_prefix (w_dir w) G) as [rest ->].
    rewrite <- Hbs. apply elem_of_app. by left. }
  assert (Forall (λ b, writable (w_dir w') b = true) bs) as Hwr'.
  { apply Forall_forall. intros b Hb.
    rewrite Forall_forall in Hwr. specialize (Hwr b Hb).
    rewrite <- Hwr. apply writable_ext; [|by apply Hframe, Hsub].
    apply list_elem_of_lookup_1 in Hb as [k Hk].
    rewrite (bundle_index _ _ _ Hidx Hk).
    unfold writable, write_ok, bundle_file in Hwr. simpl in Hwr.
    apply andb_true_iff in Hwr as [Hop _].
    rewrite (bundle_index _ _ _ Hidx Hk) in Hop. rewrite Hop.
    unfold openable.
    by rewrite (combine_written _ _ _ _ _ _ _ _ Hrun Hk). }
  destruct (written_prefix_split (w_dir w) G) as [Hall|(b & rest & HG & Hb)];
    rewrite <- Hbs in *.
  - rewrite <- Hall. by apply written_prefix_all.
  - rewrite HG. apply written_prefix_stop; [done|].
    assert (index b = length bs) as Hib.
    { apply (bundle_index G); [done|]. rewrite HG.
      by rewrite list_lookup_middle. }
    assert (b ∈ G) as HbG.
    { rewrite HG. apply elem_of_app. right. apply elem_of_cons. by left. }
    rewrite <- Hb. apply writable_ext; [|by apply Hframe].
    rewrite Hib. destruct res as [r|].
    + assert (bs = G) as Heq by (apply Hsome; eauto).
      apply (f_equal length) in HG. rewrite <- Heq, length_app in HG.
      simpl in HG. lia.
    + exact (openable_after_raise _ _ _ _ Hrun).
Qed.

(** So the bundles and the outcome of the second invocation are those of
    the first. *)
Lemma bundles_again max_words log1 log2 w res1 w1 :
  combine_markdown_files isalnum max_words log1 w = (res1, w1) →
  bundles isalnum max_words log2 w1 = bundles isalnum max_words log1 w
  ∧ (is_Some (combine_markdown_files isalnum max_words log2 w1).1
     ↔ is_Some res1).
Proof.
  intros Hrun.
  assert (greedy isalnum max_words (w_dir w1) (sorted_inputs (w_dir w1))
          = greedy isalnum max_words (w_dir w) (sorted_inputs (w_dir w)))
    as HG.
  { rewrite (combine_inputs _ _ _ _ _ _ Hrun). apply greedy_ext.
    intros f Hf. apply (combine_frame _ _ _ _ _ _ _ Hrun).
    intros k. apply (discover_not_packed (w_dir w)).
    by apply elem_of_sorted_inputs. }
  destruct (bundles_greedy isalnum max_words log2 w1) as [Hbs2 Hsome2].
  destruct (bundles_greedy isalnum max_words log1 w) as [_ Hsome1].
  rewrite Hrun in Hsome1. simpl in Hsome1.
  rewrite HG in Hbs2, Hsome2.
  rewrite (written_prefix_again _ _ _ _ _ Hrun) in Hbs2.
  split; [done|]. by rewrite Hsome2, Hbs2, Hsome1.
Qed.
End DirectoryFacts.

(** X4. An invocation changes no entry of the directory other than the
    bundle files it returns or, where it raises, those it has written and
    the one whose write raised: every other entry, the source files among
    them, is as before, and no entry is removed. *)
Theorem only_bundle_files_change isalnum max_words logger w res w' :
  combine_markdown_files isalnum max_words logger w = (res, w') →
  (∀ r p, res = Some r → p ∉ r → w_dir w' !! p = w_dir w !! p)
  ∧ (∀ p, res = None →
       p ∉ packed_path
             <$> seq 0 (S (length (bundles isalnum max_words logger w))) →
       w_dir w' !! p = w_dir w !! p)
  ∧ (∀ f, f ∈ discover (w_dir w) → w_dir w' !! f = w_dir w !! f)
  ∧ (∀ p, is_Some (w_dir w !! p) → is_Some (w_dir w' !! p)).
Proof.
  intros Hrun. split; [|split; [|split]].
  - intros r p -> Hp. by eapply combine_frame_returned.
  - intros p -> Hp. apply (combine_frame_outside _ _ _ _ _ _ _ Hrun).
    by rewrite Nat.add_1_r.
  - intros f Hf. apply (combine_frame _ _ _ _ _ _ _ Hrun).
    intros k. by apply (discover_not_packed (w_dir w)).
  - intros p. by eapply combine_keeps.
Qed.

Lemma only_bundle_files_change_witness :
  let w := World example_dir [] in
  let res := combine_markdown_files ascii_alnum 4 true w in
  (∀ r p, res.1 = Some r → p ∉ r → w_dir res.2 !! p = example_dir !! p)
  ∧ (∀ p, res.1 = None →
       p ∉ packed_path
             <$> seq 0 (S (length (bundles ascii_alnum 4 true w))) →
       w_dir res.2 !! p = example_dir !! p)
  ∧ (∀ f, f ∈ discover example_dir → w_dir res.2 !! f = example_dir !! f)
  ∧ (∀ p, is_Some (example_dir !! p) → is_Some (w_dir res.2 !! p)).
Proof.
  intros w res.
  apply (only_bundle_files_change ascii_alnum 4 true w res.1 res.2).
  apply surjective_pairing.
Defined.

(** X5. Packing again with the same threshold changes nothing: the second
    invocation returns the same paths, or raises as the first did, has the
    same bundles and leaves the directory exactly as the first left it. *)
Theorem repacking_changes_nothing isalnum max_words log1 log2
    w res1 w1 res2 w2 :
  combine_markdown_files isalnum max_words log1 w = (res1, w1) →
  combine_markdown_files isalnum max_words log2 w1 = (res2, w2) →
  res2 = res1
  ∧ bundles isalnum max_words log2 w1 = bundles isalnum max_words log1 w
  ∧ w_dir w2 = w_dir w1.
Proof.
  intros Hrun1 Hrun2.
  destruct (bundles_again isalnum max_words log1 log2 w res1 w1 Hrun1)
    as [Hbs Hsome]. rewrite Hrun2 in Hsome. simpl in Hsome.
  set (bs := bundles isalnum max_words log1 w) in *.
  assert (∀ k b, bs !! k = Some b →
            w_dir w2 !! packed_path k = w_dir w1 !! packed_path k) as Hfile.
  { intros k b Hb.
    rewrite (combine_written _ _ _ _ _ _ k b Hrun2) by by rewrite Hbs.
    rewrite (combine_written _ _ _ _ _ _ k b Hrun1) by done.
    do 2 f_equal. apply bundle_text_ext. intros f Hf.
    apply (combine_frame _ _ _ _ _ _ _ Hrun1). intros k'.
    apply (member_not_packed isalnum max_words log1 w b); [|done].
    by eapply list_elem_of_lookup_2. }
  destruct res1 as [r1|], res2 as [r2|].
  - pose proof (combine_spec _ _ _ _ _ _ Hrun1) as [_ _ Hr1 _ _ _ _ _].
    pose proof (combine_spec _ _ _ _ _ _ Hrun2) as [_ _ Hr2 _ _ _ _ _].
    rewrite Hbs in Hr2. fold bs in Hr1. split; [by rewrite Hr1, Hr2|].
    split; [done|]. apply map_eq. intros p.
    destruct (decide (p ∈ r2)) as [Hin|Hout].
    + rewrite Hr2 in Hin.
      apply list_elem_of_fmap in Hin as (k & -> & Hk). apply elem_of_seq in Hk.
      destruct (lookup_lt_is_Some_2 bs k) as [b Hb]; [lia|]. by eapply Hfile.
    + by apply (combine_frame_returned _ _ _ _ _ _ _ Hrun2).
  - destruct (proj2 Hsome) as [? [=]]. eauto.
  - destruct (proj1 Hsome) as [? [=]]. eauto.
  - split; [done|]. split; [done|]. apply map_eq. intros p.
    destruct (decide (p ∈ packed_path <$> seq 0 (length bs + 1)))
      as [Hin|Hout].
    + apply list_elem_of_fmap in Hin as (k & -> & Hk). apply elem_of_seq in Hk.
      destruct (decide (k < length bs)%nat) as [Hlt|Hge].
      * destruct (lookup_lt_is_Some_2 bs k) as [b Hb]; [lia|]. by eapply Hfile.
      * assert (k = length bs) as -> by lia.
        pose proof (openable_after_raise _ _ _ _ _ Hrun1) as Hop1.
        pose proof (openable_after_raise _ _ _ _ _ Hrun2) as Hop2.
        simpl in Hop1, Hop2. rewrite Hbs in Hop2. fold bs in Hop1, Hop2.
        pose proof (combine_raise_spec _ _ _ _ _ Hrun1)
          as [Hidx1 _ _ (ms1 & rest1 & _ & _ & _ & Hd1) _ _].
        pose proof (combine_raise_spec _ _ _ _ _ Hrun2)
          as [Hidx2 _ _ (ms2 & rest2 & _ & _ & _ & Hd2) _ _].
        rewrite Hbs in Hd2, Hidx2. fold bs in Hd1, Hidx1, Hd2, Hidx2.
        rewrite Hd2, failed_write_lookup.
        assert (openable (written (w_dir w1) bs) (packed_path (length bs))
                = openable (w_dir w1) (packed_path (length bs))) as ->.
        { unfold openable. by rewrite written_lookup_next. }
        rewrite written_lookup_next by done.
        destruct (openable (w_dir w1) (packed_path (length bs))) eqn:Hop;
          [|done].
        rewrite Hd1, failed_write_lookup.
        assert (openable (written (w_dir w) bs) (packed_path (length bs))
                = openable (w_dir w) (packed_path (length bs))) as ->.
        { unfold openable. by rewrite written_lookup_next. }
        by rewrite <- Hop1.
    + rewrite (combine_frame_outside _ _ _ _ _ _ _ Hrun2); [done|].
      by rewrite Hbs.
Qed.

Lemma repacking_changes_nothing_witness :
  let run1 := combine_markdown_files ascii_alnum 4 true
                (World example_dir []) in
  let run2 := combine_markdown_files ascii_alnum 4 false run1.2 in
  run2.1 = run1.1
  ∧ bundles ascii_alnum 4 false run1.2
    = bundles ascii_alnum 4 true (World example_dir [])
  ∧ w_dir run2.2 = w_dir run1.2.
Proof.
  intros run1 run2.
  apply (repacking_changes_nothing ascii_alnum 4 true false
           (World example_dir []) run1.1 run1.2 run2.1 run2.2).
  - apply surjective_pairing.
  - apply surjective_pairing.
Defined.

(** The same where the invocations raise: in [blocked_dir] the first
    bundle cannot be written, and the second invocation raises as the
    first did and leaves the directory as it was. *)
Example repacking_raise_example :
  let run1 := combine_markdown_files ascii_alnum 4 true
                (World blocked_dir []) in
  let run2 := combine_markdown_files ascii_alnum 4 false run1.2 in
  run1.1 = None ∧ run2.1 = None ∧ w_dir run2.2 = blocked_dir.
Proof. by vm_compute. Qed.

(** X6. The numbering restarts at 0 in every invocation and nothing is
    removed: where a later invocation has fewer bundles than an earlier
    one, the bundle files of the earlier one with the higher indices stay
    in the directory with their old text, and those with the lower indices
    are overwritten. Where the later invocation raises, this is so for
    every file but the one whose write raised. *)
Theorem surplus_bundle_files_stay isalnum max1 log1 max2 log2
    w res1 w1 res2 w2 k b1 :
  combine_markdown_files isalnum max1 log1 w = (res1, w1) →
  combine_markdown_files isalnum max2 log2 w1 = (res2, w2) →
  bundles isalnum max1 log1 w !! k = Some b1 →
  (res2 = None → k ≠ length (bundles isalnum max2 log2 w1)) →
  match bundles isalnum max2 log2 w1 !! k with
  | None =>
      w_dir w2 !! packed_path k
      = Some (File (bundle_text (w_dir w) (members b1)))
  | Some b2 =>
      w_dir w2 !! packed_path k
      = Some (File (bundle_text (w_dir w) (members b2)))
  end.
Proof.
  intros Hrun1 Hrun2 Hb1 Hk.
  destruct (bundles isalnum max2 log2 w1 !! k) as [b2|] eqn:Hb2.
  - rewrite (combine_written _ _ _ _ _ _ _ _ Hrun2 Hb2). do 2 f_equal.
    apply bundle_text_ext. intros f Hf.
    apply (combine_frame _ _ _ _ _ _ _ Hrun1). intros k'.
    apply (member_not_packed isalnum max2 log2 w1 b2); [|done].
    by eapply list_elem_of_lookup_2.
  - rewrite (combine_frame_outside _ _ _ _ _ _ _ Hrun2).
    + exact (combine_written isalnum max1 log1 w res1 w1 k b1 Hrun1 Hb1).
    + intros (k' & Hk' & Hin)%list_elem_of_fmap.
      apply packed_path_inj in Hk' as <-. apply elem_of_seq in Hin.
      apply lookup_ge_None in Hb2. destruct res2; [lia|].
      specialize (Hk eq_refl). lia.
Qed.

Lemma surplus_bundle_files_stay_witness :
  let run1 := combine_markdown_files ascii_alnum 4 true
                (World example_dir []) in
  let run2 := combine_markdown_files ascii_alnum 9 false run1.2 in
  match bundles ascii_alnum 9 false run1.2 !! 1%nat with
  | None =>
      w_dir run2.2 !! packed_path 1
      = Some (File (bundle_text example_dir [lit "b.md"; lit "d.md"]))
  | Some b2 =>
      w_dir run2.2 !! packed_path 1
      = Some (File (bundle_text example_dir (members b2)))
  end.
Proof.
  intros run1 run2.
  apply (surplus_bundle_files_stay ascii_alnum 4 true 9 false
           (World example_dir []) run1.1 run1.2 run2.1 run2.2 1
           (Bundle 1 [lit "b.md"; lit "d.md"] 4)).
  - apply surjective_pairing.
  - apply surjective_pairing.
  - vm_compute. reflexivity.
  - vm_compute. congruence.
Defined.

(** On the example: packed with a threshold of 4 and then of 9, the
    directory holds the one bundle of the second invocation as
    [packed_0.md] and still the second bundle of the first as
    [packed_1.md]. *)
Example surplus_example :
  let run1 := combine_markdown_files ascii_alnum 4 true
                (World example_dir []) in
  let run2 := combine_markdown_files ascii_alnum 9 false run1.2 in
  run2.1 = Some [lit "packed_0.md"]
  ∧ w_dir run2.2 !! lit "packed_1.md" = w_dir run1.2 !! lit "packed_1.md"
  ∧ is_Some (w_dir run2.2 !! lit "packed_1.md").
Proof. vm_compute. eauto. Qed.

(** ** How many bundles *)

Lemma length_concat_nonempty {A} (ls : list (list A)) :
  Forall (λ l, l ≠ []) ls → (length ls ≤ length (concat ls))%nat.
Proof.
  induction 1 as [|l ls Hl _ IH]; simpl; [lia|].
  rewrite length_app. destruct l; [done|]. simpl. lia.
Qed.

(** X7. An invocation has at most one bundle for each readable input.
    Where no discovered file can be read it returns no path. Where it
    returns, it returns one path for each bundle, and none exactly when no
    discovered file can be read; it then leaves the directory as it is and
    writes nothing. *)
Theorem result_counts isalnum max_words logger w res w' :
  combine_markdown_files isalnum max_words logger w = (res, w') →
  let bs := bundles isalnum max_words logger w in
  (length bs
   ≤ length (filter (λ f, readable (w_dir w) f) (discover (w_dir w))))%nat
  ∧ ((∀ f, f ∈ discover (w_dir w) → readable (w_dir w) f = false) →
     res = Some [])
  ∧ ∀ r, res = Some r →
      length r = length bs
      ∧ (r = [] ↔ ∀ f, f ∈ discover (w_dir w) → readable (w_dir w) f = false)
      ∧ (r = [] →
           w_dir w' = w_dir w
           ∧ ∀ evs, w_trace w' = w_trace w ++ evs → writes_of evs = []).
Proof.
  intros Hrun bs.
  assert (∀ r, res = Some r →
      length r = length bs
      ∧ (r = [] ↔ ∀ f, f ∈ discover (w_dir w) → readable (w_dir w) f = false)
      ∧ (r = [] →
           w_dir w' = w_dir w
           ∧ ∀ evs, w_trace w' = w_trace w ++ evs → writes_of evs = []))
    as Hret.
  { intros r ->. apply combine_spec in Hrun. fold bs in Hrun.
    destruct Hrun as [Hdir Hidx Hr Hmem Hbs _ (evs & Htr & [_ Hw _ _ _]) _].
    assert (length r = length bs) as Hlen
      by by rewrite Hr, length_fmap, length_seq.
    split; [done|]. split.
    - split.
      + intros ->. destruct bs as [|b bs']; [|done]. simpl in Hmem.
        intros f Hf. apply elem_of_sorted_inputs in Hf.
        destruct (readable (w_dir w) f) eqn:Hrd; [|done].
        assert (f ∈ filter (λ f, readable (w_dir w) f)
                      (sorted_inputs (w_dir w)))
          as Hin by (apply list_elem_of_filter; by rewrite Hrd).
        rewrite <- Hmem in Hin. by apply elem_of_nil in Hin.
      + intros Hall. destruct bs as [|b bs'] eqn:Hbs'; [by rewrite Hr|].
        apply Forall_cons in Hbs as [[_ Hb] _].
        destruct (members b) as [|m ms] eqn:Hm; [done|].
        assert (m ∈ filter (λ f, readable (w_dir w) f)
                      (sorted_inputs (w_dir w))) as Hin.
        { rewrite <- Hmem. simpl. rewrite Hm. apply elem_of_cons. by left. }
        apply list_elem_of_filter in Hin as [Hrd Hin].
        apply elem_of_sorted_inputs in Hin. rewrite (Hall m Hin) in Hrd. done.
    - intros ->. destruct bs as [|b bs']; [|done]. split; [done|].
      intros evs' Htr'. rewrite Htr in Htr'.
      by apply (inj (app _)) in Htr' as <-. }
  split; [|split; [|done]].
  - destruct (bundles_spec isalnum max_words logger w)
      as (_ & Hbs & _ & (rest & Hmem) & _). fold bs in Hbs, Hmem.
    assert (Forall (λ l : list str, l ≠ []) (members <$> bs)) as Hne.
    { apply Forall_fmap. eapply Forall_impl; [exact Hbs|]. by intros b [_ Hb]. }
    apply length_concat_nonempty in Hne. rewrite length_fmap in Hne.
    rewrite <- (sorted_inputs_perm (w_dir w)), <- Hmem, length_app. lia.
  - intros Hall. destruct res as [r|].
    + f_equal. by apply (Hret r).
    + apply combine_raise_spec in Hrun.
      destruct Hrun as [_ _ _ (ms & rest & Hms & Hmem & _) _ _].
      destruct ms as [|m ms]; [done|].
      assert (m ∈ filter (λ f, readable (w_dir w) f)
                    (sorted_inputs (w_dir w))) as Hin.
      { rewrite <- Hmem. apply elem_of_app. right. apply elem_of_cons.
        by left. }
      apply list_elem_of_filter in Hin as [Hrd Hin].
      apply elem_of_sorted_inputs in Hin. rewrite (Hall m Hin) in Hrd. done.
Qed.

Lemma result_counts_witness :
  let res := combine_markdown_files ascii_alnum 4 true (World example_dir []) in
  let bs := bundles ascii_alnum 4 true (World example_dir []) in
  (length bs
   ≤ length (filter (λ f, readable example_dir f) (discover example_dir)))%nat
  ∧ ((∀ f, f ∈ discover example_dir → readable example_dir f = false) →
     res.1 = Some [])
  ∧ ∀ r, res.1 = Some r →
      length r = length bs
      ∧ (r = [] ↔ ∀ f, f ∈ discover example_dir → readable example_dir f = false)
      ∧ (r = [] →
           w_dir res.2 = example_dir
           ∧ ∀ evs, w_trace res.2 = [] ++ evs → writes_of evs = []).
Proof.
  intros res.
  apply (result_counts ascii_alnum 4 true (World example_dir []) res.1 res.2).
  apply surjective_pairing.
Defined.

(** X8. With a threshold of zero or less, and every readable input having
    at least one word, every bundle has exactly one member: each readable
    file is packed on its own. *)
Theorem nonpositive_threshold_one_file_per_bundle
    isalnum max_words logger w b :
  max_words ≤ 0 →
  no_blank isalnum (w_dir w) (discover (w_dir w)) →
  b ∈ bundles isalnum max_words logger w →
  ∃ f, members b = [f].
Proof.
  intros Hmax Hnb Hb.
  destruct (bundles_spec isalnum max_words logger w)
    as (_ & Hbs & _ & _ & Hone).
  specialize (Hone ltac:(intros f Hf; apply Hnb; by apply elem_of_sorted_inputs)).
  rewrite Forall_forall in Hbs. destruct (Hbs b Hb) as [Htotal Hne].
  destruct (members b) as [|m [|m' ms]] eqn:Hm; [done|by exists m|].
  exfalso. specialize (Hone b Hb). rewrite Hm in Hone.
  specialize (Hone ltac:(simpl; lia)).
  destruct (member_input isalnum max_words logger w b m Hb) as [Hin Hrd].
  { rewrite Hm. apply elem_of_cons. by left. }
  specialize (Hnb m Hin Hrd).
  pose proof (sum_words_nonneg isalnum (w_dir w) (m' :: ms)) as Hrest.
  rewrite Htotal in Hone. unfold sum_words in Hone, Hrest. simpl in *. lia.
Qed.

Lemma nonpositive_threshold_one_file_per_bundle_witness :
  ∃ f, members (Bundle 1 [lit "b.md"] 3) = [f].
Proof.
  apply (nonpositive_threshold_one_file_per_bundle ascii_alnum 0 true
           (World example_dir []) (Bundle 1 [lit "b.md"] 3)).
  - lia.
  - refine (Forall_discover
              (λ f, readable example_dir f = true
                    → words_of ascii_alnum example_dir f > 0)
              example_dir [lit "a.md"; lit "b.md"; lit "c.md"; lit "d.md"] _ _).
    + vm_compute. reflexivity.
    + repeat (apply Forall_cons; split; [vm_compute; congruence|]).
      constructor.
  - vm_compute. repeat constructor.
Defined.

(** ** The word count of a bundle file *)

Section BundleFileWords.
Variable isalnum : N → bool.
(** The characters of the headings and of the delimiter, line feed, space,
    [#] and [-], are no word characters. *)
Hypothesis Hmarks : ∀ c, c ∈ [10; 32; 35; 45]%N → isalnum c = false.

Lemma mark_not_word c : c ∈ [10; 32; 35; 45]%N → is_word isalnum c = false.
Proof.
  intros Hc. unfold is_word. rewrite (Hmarks c Hc). simpl.
  apply bool_decide_eq_false_2. intros ->.
  rewrite !elem_of_cons, elem_of_nil in Hc. naive_solver.
Qed.

Lemma run_starts_section f text :
  run_starts isalnum false (section_of f text)
  = (run_starts isalnum false (stem f) + run_starts isalnum false text)%nat.
Proof.
  unfold section_of. change (lit "## ") with [35; 35; 32]%N. simpl.
  rewrite !mark_not_word by (rewrite !elem_of_cons; tauto). simpl.
  rewrite run_starts_sep by (apply mark_not_word; rewrite !elem_of_cons; tauto).
  simpl. by rewrite mark_not_word by (rewrite !elem_of_cons; tauto).
Qed.

Lemma run_starts_marks prev (ms b : str) :
  Forall (λ c, c ∈ [10; 32; 35; 45]%N) ms → ms ≠ [] →
  run_starts isalnum prev (ms ++ b) = run_starts isalnum false b.
Proof.
  intros Hms. revert prev. induction Hms as [|c ms Hc Hms IH]; [done|].
  intros prev _. simpl. rewrite (mark_not_word c Hc). simpl.
  destruct ms as [|c' ms]; [done|]. by apply IH.
Qed.

Lemma run_starts_join (parts : list str) :
  run_starts isalnum false (join delimiter parts)
  = foldr (λ p acc, (run_starts isalnum false p + acc)%nat) O parts.
Proof.
  induction parts as [|p [|q parts] IH]; [done|simpl; lia|].
  assert (join delimiter (p :: q :: parts)
          = p ++ 10%N :: ([10; 45; 45; 45; 10; 10]%N
                          ++ join delimiter (q :: parts))) as -> by done.
  rewrite run_starts_sep by (apply mark_not_word; rewrite !elem_of_cons; tauto).
  rewrite run_starts_marks, IH; [done| |done].
  repeat (apply Forall_cons; split; [rewrite !elem_of_cons; tauto|]).
  constructor.
Qed.

Lemma words_of_text d f :
  words_of isalnum d f = word_count isalnum (text_of d f).
Proof.
  unfold words_of, text_of, word_count.
  destruct (d !! f) as [[]|]; try done.
  all: by rewrite length_re_findall, findall_from_length.
Qed.

Lemma word_count_bundle_text d ms :
  word_count isalnum (bundle_text d ms)
  = sum_words isalnum d ms + heading_words isalnum ms.
Proof.
  rewrite word_count_run_starts. unfold bundle_text.
  rewrite run_starts_join. unfold sum_words, heading_words.
  induction ms as [|m ms IH]; [done|].
  rewrite fmap_cons. cbn [foldr].
  rewrite run_starts_section, words_of_text, !word_count_run_starts. lia.
Qed.
End BundleFileWords.

(** X9. The word count that [count_words] gives for a bundle file, which
    [main] reports for each of them, is the total of the bundle plus the
    words of its headings, the stems of its members. So it is at least the
    total, and the file can count more than [max_words] words where the
    total does not. *)
Theorem bundle_file_word_count isalnum max_words logger w res w' k b :
  (∀ c, c ∈ [10; 32; 35; 45]%N → isalnum c = false) →
  combine_markdown_files isalnum max_words logger w = (res, w') →
  bundles isalnum max_words logger w !! k = Some b →
  (count_words isalnum (packed_path k) w').1
  = total_words b + heading_words isalnum (members b)
  ∧ total_words b ≤ (count_words isalnum (packed_path k) w').1.
Proof.
  intros Hmarks Hrun Hb.
  assert ((count_words isalnum (packed_path k) w').1
          = total_words b + heading_words isalnum (members b)) as ->.
  { rewrite count_words_eq. simpl. rewrite words_of_text. unfold text_of.
    rewrite (combine_written _ _ _ _ _ _ _ _ Hrun Hb).
    rewrite (word_count_bundle_text isalnum Hmarks).
    destruct (bundles_spec isalnum max_words logger w) as (_ & Hbs & _).
    rewrite Forall_forall in Hbs.
    destruct (Hbs b (list_elem_of_lookup_2 _ _ _ Hb)) as [-> _]. done. }
  split; [done|].
  assert (∀ ms, 0 ≤ heading_words isalnum ms) as Hpos.
  { induction ms as [|m ms IH]; simpl; [lia|]. unfold word_count. lia. }
  specialize (Hpos (members b)). lia.
Qed.

Lemma bundle_file_word_count_witness :
  let res := combine_markdown_files ascii_alnum 4 true (World example_dir []) in
  let b := Bundle 1 [lit "b.md"; lit "d.md"] 4 in
  (count_words ascii_alnum (packed_path 1) res.2).1
  = total_words b + heading_words ascii_alnum (members b)
  ∧ total_words b ≤ (count_words ascii_alnum (packed_path 1) res.2).1.
Proof.
  intros res b.
  apply (bundle_file_word_count ascii_alnum 4 true (World example_dir [])
           res.1 res.2 1 b).
  - intros c Hc. rewrite !elem_of_cons, elem_of_nil in Hc.
    destruct Hc as [->|[->|[->|[->|[]]]]]; reflexivity.
  - apply surjective_pairing.
  - vm_compute. reflexivity.
Defined.

(** On the example the second bundle has a total of 4 words, within the
    threshold of 4, and its file counts 6 words: the headings [b] and [d]
    are counted too. *)
Example bundle_file_word_count_example :
  let res := combine_markdown_files ascii_alnum 4 true (World example_dir []) in
  (count_words ascii_alnum (lit "packed_1.md") res.2).1 = 6.
Proof. vm_compute. reflexivity. Qed.

(** ** The converter adapter *)

Lemma stem_suffix name : stem name ++ suffix name = name.
Proof.
  unfold stem, suffix. destruct (rfind 46 name) as [i|]; [|by rewrite app_nil_r].
  case_bool_decide; [apply take_drop | by rewrite app_nil_r].
Qed.

Lemma rfind_None_inv c s : rfind c s = None → c ∉ s.
Proof.
  induction s as [|x s IH]; simpl; [intros _; apply not_elem_of_nil|].
  destruct (rfind c s); [done|]. case_bool_decide; [done|]. intros _.
  rewrite not_elem_of_cons. split; [congruence | by apply IH].
Qed.

Lemma rfind_Some c s i :
  rfind c s = Some i →
  s = take i s ++ c :: drop (S i) s ∧ c ∉ drop (S i) s.
Proof.
  revert i. induction s as [|x s IH]; intros i; simpl; [done|].
  destruct (rfind c s) as [j|] eqn:E.
  - intros [= <-]. destruct (IH j eq_refl) as [H1 H2]. simpl.
    split; [by f_equal | done].
  - case_bool_decide; [|done]. intros [= <-]. subst x. simpl. rewrite drop_0.
    split; [done | by apply rfind_None_inv].
Qed.

Lemma cwrite_eq p t cw :
  cwrite p t cw
  = if write_ok (c_out cw) p t then
      (true, CWorld (<[p := File t]> (c_out cw)) (c_trace cw ++ [CvWrite p t]))
    else
      (false, CWorld (failed_write (c_out cw) p)
                     (c_trace cw ++ [CvWriteError p (openable (c_out cw) p)])).
Proof.
  unfold cwrite, write_ok, failed_write, openable, cemit.
  by destruct (c_out cw !! p) as [[t'|]|] eqn:Hp; destruct (encodable t).
Qed.

(** A write that raised, once more: nothing changes. *)
Lemma failed_write_idemp (d : gmap str entry) p :
  failed_write (failed_write d p) p = failed_write d p.
Proof.
  unfold failed_write at 1. rewrite openable_failed_write.
  destruct (openable d p) eqn:Hop; [|done].
  unfold failed_write. rewrite Hop. apply insert_insert_eq.
Qed.

Lemma insert_failed_write (d : gmap str entry) p e :
  <[p := e]> (failed_write d p) = <[p := e]> d.
Proof.
  unfold failed_write. destruct (openable d p); [apply insert_insert_eq|done].
Qed.

Lemma write_ok_failed_write d p t :
  write_ok (failed_write d p) p t = write_ok d p t.
Proof. apply write_ok_ext, openable_failed_write. Qed.

Lemma pass_fails_failed_write d p c :
  pass_fails (failed_write d p) p c = pass_fails d p c.
Proof.
  unfold pass_fails. destruct (markdown_of c); [|done].
  by rewrite write_ok_failed_write.
Qed.

Lemma readable_failed_write d p q :
  readable d q = true → readable (failed_write d p) q = true.
Proof.
  unfold readable. destruct (decide (q = p)) as [->|Hne].
  - rewrite failed_write_lookup. unfold openable.
    by destruct (d !! p) as [[]|].
  - by rewrite failed_write_lookup_ne.
Qed.

Lemma is_Some_failed_write (d : gmap str entry) p q :
  is_Some (d !! q) → is_Some (failed_write d p !! q).
Proof.
  destruct (decide (q = p)) as [->|Hne].
  - rewrite failed_write_lookup. destruct (openable d p); eauto.
  - by rewrite failed_write_lookup_ne.
Qed.

Lemma fails_pass_fails d p c : fails c = true → pass_fails d p c = true.
Proof. unfold pass_fails. by destruct c. Qed.

Lemma fails_markdown_of c md : fails c = true → markdown_of c ≠ Some md.
Proof. by destruct c. Qed.

Section RetryFacts.
Variable lower : str → str.
Variable engine : str → bool → nat → conversion.
Variable sleep_limit : Z.
Variables (pipeline_options : bool) (max_retries : Z).
Variables (file_path output_file : str).

Local Abbreviation opts := (with_options lower pipeline_options file_path).
Local Abbreviation loop :=
  (retry_loop lower engine sleep_limit pipeline_options max_retries
     file_path output_file).
Local Abbreviation pass := (engine file_path opts).
Local Abbreviation try_pass :=
  (attempt lower engine pipeline_options max_retries file_path output_file).

Lemma retry_loop_eq retries retry_delay cw :
  loop retries retry_delay cw =
  if decide (Z.of_nat retries < max_retries) then
    match try_pass retries cw with
    | (true, cw1) => (Returned (Some output_file), cw1)
    | (false, cw1) =>
        match after_failure sleep_limit max_retries (S retries) retry_delay
                cw1 with
        | Some (d, cw2) => loop (S retries) d cw2
        | None => (SleepRaised, cemit (CvLog (MsgRetrying retry_delay)) cw1)
        end
    end
  else (Returned None, cemit (CvLog (MsgGaveUp max_retries)) cw).
Proof.
  simp retry_loop.
  destruct (decide (Z.of_nat retries < max_retries)); simpl; [|done].
  destruct (try_pass retries cw) as [[] cw1]; simpl; [done|].
  by destruct (after_failure _ _ _ _ _) as [[d cw2]|].
Qed.

(** One pass through the [try] block: the engine is asked once; the pass
    returns exactly when the engine gives markdown that can be written,
    and then the output file holds it; a write that raises may have emptied
    the output file; nothing else changes. *)
Lemma attempt_spec j cw :
  ∃ evs d',
    try_pass j cw
    = (negb (pass_fails (c_out cw) output_file (pass j)),
       CWorld d' (c_trace cw ++ evs))
    ∧ converts_of evs = [(file_path, opts)]
    ∧ sleeps_of evs = []
    ∧ match markdown_of (pass j) with
      | Some md =>
          if write_ok (c_out cw) output_file md then
            d' = <[output_file := File md]> (c_out cw)
            ∧ cwrites_of evs = [(output_file, md)]
            ∧ touched_of evs = [output_file]
          else
            d' = failed_write (c_out cw) output_file
            ∧ cwrites_of evs = []
            ∧ touched_of evs
              = (if openable (c_out cw) output_file then [output_file] else [])
      | None => d' = c_out cw ∧ cwrites_of evs = [] ∧ touched_of evs = []
      end.
Proof.
  unfold attempt, pass_fails.
  destruct (pass j) as [md|md| |p]; cbn [markdown_of].
  - rewrite cwrite_eq. cbn [cemit c_out c_trace].
    destruct (write_ok (c_out cw) output_file md) eqn:Hw; cbn [negb].
    + exists [CvLog MsgConverting; CvConvert file_path opts;
              CvWrite output_file md; CvLog MsgConverted],
        (<[output_file := File md]> (c_out cw)).
      split; [unfold cemit; simpl; by rewrite <- !(assoc_L (++))|]. done.
    + exists [CvLog MsgConverting; CvConvert file_path opts;
              CvWriteError output_file (openable (c_out cw) output_file);
              CvLog (MsgError (S j) max_retries)],
        (failed_write (c_out cw) output_file).
      split; [unfold cemit; simpl; by rewrite <- !(assoc_L (++))|].
      by destruct (openable (c_out cw) output_file).
  - rewrite cwrite_eq. cbn [cemit c_out c_trace].
    destruct (write_ok (c_out cw) output_file md) eqn:Hw; cbn [negb].
    + exists [CvLog MsgConverting; CvConvert file_path opts;
              CvLog MsgPartial; CvWrite output_file md],
        (<[output_file := File md]> (c_out cw)).
      split; [unfold cemit; simpl; by rewrite <- !(assoc_L (++))|]. done.
    + exists [CvLog MsgConverting; CvConvert file_path opts; CvLog MsgPartial;
              CvWriteError output_file (openable (c_out cw) output_file);
              CvLog (MsgError (S j) max_retries)],
        (failed_write (c_out cw) output_file).
      split; [unfold cemit; simpl; by rewrite <- !(assoc_L (++))|].
      by destruct (openable (c_out cw) output_file).
  - exists [CvLog MsgConverting; CvConvert file_path opts;
            CvLog (MsgFailed (S j) max_retries)],
        (c_out cw).
    split; [unfold cemit; simpl; by rewrite <- !(assoc_L (++))|]. done.
  - destruct p.
    + exists [CvLog MsgConverting; CvConvert file_path opts;
              CvLog MsgPartial; CvLog (MsgError (S j) max_retries)],
        (c_out cw).
      split; [unfold cemit; simpl; by rewrite <- !(assoc_L (++))|]. done.
    + exists [CvLog MsgConverting; CvConvert file_path opts;
              CvLog (MsgError (S j) max_retries)],
        (c_out cw).
      split; [unfold cemit; simpl; by rewrite <- !(assoc_L (++))|]. done.
Qed.

(** A pass that does not return: the engine was asked once, nothing was
    written, the output file is as it was or emptied, and the loop goes on
    after [after_failure]. *)
Lemma retry_loop_failed j d cw :
  Z.of_nat j < max_retries →
  pass_fails (c_out cw) output_file (pass j) = true →
  ∃ evs d',
    converts_of evs = [(file_path, opts)]
    ∧ sleeps_of evs = [] ∧ cwrites_of evs = []
    ∧ (d' = c_out cw
       ∨ (d' = failed_write (c_out cw) output_file
          ∧ ∃ md, markdown_of (pass j) = Some md
                  ∧ write_ok (c_out cw) output_file md = false))
    ∧ (∀ p, p ∉ touched_of evs → d' !! p = c_out cw !! p)
    ∧ loop j d cw =
      match after_failure sleep_limit max_retries (S j) d
              (CWorld d' (c_trace cw ++ evs)) with
      | Some (d2, cw3) => loop (S j) d2 cw3
      | None => (SleepRaised,
                 cemit (CvLog (MsgRetrying d)) (CWorld d' (c_trace cw ++ evs)))
      end.
Proof.
  intros Hj Hf. rewrite retry_loop_eq. rewrite decide_True by done.
  destruct (attempt_spec j cw) as (evs & d' & -> & Hc & Hs & Hm).
  rewrite Hf. cbn [negb]. exists evs, d'.
  split; [done|]. split; [done|].
  unfold pass_fails in Hf. destruct (markdown_of (pass j)) as [md|].
  - apply negb_true_iff in Hf. rewrite Hf in Hm.
    destruct Hm as (-> & Hw & Ht). split; [done|]. split; [eauto|].
    split; [|done]. intros p Hp. rewrite Ht in Hp.
    destruct (openable (c_out cw) output_file) eqn:Hop.
    + apply failed_write_lookup_ne. intros ->. apply Hp. left.
    + unfold failed_write. by rewrite Hop.
  - destruct Hm as (-> & Hw & Ht). split; [done|]. split; [by left|]. done.
Qed.

(** [n] passes that do not return, each followed by its delay. *)
Lemma retry_loop_skip n : ∀ j d cw,
  0 ≤ d → (∀ i, (i < n)%nat → d * 2 ^ Z.of_nat i ≤ sleep_limit) →
  Z.of_nat (j + n) < max_retries →
  (∀ i, (j ≤ i < j + n)%nat →
        pass_fails (c_out cw) output_file (pass i) = true) →
  ∃ evs d',
    loop j d cw = loop (j + n)%nat (d * 2 ^ Z.of_nat n)
                    (CWorld d' (c_trace cw ++ evs))
    ∧ (d' = c_out cw ∨ d' = failed_write (c_out cw) output_file)
    ∧ ((∀ i, (j ≤ i < j + n)%nat → fails (pass i) = true) → d' = c_out cw)
    ∧ converts_of evs = replicate n (file_path, opts)
    ∧ sleeps_of evs = (λ i, d * 2 ^ Z.of_nat i) <$> seq 0 n
    ∧ cwrites_of evs = [].
Proof.
  induction n as [|n IH]; intros j d cw Hd Hlim Hmax Hfail.
  - exists [], (c_out cw). rewrite Nat.add_0_r, app_nil_r. simpl.
    rewrite Z.mul_1_r. destruct cw. split; [done|]. split; [by left|]. done.
  - destruct (retry_loop_failed j d cw)
      as (evs0 & d0 & Hc0 & Hs0 & Hw0 & Hd0 & _ & ->);
      [lia | apply Hfail; lia |].
    assert (d0 = c_out cw ∨ d0 = failed_write (c_out cw) output_file) as Hd0'
      by (destruct Hd0 as [?|[? _]]; auto).
    unfold after_failure.
    rewrite bool_decide_eq_true_2 by lia.
    pose proof (Hlim 0%nat ltac:(lia)) as Hd1. simpl in Hd1.
    rewrite bool_decide_eq_false_2 by lia.
    destruct (IH (S j) (d * 2)
                (cemit (CvSleep d) (cemit (CvLog (MsgRetrying d))
                   (CWorld d0 (c_trace cw ++ evs0)))))
      as (evs & d' & -> & Hd' & Hsame & Hc & Hs & Hw).
    { lia. }
    { intros i Hi. specialize (Hlim (S i) ltac:(lia)).
      rewrite Nat2Z.inj_succ, Z.pow_succ_r in Hlim by lia. lia. }
    { lia. }
    { intros i Hi. cbn [cemit c_out].
      destruct Hd0' as [->| ->]; rewrite ?pass_fails_failed_write;
        apply Hfail; lia. }
    cbn [cemit c_out c_trace] in *.
    exists (evs0 ++ [CvLog (MsgRetrying d); CvSleep d] ++ evs), d'.
    split; [|split; [|split; [|split; [|split]]]].
    + f_equal; [lia | |].
      * rewrite Nat2Z.inj_succ, Z.pow_succ_r by lia. lia.
      * by rewrite <- !(assoc_L (++)).
    + destruct Hd0' as [->| ->], Hd' as [->| ->];
        rewrite ?failed_write_idemp; auto.
    + intros Hall. rewrite Hsame by (intros i Hi; apply Hall; lia).
      destruct Hd0 as [->|[_ (md & Hmd & _)]]; [done|].
      by destruct (fails_markdown_of (pass j) md (Hall j ltac:(lia))).
    + unfold converts_of in *. rewrite !omap_app, Hc0, Hc. done.
    + unfold sleeps_of in *. rewrite !omap_app, Hs0, Hs.
      change (seq 0 (S n)) with (0%nat :: seq 1 n).
      rewrite fmap_cons, <- (fmap_S_seq 0), <- list_fmap_compose.
      cbn [app omap list_omap]. f_equal; [simpl; lia|].
      apply list_fmap_ext. intros _ i _. cbn [compose].
      rewrite Nat2Z.inj_succ, Z.pow_succ_r by lia. lia.
    + unfold cwrites_of in *. rewrite !omap_app, Hw0, Hw. done.
Qed.

(** The loop returns at the first pass that gives markdown which can be
    written. *)
Lemma retry_loop_returns k d cw md :
  0 ≤ d → (∀ i, (i < k)%nat → d * 2 ^ Z.of_nat i ≤ sleep_limit) →
  Z.of_nat k < max_retries →
  (∀ i, (i < k)%nat → pass_fails (c_out cw) output_file (pass i) = true) →
  markdown_of (pass k) = Some md →
  write_ok (c_out cw) output_file md = true →
  ∃ evs,
    loop 0%nat d cw
    = (Returned (Some output_file),
       CWorld (<[output_file := File md]> (c_out cw)) (c_trace cw ++ evs))
    ∧ converts_of evs = replicate (S k) (file_path, opts)
    ∧ sleeps_of evs = (λ i, d * 2 ^ Z.of_nat i) <$> seq 0 k
    ∧ cwrites_of evs = [(output_file, md)].
Proof.
  intros Hd Hlim Hk Hfail Hmd Hok.
  destruct (retry_loop_skip k 0%nat d cw)
    as (evs & d' & -> & Hd' & _ & Hc & Hs & Hw);
    [done | done | simpl; lia | intros i Hi; apply Hfail; lia |].
  simpl. rewrite retry_loop_eq. rewrite decide_True by done.
  set (cw1 := CWorld d' (c_trace cw ++ evs)).
  destruct (attempt_spec k cw1) as (evs1 & d1 & -> & Hc1 & Hs1 & Hm).
  assert (write_ok d' output_file md = true) as Hok'.
  { destruct Hd' as [->| ->]; by rewrite ?write_ok_failed_write. }
  unfold pass_fails. rewrite Hmd in *. cbn [c_out cw1] in *.
  rewrite Hok' in *. cbn [negb]. destruct Hm as (-> & Hw1 & _).
  exists (evs ++ evs1). split; [|split; [|split]].
  + f_equal. f_equal.
    * destruct Hd' as [->| ->]; by rewrite ?insert_failed_write.
    * simpl. by rewrite <- !(assoc_L (++)).
  + unfold converts_of in *. rewrite omap_app, Hc, Hc1.
    by rewrite <- replicate_cons_app.
  + unfold sleeps_of in *. rewrite omap_app, Hs, Hs1. by rewrite app_nil_r.
  + unfold cwrites_of in *. rewrite omap_app, Hw, Hw1. done.
Qed.

(** The loop gives up after [max_retries] passes that do not return, and
    does not sleep after the last of them. *)
Lemma retry_loop_gives_up d cw :
  0 ≤ d →
  (∀ i : nat, Z.of_nat i + 1 < max_retries →
              d * 2 ^ Z.of_nat i ≤ sleep_limit) →
  (∀ i, Z.of_nat i < max_retries →
        pass_fails (c_out cw) output_file (pass i) = true) →
  ∃ evs d',
    loop 0%nat d cw = (Returned None, CWorld d' (c_trace cw ++ evs))
    ∧ (d' = c_out cw ∨ d' = failed_write (c_out cw) output_file)
    ∧ ((∀ i, Z.of_nat i < max_retries → fails (pass i) = true) →
       d' = c_out cw)
    ∧ converts_of evs = replicate (Z.to_nat max_retries) (file_path, opts)
    ∧ sleeps_of evs
      = (λ i, d * 2 ^ Z.of_nat i) <$> seq 0 (Z.to_nat max_retries - 1)
    ∧ cwrites_of evs = [].
Proof.
  intros Hd Hlim Hfail.
  destruct (decide (0 < max_retries)) as [Hpos|Hneg].
  - destruct (Z.to_nat max_retries) as [|n] eqn:En; [lia|].
    replace (S n - 1)%nat with n by lia.
    destruct (retry_loop_skip n 0%nat d cw)
      as (evs & d1 & -> & Hd1 & Hsame1 & Hc & Hs & Hw);
      [done | intros i Hi; apply Hlim; lia | simpl; lia
       | intros i Hi; apply Hfail; lia |].
    simpl.
    destruct (retry_loop_failed n (d * 2 ^ Z.of_nat n)
                (CWorld d1 (c_trace cw ++ evs)))
      as (evs0 & d2 & Hc0 & Hs0 & Hw0 & Hd2 & _ & ->); [lia | |].
    { cbn [c_out]. destruct Hd1 as [->| ->];
        rewrite ?pass_fails_failed_write; apply Hfail; lia. }
    unfold after_failure. rewrite bool_decide_eq_false_2 by lia.
    rewrite retry_loop_eq. rewrite decide_False by lia.
    cbn [cemit c_out c_trace] in *.
    exists (evs ++ evs0 ++ [CvLog (MsgGaveUp max_retries)]), d2.
    split; [|split; [|split; [|split; [|split]]]].
    + unfold cemit. simpl. by rewrite <- !(assoc_L (++)).
    + destruct Hd2 as [->|[-> _]]; [done|].
      destruct Hd1 as [->| ->]; rewrite ?failed_write_idemp; auto.
    + intros Hall. destruct Hd2 as [->|[_ (md & Hmd & _)]].
      * apply Hsame1. intros i Hi. apply Hall. lia.
      * by destruct (fails_markdown_of (pass n) md (Hall n ltac:(lia))).
    + unfold converts_of in *. rewrite !omap_app, Hc, Hc0. simpl.
      by rewrite <- replicate_cons_app.
    + unfold sleeps_of in *. rewrite !omap_app, Hs, Hs0. simpl.
      by rewrite app_nil_r.
    + unfold cwrites_of in *. rewrite !omap_app, Hw, Hw0. done.
  - rewrite retry_loop_eq. rewrite decide_False by (simpl; lia).
    exists [CvLog (MsgGaveUp max_retries)], (c_out cw).
    replace (Z.to_nat max_retries) with 0%nat by lia.
    split; [done|]. split; [by left|]. done.
Qed.

(** What the loop does, whatever the engine does: it asks the engine at
    most as often as passes are left; it returns a path exactly when it
    has written the markdown of one pass to the output file; where it does
    not, it has written nothing, and the directory is as it was but for
    the output file, which is emptied where a write has raised after
    opening it. No other entry changes. *)
Lemma retry_loop_sound m : ∀ j d cw,
  Z.to_nat (max_retries - Z.of_nat j) = m →
  ∃ evs n,
    c_trace (loop j d cw).2 = c_trace cw ++ evs
    ∧ converts_of evs = replicate n (file_path, opts) ∧ (n ≤ m)%nat
    ∧ (∀ p, p ∉ touched_of evs → c_out (loop j d cw).2 !! p = c_out cw !! p)
    ∧ match (loop j d cw).1 with
      | Returned (Some p) =>
          p = output_file ∧
          ∃ i md, Z.of_nat i < max_retries ∧ markdown_of (pass i) = Some md
            ∧ write_ok (c_out cw) output_file md = true
            ∧ c_out (loop j d cw).2 = <[output_file := File md]> (c_out cw)
            ∧ cwrites_of evs = [(output_file, md)]
      | _ =>
          cwrites_of evs = []
          ∧ (c_out (loop j d cw).2 = c_out cw
             ∨ (c_out (loop j d cw).2 = failed_write (c_out cw) output_file
                ∧ ∃ i md, Z.of_nat i < max_retries
                    ∧ markdown_of (pass i) = Some md
                    ∧ write_ok (c_out cw) output_file md = false))
      end.
Proof.
  induction m as [|m IH]; intros j d cw Hm.
  - rewrite retry_loop_eq. rewrite decide_False by lia.
    exists [CvLog (MsgGaveUp max_retries)], 0%nat. simpl.
    split; [done|]. split; [done|]. split; [done|]. split; [done|].
    split; [done|]. by left.
  - assert (Z.of_nat j < max_retries) as Hj by lia.
    destruct (pass_fails (c_out cw) output_file (pass j)) eqn:Hf.
    + destruct (retry_loop_failed j d cw Hj Hf)
        as (evs0 & d0 & Hc0 & Hs0 & Hw0 & Hd0 & Hfr0 & ->).
      unfold after_failure.
      set (cw1 := CWorld d0 (c_trace cw ++ evs0)).
      assert (∀ md, write_ok d0 output_file md
                    = write_ok (c_out cw) output_file md) as Hok.
      { intros md. destruct Hd0 as [->|[-> _]];
          by rewrite ?write_ok_failed_write. }
      assert (∀ d' cw3 tl,
                 c_trace cw3 = c_trace cw1 ++ tl → c_out cw3 = d0 →
                 converts_of tl = [] → cwrites_of tl = [] →
                 touched_of tl = [] →
                 ∃ evs n,
                   c_trace (loop (S j) d' cw3).2 = c_trace cw ++ evs
                   ∧ converts_of evs = replicate n (file_path, opts)
                   ∧ (n ≤ S m)%nat
                   ∧ (∀ p, p ∉ touched_of evs →
                        c_out (loop (S j) d' cw3).2 !! p = c_out cw !! p)
                   ∧ match (loop (S j) d' cw3).1 with
                     | Returned (Some p) =>
                         p = output_file ∧
                         ∃ i md, Z.of_nat i < max_retries
                           ∧ markdown_of (pass i) = Some md
                           ∧ write_ok (c_out cw) output_file md = true
                           ∧ c_out (loop (S j) d' cw3).2
                             = <[output_file := File md]> (c_out cw)
                           ∧ cwrites_of evs = [(output_file, md)]
                     | _ =>
                         cwrites_of evs = []
                         ∧ (c_out (loop (S j) d' cw3).2 = c_out cw
                            ∨ (c_out (loop (S j) d' cw3).2
                               = failed_write (c_out cw) output_file
                               ∧ ∃ i md, Z.of_nat i < max_retries
                                   ∧ markdown_of (pass i) = Some md
                                   ∧ write_ok (c_out cw) output_file md = false))
                     end) as Hgo.
      { intros d' cw3 tl Htr Hout Hct Hwt Htt.
        destruct (IH (S j) d' cw3) as (evs & n & Ht & Hc & Hn & Hfr & Hr); [lia|].
        exists (evs0 ++ tl ++ evs), (S n).
        assert (cwrites_of (evs0 ++ tl ++ evs) = cwrites_of evs) as Hws.
        { unfold cwrites_of in *. by rewrite !omap_app, Hw0, Hwt. }
        split; [|split; [|split; [|split]]].
        - rewrite Ht, Htr. unfold cw1. simpl. by rewrite <- !(assoc_L (++)).
        - unfold converts_of in *. rewrite !omap_app, Hc0, Hct, Hc. done.
        - lia.
        - intros p Hp. unfold touched_of in Hp. rewrite !omap_app in Hp.
          rewrite !elem_of_app in Hp. rewrite Hfr, Hout by tauto.
          apply Hfr0. tauto.
        - rewrite Hws, Hout in *.
          assert (∀ i md, Z.of_nat i < max_retries
                    ∧ markdown_of (pass i) = Some md
                    ∧ write_ok d0 output_file md = false →
                    Z.of_nat i < max_retries
                    ∧ markdown_of (pass i) = Some md
                    ∧ write_ok (c_out cw) output_file md = false) as Htrans.
          { intros i md. by rewrite Hok. }
          destruct (loop (S j) d' cw3).1 as [[p|]|].
          + destruct Hr as (-> & i & md & Hi & Hmd & Hwok & Ho & Hw).
            split; [done|]. exists i, md. rewrite Ho, <- Hok.
            split; [done|]. split; [done|]. split; [done|]. split; [|done].
            destruct Hd0 as [->|[-> _]]; by rewrite ?insert_failed_write.
          + destruct Hr as [Hw [Ho|[Ho (i & md & Hi)]]]; (split; [done|]).
            * rewrite Ho. destruct Hd0 as [->|[-> (md & Hmd & Hwf)]];
                [by left|]. right. split; [done|]. exists j, md. done.
            * rewrite Ho. right. split.
              -- destruct Hd0 as [->|[-> _]]; by rewrite ?failed_write_idemp.
              -- exists i, md. by apply Htrans.
          + destruct Hr as [Hw [Ho|[Ho (i & md & Hi)]]]; (split; [done|]).
            * rewrite Ho. destruct Hd0 as [->|[-> (md & Hmd & Hwf)]];
                [by left|]. right. split; [done|]. exists j, md. done.
            * rewrite Ho. right. split.
              -- destruct Hd0 as [->|[-> _]]; by rewrite ?failed_write_idemp.
              -- exists i, md. by apply Htrans. }
      case_bool_decide; [case_bool_decide|].
      * exists (evs0 ++ [CvLog (MsgRetrying d)]), 1%nat. simpl.
        split; [by rewrite <- !(assoc_L (++))|].
        split; [unfold converts_of in *; by rewrite omap_app, Hc0|].
        split; [lia|]. split.
        { intros p Hp. apply Hfr0. intros Hin. apply Hp.
          unfold touched_of in *. rewrite omap_app. apply elem_of_app.
          by left. }
        split; [unfold cwrites_of in *; by rewrite omap_app, Hw0|].
        destruct Hd0 as [->|[-> (md & Hmd & Hwf)]]; [by left|].
        right. split; [done|]. exists j, md. done.
      * apply (Hgo _ _ [CvLog (MsgRetrying d); CvSleep d]); try done.
        unfold cemit. simpl. by rewrite <- !(assoc_L (++)).
      * apply (Hgo _ _ []); try done. by rewrite app_nil_r.
    + rewrite retry_loop_eq. rewrite decide_True by done.
      destruct (attempt_spec j cw) as (evs & d' & -> & Hc & Hs & Hm').
      rewrite Hf. cbn [negb fst snd c_out c_trace].
      unfold pass_fails in Hf.
      destruct (markdown_of (pass j)) as [md|] eqn:Hmd; [|done].
      apply negb_false_iff in Hf. rewrite Hf in Hm'.
      destruct Hm' as (-> & Hw & Ht).
      exists evs, 1%nat. split; [done|]. split; [done|]. split; [lia|].
      split.
      { intros p Hp. rewrite Ht in Hp. apply lookup_insert_ne. intros ->.
        apply Hp. left. }
      split; [done|]. exists j, md. done.
Qed.

(** With delays that [time.sleep] accepts, the loop does not raise. *)
Lemma retry_loop_no_raise m : ∀ j d cw,
  Z.to_nat (max_retries - Z.of_nat j) = m →
  0 ≤ d →
  (∀ i : nat, Z.of_nat (j + i) + 1 < max_retries →
              d * 2 ^ Z.of_nat i ≤ sleep_limit) →
  (loop j d cw).1 ≠ SleepRaised.
Proof.
  induction m as [|m IH]; intros j d cw Hm Hd Hlim; rewrite retry_loop_eq.
  - by rewrite decide_False by lia.
  - rewrite decide_True by lia.
    destruct (try_pass j cw) as [[] cw1]; [done|].
    unfold after_failure. case_bool_decide as Hnext.
    + pose proof (Hlim 0%nat ltac:(lia)) as Hd0. simpl in Hd0.
      rewrite bool_decide_eq_false_2 by lia. apply IH; [lia|lia|].
      intros i Hi. specialize (Hlim (S i) ltac:(lia)).
      rewrite Nat2Z.inj_succ, Z.pow_succ_r in Hlim by lia. lia.
    + apply IH; [lia|done|]. intros i Hi. lia.
Qed.
End RetryFacts.

Lemma endswith_app a p : endswith (a ++ p) p = true.
Proof. unfold endswith. rewrite reverse_app. apply startswith_app. Qed.

Lemma stem_nonempty f : f ≠ [] → stem f ≠ [].
Proof.
  intros Hf. unfold stem. destruct (rfind 46 f) as [i|]; [|done].
  case_bool_decide as Hi; [|done].
  intros Ht. apply (f_equal length) in Ht. rewrite length_take in Ht.
  simpl in Ht. lia.
Qed.

Lemma nil_not_supported : [] ∉ supported_extensions.
Proof.
  apply (proj1 (bool_decide_eq_false ([] ∈ supported_extensions))).
  vm_compute. reflexivity.
Qed.

Lemma sum_doubling d n a :
  foldr Z.add 0 ((λ i, d * 2 ^ Z.of_nat i) <$> seq a n)
  = d * 2 ^ Z.of_nat a * (2 ^ Z.of_nat n - 1).
Proof.
  revert a. induction n as [|n IH]; intros a.
  - simpl. lia.
  - cbn [seq fmap list_fmap foldr]. rewrite IH.
    rewrite !Nat2Z.inj_succ, !Z.pow_succ_r by lia. ring.
Qed.

Lemma translate_supported lower engine sleep_limit f po max d cw :
  is_supported_file lower f = true →
  translate_to_markdown lower engine sleep_limit f po max d cw
  = retry_loop lower engine sleep_limit po max f (stem f ++ lit ".md") 0 d cw.
Proof. intros Hs. unfold translate_to_markdown. by rewrite Hs. Qed.

(** What a call does, whatever the engine does. *)
Lemma translate_effects lower engine sleep_limit f po max d cw :
  let res := translate_to_markdown lower engine sleep_limit f po max d cw in
  let out := stem f ++ lit ".md" in
  ∃ evs n,
    c_trace res.2 = c_trace cw ++ evs
    ∧ converts_of evs = replicate n (f, with_options lower po f)
    ∧ (n ≤ Z.to_nat max)%nat
    ∧ (is_supported_file lower f = false → n = 0%nat)
    ∧ (∀ p, p ∉ touched_of evs → c_out res.2 !! p = c_out cw !! p)
    ∧ match res.1 with
      | Returned (Some p) =>
          p = out ∧ is_supported_file lower f = true ∧
          ∃ i md, Z.of_nat i < max
            ∧ markdown_of (engine f (with_options lower po f) i) = Some md
            ∧ write_ok (c_out cw) out md = true
            ∧ c_out res.2 = <[p := File md]> (c_out cw)
            ∧ cwrites_of evs = [(p, md)]
      | _ =>
          cwrites_of evs = []
          ∧ (c_out res.2 = c_out cw
             ∨ (c_out res.2 = failed_write (c_out cw) out
                ∧ ∃ i md, Z.of_nat i < max
                    ∧ markdown_of (engine f (with_options lower po f) i)
                      = Some md
                    ∧ write_ok (c_out cw) out md = false))
      end.
Proof.
  intros res out. unfold res, translate_to_markdown.
  destruct (is_supported_file lower f) eqn:Hs; simpl.
  - destruct (retry_loop_sound lower engine sleep_limit po max f out
                _ 0%nat d cw eq_refl) as (evs & n & Ht & Hc & Hn & Hfr & Hr).
    exists evs, n. split; [done|]. split; [done|].
    split; [simpl in Hn; lia|]. split; [done|]. split; [done|].
    fold out.
    destruct (retry_loop _ _ _ _ _ _ _ _ _ _).1 as [[p|]|]; [|done..].
    destruct Hr as (-> & i & md & Hr). split; [done|]. split; [done|]. eauto.
  - exists [CvLog MsgSkipUnsupported], 0%nat.
    split; [done|]. split; [done|]. split; [lia|]. split; [done|].
    split; [done|]. split; [done|]. by left.
Qed.

(** A returned path names the output file, which holds the markdown of
    one pass; nothing else of the directory has changed. *)
Lemma translate_returned lower engine sleep_limit f po max d cw p cw' :
  translate_to_markdown lower engine sleep_limit f po max d cw
  = (Returned (Some p), cw') →
  p = stem f ++ lit ".md" ∧ is_supported_file lower f = true
  ∧ ∃ i md, Z.of_nat i < max
      ∧ markdown_of (engine f (with_options lower po f) i) = Some md
      ∧ c_out cw' = <[p := File md]> (c_out cw).
Proof.
  intros Hrun.
  destruct (translate_effects lower engine sleep_limit f po max d cw)
    as (evs & n & _ & _ & _ & _ & _ & Hr).
  rewrite Hrun in Hr. simpl in Hr.
  destruct Hr as (-> & Hs & i & md & Hi & Hmd & _ & Ho & _). eauto 10.
Qed.

(** The directory a call leaves keeps the entries and the readable files
    of the directory it was given. *)
Lemma translate_keeps lower engine sleep_limit f po max d cw :
  let res := translate_to_markdown lower engine sleep_limit f po max d cw in
  (∀ q, readable (c_out cw) q = true → readable (c_out res.2) q = true)
  ∧ (∀ q, is_Some (c_out cw !! q) → is_Some (c_out res.2 !! q)).
Proof.
  intros res.
  destruct (translate_effects lower engine sleep_limit f po max d cw)
    as (evs & n & _ & _ & _ & _ & _ & Hr). fold res in Hr.
  assert (c_out res.2 = c_out cw
          ∨ c_out res.2 = failed_write (c_out cw) (stem f ++ lit ".md")
          ∨ ∃ md, c_out res.2
                  = <[stem f ++ lit ".md" := File md]> (c_out cw))
    as [->|[->|[md ->]]].
  { destruct res.1 as [[p|]|].
    - destruct Hr as (-> & _ & i & md & _ & _ & _ & -> & _). eauto.
    - destruct Hr as [_ [?|[? _]]]; auto.
    - destruct Hr as [_ [?|[? _]]]; auto. }
  - done.
  - split; intros q; [apply readable_failed_write|apply is_Some_failed_write].
  - split; intros q.
    + unfold readable. destruct (decide (q = stem f ++ lit ".md")) as [->|Hne].
      * by rewrite lookup_insert_eq.
      * by rewrite lookup_insert_ne.
    + destruct (decide (q = stem f ++ lit ".md")) as [->|Hne].
      * rewrite lookup_insert_eq. eauto.
      * by rewrite lookup_insert_ne.
Qed.

Lemma translate_no_raise lower engine sleep_limit f po max d cw :
  0 ≤ d →
  (∀ i : nat, Z.of_nat i + 1 < max → d * 2 ^ Z.of_nat i ≤ sleep_limit) →
  (translate_to_markdown lower engine sleep_limit f po max d cw).1
  ≠ SleepRaised.
Proof.
  intros Hd Hlim. unfold translate_to_markdown.
  destruct (is_supported_file lower f); simpl; [|done].
  by apply (retry_loop_no_raise _ _ _ _ _ _ _ _ _ _ _ eq_refl Hd).
Qed.

(** X10. A file is supported exactly when its name is a non-empty part, a
    dot and a non-empty extension without a dot, and the dot with the
    extension, in lower case, is one of the seventeen listed: only the last
    extension counts, and a name such as [.pdf], with nothing before its
    only dot, is not supported. *)
Theorem supported_by_last_extension lower f :
  lower [] = [] →
  is_supported_file lower f = true ↔
  ∃ a e, f = a ++ 46%N :: e ∧ a ≠ [] ∧ e ≠ [] ∧ 46%N ∉ e
         ∧ lower (46%N :: e) ∈ supported_extensions.
Proof.
  intros Hnil. unfold is_supported_file. rewrite bool_decide_eq_true.
  unfold suffix. split.
  - destruct (rfind 46 f) as [i|] eqn:E.
    + case_bool_decide as Hi.
      * intros Hin. destruct (rfind_Some _ _ _ E) as [Hf He].
        exists (take i f), (drop (S i) f).
        assert (drop i f = 46%N :: drop (S i) f) as Hd.
        { rewrite Hf at 1. rewrite drop_app_length'; [done|].
          rewrite length_take. lia. }
        split; [done|]. split.
        { intros Ht. apply (f_equal length) in Ht. rewrite length_take in Ht.
          simpl in Ht. lia. }
        split.
        { intros Ht. apply (f_equal length) in Ht. rewrite length_drop in Ht.
          simpl in Ht. lia. }
        split; [done|]. by rewrite <- Hd.
      * rewrite Hnil. intros Hin. by destruct nil_not_supported.
    + rewrite Hnil. intros Hin. by destruct nil_not_supported.
  - intros (a & e & -> & Ha & He & Hne & Hin).
    rewrite rfind_last by done. rewrite bool_decide_eq_true_2.
    + by rewrite drop_app_length.
    + rewrite length_app. simpl. destruct a, e; simpl; try done; lia.
Qed.

Lemma supported_by_last_extension_witness :
  is_supported_file ascii_lower (lit "notes.tar.PDF") = true ↔
  ∃ a e, lit "notes.tar.PDF" = a ++ 46%N :: e ∧ a ≠ [] ∧ e ≠ [] ∧ 46%N ∉ e
         ∧ ascii_lower (46%N :: e) ∈ supported_extensions.
Proof.
  apply (supported_by_last_extension ascii_lower (lit "notes.tar.PDF")).
  reflexivity.
Defined.

(** X11. When the pass number [k] (from 0) is the first that returns, the
    engine giving markdown, with success or partial success, that can be
    written to the output file, when [k] is below [max_retries] and
    [time.sleep] accepts the delays, the call returns the path [stem.md],
    that file holds the markdown, the engine was asked [k + 1] times,
    always for this file, and the call slept [k] times: [retry_delay],
    twice that, four times that, and so on. It wrote nothing else. *)
Theorem converted_after_retries lower engine sleep_limit f po max d cw k md :
  is_supported_file lower f = true →
  0 ≤ d →
  (∀ i, (i < k)%nat → d * 2 ^ Z.of_nat i ≤ sleep_limit) →
  Z.of_nat k < max →
  (∀ i, (i < k)%nat →
        pass_fails (c_out cw) (stem f ++ lit ".md")
          (engine f (with_options lower po f) i) = true) →
  markdown_of (engine f (with_options lower po f) k) = Some md →
  write_ok (c_out cw) (stem f ++ lit ".md") md = true →
  ∃ evs,
    translate_to_markdown lower engine sleep_limit f po max d cw
    = (Returned (Some (stem f ++ lit ".md")),
       CWorld (<[stem f ++ lit ".md" := File md]> (c_out cw))
              (c_trace cw ++ evs))
    ∧ converts_of evs = replicate (S k) (f, with_options lower po f)
    ∧ sleeps_of evs = (λ i, d * 2 ^ Z.of_nat i) <$> seq 0 k
    ∧ cwrites_of evs = [(stem f ++ lit ".md", md)].
Proof.
  intros Hs Hd Hlim Hk Hfail Hmd Hok. rewrite translate_supported by done.
  by apply retry_loop_returns.
Qed.

Lemma converted_after_retries_witness :
  ∃ evs,
    translate_to_markdown ascii_lower
      (engine_after 2 (PartialSuccess (lit "text"))) 9223372036
      (lit "a.b.PDF") true 3 2 (CWorld ∅ [])
    = (Returned (Some (stem (lit "a.b.PDF") ++ lit ".md")),
       CWorld (<[stem (lit "a.b.PDF") ++ lit ".md" := File (lit "text")]> ∅)
              ([] ++ evs))
    ∧ converts_of evs
      = replicate 3 (lit "a.b.PDF", with_options ascii_lower true (lit "a.b.PDF"))
    ∧ sleeps_of evs = (λ i, 2 * 2 ^ Z.of_nat i) <$> seq 0 2
    ∧ cwrites_of evs = [(stem (lit "a.b.PDF") ++ lit ".md", lit "text")].
Proof.
  apply (converted_after_retries ascii_lower
           (engine_after 2 (PartialSuccess (lit "text"))) 9223372036
           (lit "a.b.PDF") true 3 2 (CWorld ∅ []) 2 (lit "text")).
  - reflexivity.
  - lia.
  - intros i Hi. destruct i as [|[|i]]; [simpl; lia | simpl; lia | lia].
  - lia.
  - intros i Hi. destruct i as [|[|i]]; [reflexivity | reflexivity | lia].
  - reflexivity.
  - reflexivity.
Defined.

(** A pass whose markdown cannot be written does not return either:
    where the output file [a.md] cannot be opened, every pass fails in its
    write and is slept on, and the call gives up. *)
Example write_failure_example :
  let res := translate_to_markdown ascii_lower
               (λ _ _ _, Success (lit "text")) 9223372036
               (lit "a.pdf") true 2 2
               (CWorld {[ lit "a.md" := Unreadable ]} []) in
  res.1 = Returned None
  ∧ c_out res.2 = {[ lit "a.md" := Unreadable ]}
  ∧ sleeps_of (c_trace res.2) = [2]
  ∧ length (converts_of (c_trace res.2)) = 2%nat.
Proof. by vm_compute. Qed.

(** X12. When no pass below [max_retries] returns, the engine giving no
    markdown or markdown that cannot be written, and [time.sleep] accepts
    the delays, the call returns [None] and has written nothing: the
    output directory is as it was, but for the output file where a write
    that raised has emptied it, and exactly as it was when the engine gave
    no markdown at all. The engine was asked [max_retries] times (never,
    for [max_retries <= 0]) and the call slept after every pass but the
    last, doubling the delay: in all
    [retry_delay * (2 ^ (max_retries - 1) - 1)] seconds for
    [max_retries >= 1]. *)
Theorem gives_up_after_max_retries lower engine sleep_limit f po max d cw :
  is_supported_file lower f = true →
  0 ≤ d →
  (∀ i : nat, Z.of_nat i + 1 < max → d * 2 ^ Z.of_nat i ≤ sleep_limit) →
  (∀ i, Z.of_nat i < max →
        pass_fails (c_out cw) (stem f ++ lit ".md")
          (engine f (with_options lower po f) i) = true) →
  ∃ evs d',
    translate_to_markdown lower engine sleep_limit f po max d cw
    = (Returned None, CWorld d' (c_trace cw ++ evs))
    ∧ (d' = c_out cw ∨ d' = failed_write (c_out cw) (stem f ++ lit ".md"))
    ∧ ((∀ i, Z.of_nat i < max →
             fails (engine f (with_options lower po f) i) = true) →
       d' = c_out cw)
    ∧ converts_of evs
      = replicate (Z.to_nat max) (f, with_options lower po f)
    ∧ sleeps_of evs = (λ i, d * 2 ^ Z.of_nat i) <$> seq 0 (Z.to_nat max - 1)
    ∧ foldr Z.add 0 (sleeps_of evs) = d * (2 ^ Z.of_nat (Z.to_nat max - 1) - 1)
    ∧ cwrites_of evs = [].
Proof.
  intros Hs Hd Hlim Hfail. rewrite translate_supported by done.
  destruct (retry_loop_gives_up lower engine sleep_limit po max f
              (stem f ++ lit ".md") d cw Hd Hlim Hfail)
    as (evs & d' & Hrun & Hd' & Hsame & Hc & Hsl & Hw).
  exists evs, d'. split; [done|]. split; [done|]. split; [done|].
  split; [done|]. split; [done|]. split; [|done].
  rewrite Hsl, sum_doubling. simpl. lia.
Qed.

Lemma gives_up_after_max_retries_witness :
  ∃ evs d',
    translate_to_markdown ascii_lower (λ _ _ _, Failure) 9223372036
      (lit "a.docx") true 3 2 (CWorld ∅ [])
    = (Returned None, CWorld d' ([] ++ evs))
    ∧ (d' = ∅ ∨ d' = failed_write ∅ (stem (lit "a.docx") ++ lit ".md"))
    ∧ ((∀ i, Z.of_nat i < 3 →
             fails ((λ _ _ _, Failure) (lit "a.docx")
                      (with_options ascii_lower true (lit "a.docx")) i)
             = true) →
       d' = ∅)
    ∧ converts_of evs
      = replicate (Z.to_nat 3)
          (lit "a.docx", with_options ascii_lower true (lit "a.docx"))
    ∧ sleeps_of evs = (λ i, 2 * 2 ^ Z.of_nat i) <$> seq 0 (Z.to_nat 3 - 1)
    ∧ foldr Z.add 0 (sleeps_of evs) = 2 * (2 ^ Z.of_nat (Z.to_nat 3 - 1) - 1)
    ∧ cwrites_of evs = [].
Proof.
  apply (gives_up_after_max_retries ascii_lower (λ _ _ _, Failure) 9223372036
           (lit "a.docx") true 3 2 (CWorld ∅ [])).
  - reflexivity.
  - lia.
  - intros i Hi. destruct i as [|[|i]]; [simpl; lia | simpl; lia | lia].
  - intros i Hi. reflexivity.
Defined.

(** X13. With a [retry_delay] that [time.sleep] does not accept, negative
    or above its limit, and more than one pass allowed, a first pass that
    does not return ends the call with the exception of [time.sleep],
    which is outside the [try] block: the engine was asked once, and the
    call neither wrote nor slept. The output directory is as it was when
    the engine gave no markdown, and otherwise but for the output file
    where the write that raised has emptied it. *)
Theorem negative_delay_raises lower engine sleep_limit f po max d cw :
  is_supported_file lower f = true →
  d < 0 ∨ sleep_limit < d → 1 < max →
  pass_fails (c_out cw) (stem f ++ lit ".md")
    (engine f (with_options lower po f) 0%nat) = true →
  ∃ evs d',
    translate_to_markdown lower engine sleep_limit f po max d cw
    = (SleepRaised, CWorld d' (c_trace cw ++ evs))
    ∧ (d' = c_out cw ∨ d' = failed_write (c_out cw) (stem f ++ lit ".md"))
    ∧ (fails (engine f (with_options lower po f) 0%nat) = true →
       d' = c_out cw)
    ∧ converts_of evs = [(f, with_options lower po f)]
    ∧ sleeps_of evs = []
    ∧ cwrites_of evs = [].
Proof.
  intros Hs Hd Hmax Hfail. rewrite translate_supported by done.
  destruct (retry_loop_failed lower engine sleep_limit po max f
              (stem f ++ lit ".md") 0%nat d cw)
    as (evs0 & d0 & Hc0 & Hs0 & Hw0 & Hd0 & _ & ->); [lia | done |].
  unfold after_failure.
  rewrite bool_decide_eq_true_2 by lia. rewrite bool_decide_eq_true_2 by done.
  exists (evs0 ++ [CvLog (MsgRetrying d)]), d0.
  split; [|split; [|split; [|split; [|split]]]].
  - unfold cemit. simpl. by rewrite <- !(assoc_L (++)).
  - destruct Hd0 as [?|[? _]]; auto.
  - intros Hf. destruct Hd0 as [?|[_ (md & Hmd & _)]]; [done|].
    by destruct (fails_markdown_of _ md Hf).
  - unfold converts_of in *. by rewrite omap_app, Hc0.
  - unfold sleeps_of in *. by rewrite omap_app, Hs0.
  - unfold cwrites_of in *. by rewrite omap_app, Hw0.
Qed.

Lemma negative_delay_raises_witness :
  ∃ evs d',
    translate_to_markdown ascii_lower (λ _ _ _, Raised false) 9223372036
      (lit "a.html") false 3 (-1) (CWorld ∅ [])
    = (SleepRaised, CWorld d' ([] ++ evs))
    ∧ (d' = ∅ ∨ d' = failed_write ∅ (stem (lit "a.html") ++ lit ".md"))
    ∧ (fails ((λ _ _ _, Raised false) (lit "a.html")
                (with_options ascii_lower false (lit "a.html")) 0%nat) = true →
       d' = ∅)
    ∧ converts_of evs
      = [(lit "a.html", with_options ascii_lower false (lit "a.html"))]
    ∧ sleeps_of evs = []
    ∧ cwrites_of evs = [].
Proof.
  apply (negative_delay_raises ascii_lower (λ _ _ _, Raised false) 9223372036
           (lit "a.html") false 3 (-1) (CWorld ∅ [])).
  - reflexivity.
  - left. lia.
  - lia.
  - reflexivity.
Defined.

(** A delay above the limit of [time.sleep] ends the call in the same
    way. *)
Example large_delay_example :
  (translate_to_markdown ascii_lower (λ _ _ _, Failure) 9223372036
     (lit "a.html") false 2 10000000000 (CWorld ∅ [])).1 = SleepRaised.
Proof. by vm_compute. Qed.

(** X14. Whatever the engine does, a call asks it at most [max_retries]
    times, only for the given file, and not at all for an unsupported file.
    It returns a path only for a supported file, the path is [stem.md], and
    then that file was written once, with the markdown of one pass, and
    nothing else of the output directory has changed; when it returns
    [None] or raises, it has written nothing: the directory is as it was,
    or the output file, and no other, was emptied by a write that raised,
    the engine having given markdown that could not be written. *)
Theorem returned_path_is_written lower engine sleep_limit f po max d cw :
  let res := translate_to_markdown lower engine sleep_limit f po max d cw in
  let out := stem f ++ lit ".md" in
  ∃ evs n,
    c_trace res.2 = c_trace cw ++ evs
    ∧ converts_of evs = replicate n (f, with_options lower po f)
    ∧ (n ≤ Z.to_nat max)%nat
    ∧ (is_supported_file lower f = false → n = 0%nat)
    ∧ match res.1 with
      | Returned (Some p) =>
          p = out ∧ is_supported_file lower f = true ∧
          ∃ i md, Z.of_nat i < max
            ∧ markdown_of (engine f (with_options lower po f) i) = Some md
            ∧ c_out res.2 = <[p := File md]> (c_out cw)
            ∧ cwrites_of evs = [(p, md)]
      | _ =>
          cwrites_of evs = []
          ∧ (c_out res.2 = c_out cw
             ∨ (c_out res.2 = failed_write (c_out cw) out
                ∧ ∃ i md, Z.of_nat i < max
                    ∧ markdown_of (engine f (with_options lower po f) i)
                      = Some md
                    ∧ write_ok (c_out cw) out md = false))
      end.
Proof.
  intros res out.
  destruct (translate_effects lower engine sleep_limit f po max d cw)
    as (evs & n & Ht & Hc & Hn & Hns & _ & Hr). fold res out in Ht, Hr.
  exists evs, n. split; [done|]. split; [done|]. split; [done|].
  split; [done|]. destruct res.1 as [[p|]|]; [|done..].
  destruct Hr as (-> & Hs & i & md & Hi & Hmd & _ & Ho & Hw). eauto 10.
Qed.

(** Where the markdown cannot be encoded, the write that raises has
    emptied the output file: the call returns [None] and the old text of
    [a.md] is lost. *)
Example emptied_output_example :
  let res := translate_to_markdown ascii_lower
               (λ _ _ _, Success [55296%N]) 9223372036
               (lit "a.pdf") true 1 2
               (CWorld {[ lit "a.md" := File (lit "old") ]} []) in
  res.1 = Returned None
  ∧ c_out res.2 = {[ lit "a.md" := File [] ]}
  ∧ cwrites_of (c_trace res.2) = []
  ∧ touched_of (c_trace res.2) = [lit "a.md"].
Proof. by vm_compute. Qed.

(** X15. Two sources with the same stem, such as [report.pdf] and
    [report.docx], are written to the same output file: when both calls
    return a path it is the same path, and the file holds the markdown of
    the second source, that of the first being lost. *)
Theorem same_stem_overwrites lower engine sleep_limit f g po max d
    cw p1 cw1 p2 cw2 :
  stem f = stem g →
  translate_to_markdown lower engine sleep_limit f po max d cw
  = (Returned (Some p1), cw1) →
  translate_to_markdown lower engine sleep_limit g po max d cw1
  = (Returned (Some p2), cw2) →
  p1 = p2 ∧
  ∃ i md, Z.of_nat i < max
    ∧ markdown_of (engine g (with_options lower po g) i) = Some md
    ∧ c_out cw2 = <[p1 := File md]> (c_out cw).
Proof.
  intros Hst H1 H2.
  apply translate_returned in H1 as (-> & _ & i1 & md1 & _ & _ & Ho1).
  apply translate_returned in H2 as (-> & _ & i2 & md2 & Hi2 & Hmd2 & Ho2).
  rewrite Hst. split; [done|]. exists i2, md2. split; [done|]. split; [done|].
  rewrite Ho2, Ho1, Hst. apply insert_insert_eq.
Qed.

Lemma same_stem_overwrites_witness :
  let eng := λ (f : str) (_ : bool) (_ : nat), Success f in
  let r1 := translate_to_markdown ascii_lower eng 9223372036 (lit "report.pdf") true 3 2
              (CWorld ∅ []) in
  let r2 := translate_to_markdown ascii_lower eng 9223372036 (lit "report.docx") true 3 2
              r1.2 in
  lit "report.md" = lit "report.md" ∧
  ∃ i md, Z.of_nat i < 3
    ∧ markdown_of (eng (lit "report.docx")
                     (with_options ascii_lower true (lit "report.docx")) i)
      = Some md
    ∧ c_out r2.2 = <[lit "report.md" := File md]> ∅.
Proof.
  intros eng r1 r2.
  apply (same_stem_overwrites ascii_lower eng 9223372036 (lit "report.pdf")
           (lit "report.docx") true 3 2 (CWorld ∅ [])
           (lit "report.md") r1.2 (lit "report.md") r2.2).
  - reflexivity.
  - reflexivity.
  - reflexivity.
Defined.

(** X16. The file written for a source is an input of the packer exactly
    when the stem of the source does not start with [packed_]: the
    markdown of a source such as [packed_lunch.pdf] is written to the
    output directory and never packed. *)
Theorem converted_file_packed_unless_prefixed
    lower engine sleep_limit f po max d cw p cw' :
  f ≠ [] →
  translate_to_markdown lower engine sleep_limit f po max d cw
  = (Returned (Some p), cw') →
  p ∈ discover (c_out cw') ↔ startswith (stem f) (lit "packed_") = false.
Proof.
  intros Hf Hrun.
  apply translate_returned in Hrun as (-> & _ & i & md & _ & _ & Ho).
  rewrite elem_of_discover, Ho, lookup_insert_eq, endswith_app.
  rewrite stem_md by (by apply stem_nonempty).
  split; [by intros (_ & _ & H) | by eauto].
Qed.

Lemma converted_file_packed_unless_prefixed_witness :
  let res := translate_to_markdown ascii_lower (λ _ _ _, Success (lit "soup"))
               9223372036 (lit "packed_lunch.pdf") true 3 2 (CWorld ∅ []) in
  lit "packed_lunch.md" ∈ discover (c_out res.2)
  ↔ startswith (stem (lit "packed_lunch.pdf")) (lit "packed_") = false.
Proof.
  intros res.
  apply (converted_file_packed_unless_prefixed ascii_lower
           (λ _ _ _, Success (lit "soup")) 9223372036 (lit "packed_lunch.pdf")
           true 3 2 (CWorld ∅ []) (lit "packed_lunch.md") res.2).
  - discriminate.
  - reflexivity.
Defined.

(** ** The command line program *)

(** The loop over the supported files: it asks the engine for files of
    its list only, changes no entry of the directory but the output files
    it has written or emptied, removes none, and does not raise where
    [time.sleep] accepts the delays. *)
Lemma convert_files_spec lower engine sleep_limit max : ∀ files succ cw,
  let res := convert_files lower engine sleep_limit max files succ cw in
  ∃ evs,
    c_trace res.2 = c_trace cw ++ evs
    ∧ (∀ f o, (f, o) ∈ converts_of evs →
              f ∈ files ∧ is_supported_file lower f = true
              ∧ o = with_options lower true f)
    ∧ (∀ p, p ∉ touched_of evs → c_out res.2 !! p = c_out cw !! p)
    ∧ (∀ p, readable (c_out cw) p = true → readable (c_out res.2) p = true)
    ∧ (∀ p, is_Some (c_out cw !! p) → is_Some (c_out res.2 !! p))
    ∧ ((∀ i : nat, Z.of_nat i + 1 < max → 2 * 2 ^ Z.of_nat i ≤ sleep_limit) →
       is_Some res.1).
Proof.
  induction files as [|f files IH]; intros succ cw.
  - exists []. rewrite !app_nil_r. simpl.
    split; [done|].
    split; [intros g o Hin; by apply elem_of_nil in Hin|].
    split; [done|]. split; [done|]. split; [done|]. eauto.
  - simpl.
    pose proof (translate_effects lower engine sleep_limit f true max 2 cw)
      as (evs1 & n & Ht & Hc & Hn & Hns & Hfr1 & _).
    pose proof (translate_keeps lower engine sleep_limit f true max 2 cw)
      as [Hrd1 Hsm1].
    pose proof (translate_no_raise lower engine sleep_limit f true max 2 cw)
      as Hnr.
    assert (∀ g o, (g, o) ∈ converts_of evs1 →
              g ∈ f :: files ∧ is_supported_file lower g = true
              ∧ o = with_options lower true g) as Hcs1.
    { intros g o. rewrite Hc.
      intros [[= -> ->] Hn0]%elem_of_replicate.
      split; [left|]. split; [|done].
      destruct (is_supported_file lower f); [done|]. destruct Hn0. by apply Hns. }
    simpl in *.
    destruct (translate_to_markdown lower engine sleep_limit f true max 2 cw)
      as [res1 cw1]. simpl in *.
    assert (∀ succ',
      let res := convert_files lower engine sleep_limit max files succ' cw1 in
      ∃ evs,
        c_trace res.2 = c_trace cw ++ evs
        ∧ (∀ f0 o, (f0, o) ∈ converts_of evs →
              f0 ∈ f :: files ∧ is_supported_file lower f0 = true
              ∧ o = with_options lower true f0)
        ∧ (∀ p, p ∉ touched_of evs → c_out res.2 !! p = c_out cw !! p)
        ∧ (∀ p, readable (c_out cw) p = true → readable (c_out res.2) p = true)
        ∧ (∀ p, is_Some (c_out cw !! p) → is_Some (c_out res.2 !! p))
        ∧ ((∀ i : nat, Z.of_nat i + 1 < max →
                       2 * 2 ^ Z.of_nat i ≤ sleep_limit) →
           is_Some res.1)) as Hgo.
    { intros succ'. simpl.
      destruct (IH succ' cw1) as (evs & Htr & Hcs & Hfr & Hrd & Hsm & Hok).
      exists (evs1 ++ evs).
      split; [by rewrite Htr, Ht, <- (assoc_L (++))|].
      split.
      { intros g o. unfold converts_of in *. rewrite omap_app, elem_of_app.
        intros [Hin|Hin]; [by apply Hcs1|].
        destruct (Hcs g o Hin) as (? & ? & ?). split; [by right|done]. }
      split.
      { intros p Hp. unfold touched_of in *. rewrite omap_app in Hp.
        rewrite elem_of_app in Hp. rewrite Hfr by tauto. apply Hfr1. tauto. }
      split; [by auto|]. split; [by auto|]. done. }
    destruct res1 as [[p|]|]; [apply Hgo | apply Hgo |].
    exists evs1. simpl. split; [done|]. split; [done|]. split; [done|].
    split; [done|]. split; [done|].
    intros Hlim. destruct Hnr; [lia|done|done].
Qed.

Lemma report_counts_spec isalnum : ∀ r w,
  w_dir (report_counts isalnum r w).2 = w_dir w
  ∧ (report_counts isalnum r w).1.*1 = r.
Proof.
  induction r as [|cf r IH]; intros w; simpl; [done|].
  rewrite count_words_eq.
  set (w1 := if readable (w_dir w) cf then _ else _).
  assert (w_dir w1 = w_dir w) as Hw1.
  { unfold w1. by destruct (readable (w_dir w) cf). }
  destruct (IH w1) as [Hd Hr].
  destruct (report_counts isalnum r w1) as [rest w2]. simpl in *.
  split; [congruence | by f_equal].
Qed.

Lemma elem_of_supported_files lower entries f :
  f ∈ supported_files lower entries ↔
  (f, true) ∈ entries ∧ startswith f (lit ".") = false
  ∧ is_supported_file lower f = true.
Proof.
  unfold supported_files, all_files.
  rewrite list_elem_of_filter, list_elem_of_fmap. split.
  - intros [Hs ([g b] & -> & Hin)]. apply list_elem_of_filter in Hin.
    simpl in *. destruct Hin as [[-> Hh] Hin]. done.
  - intros (Hin & Hh & Hs). split; [done|]. exists (f, true).
    split; [done|]. by apply list_elem_of_filter.
Qed.

(** The loop over the supported files when the engine gives no markdown:
    nothing is written and the directory stays as it is. *)
Lemma convert_files_all_fail_dir lower engine sleep_limit max :
  ∀ files succ cw,
  (∀ f i, f ∈ files → Z.of_nat i < max →
          fails (engine f (with_options lower true f) i) = true) →
  let res := convert_files lower engine sleep_limit max files succ cw in
  ∃ evs,
    res.2 = CWorld (c_out cw) (c_trace cw ++ evs)
    ∧ cwrites_of evs = []
    ∧ (res.1 = None ∨ res.1 = Some succ).
Proof.
  induction files as [|f files IH]; intros succ cw Hfail.
  - exists []. rewrite app_nil_r. simpl. destruct cw. auto.
  - simpl.
    pose proof (translate_effects lower engine sleep_limit f true max 2 cw)
      as (evs1 & n & Ht & _ & _ & _ & _ & Hr). simpl in Ht, Hr.
    destruct (translate_to_markdown lower engine sleep_limit f true max 2 cw)
      as [res1 cw1]. simpl in *.
    assert (res1 ≠ Returned None ∨ True →
            cwrites_of evs1 = [] ∧ c_out cw1 = c_out cw
            ∧ ∀ p, res1 ≠ Returned (Some p)) as [Hw1 [Ho1 Hres1]].
    { intros _. destruct res1 as [[p|]|].
      - destruct Hr as (_ & _ & i & md & Hi & Hmd & _).
        by destruct (fails_markdown_of _ md (Hfail f i ltac:(left) Hi)).
      - destruct Hr as [Hw [Ho|[_ (i & md & Hi & Hmd & _)]]]; [done|].
        by destruct (fails_markdown_of _ md (Hfail f i ltac:(left) Hi)).
      - destruct Hr as [Hw [Ho|[_ (i & md & Hi & Hmd & _)]]]; [done|].
        by destruct (fails_markdown_of _ md (Hfail f i ltac:(left) Hi)). }
    { by right. }
    destruct res1 as [[p|]|]; [by destruct (Hres1 p)| |].
    + destruct (IH succ cw1) as (evs & Hrun & Hw & Hres).
      { intros g i Hg Hi. apply Hfail; [by right|done]. }
      exists (evs1 ++ evs). simpl in *. rewrite Hrun, Ho1, Ht.
      split; [by rewrite <- (assoc_L (++))|]. split; [|done].
      unfold cwrites_of in *. by rewrite omap_app, Hw1, Hw.
    + exists evs1. simpl. destruct cw1. simpl in *. subst. auto.
Qed.

(** And where [time.sleep] accepts the delays, the engine is asked
    [max_retries] times for every file. *)
Lemma convert_files_all_fail lower engine sleep_limit max :
  ∀ files succ cw,
  (∀ f, f ∈ files → is_supported_file lower f = true) →
  (∀ f i, f ∈ files → Z.of_nat i < max →
          fails (engine f (with_options lower true f) i) = true) →
  (∀ i : nat, Z.of_nat i + 1 < max → 2 * 2 ^ Z.of_nat i ≤ sleep_limit) →
  ∃ evs,
    convert_files lower engine sleep_limit max files succ cw
    = (Some succ, CWorld (c_out cw) (c_trace cw ++ evs))
    ∧ converts_of evs
      = files ≫= (λ f, replicate (Z.to_nat max) (f, with_options lower true f))
    ∧ cwrites_of evs = [].
Proof.
  induction files as [|f files IH]; intros succ cw Hsup Hfail Hlim.
  - exists []. rewrite app_nil_r. by destruct cw.
  - simpl. rewrite translate_supported by (apply Hsup; left).
    destruct (retry_loop_gives_up lower engine sleep_limit true max f
                (stem f ++ lit ".md") 2 cw)
      as (evs1 & d' & -> & _ & Hsame & Hc1 & _ & Hw1); [lia | done | |].
    { intros i Hi. apply fails_pass_fails. apply Hfail; [left | done]. }
    rewrite Hsame by (intros i Hi; apply Hfail; [left | done]).
    destruct (IH succ (CWorld (c_out cw) (c_trace cw ++ evs1)))
      as (evs & -> & Hc & Hw).
    { intros g Hg. apply Hsup. by right. }
    { intros g i Hg Hi. apply Hfail; [by right | done]. }
    { done. }
    exists (evs1 ++ evs). simpl. split; [by rewrite <- (assoc_L (++))|].
    unfold converts_of, cwrites_of in *.
    rewrite !omap_app, Hc1, Hc, Hw1, Hw. done.
Qed.

(** The delays of [main], 2, 4, 8 and so on, are accepted by [time.sleep]
    when the largest of them, [2 ^ (retries - 1)], is. *)
Lemma main_delays sleep_limit max :
  max ≤ 1 ∨ 2 ^ (max - 1) ≤ sleep_limit →
  ∀ i : nat, Z.of_nat i + 1 < max → 2 * 2 ^ Z.of_nat i ≤ sleep_limit.
Proof.
  intros [Hmax|Hlim] i Hi; [lia|].
  rewrite <- Z.pow_succ_r by lia.
  etransitivity; [|exact Hlim]. apply Z.pow_le_mono_r; lia.
Qed.

(** X17. [main] does not end with the exception of [time.sleep] when
    [time.sleep] accepts the largest delay, [2 ^ (retries - 1)] seconds,
    or [--retries] is at most 1; and it asks the engine only for entries of
    the input folder that are regular files, are not hidden and have a
    supported extension, always with the pipeline options given: hidden
    files, directories and other files are never converted. *)
Theorem main_converts_only_visible_supported_files
    isalnum lower engine sleep_limit folder args out :
  let res := main isalnum lower engine sleep_limit folder args out in
  (args_retries args ≤ 1 ∨ 2 ^ (args_retries args - 1) ≤ sleep_limit →
   r_ended res ≠ SleepError)
  ∧ ∀ f o, (f, o) ∈ converts_of (r_conv res) →
    ∃ entries, folder = Some entries ∧ (f, true) ∈ entries
      ∧ startswith f (lit ".") = false
      ∧ is_supported_file lower f = true
      ∧ o = with_options lower true f.
Proof.
  intros res. unfold res, main.
  destruct folder as [entries|]; [|split; [done|]; intros f o Hin;
                                   by apply elem_of_nil in Hin].
  case_bool_decide as Hsup;
    [split; [done|]; intros f o Hin; by apply elem_of_nil in Hin|].
  destruct (convert_files_spec lower engine sleep_limit (args_retries args)
              (supported_files lower entries) [] (CWorld out []))
    as (evs & Htr & Hcs & _ & _ & _ & Hok).
  simpl in Htr.
  assert (∀ f o, (f, o) ∈ converts_of evs →
            ∃ entries0, Some entries = Some entries0 ∧ (f, true) ∈ entries0
              ∧ startswith f (lit ".") = false
              ∧ is_supported_file lower f = true
              ∧ o = with_options lower true f) as Hgoal.
  { intros f o Hin. destruct (Hcs f o Hin) as (Hf & Hs & Ho).
    apply elem_of_supported_files in Hf as (? & ? & ?). eauto 10. }
  destruct (convert_files _ _ _ _ _ _ _) as [[succ|] cw]; simpl in *.
  - destruct (args_combine args && bool_decide (succ ≠ [])).
    + destruct (combine_markdown_files _ _ _ _) as [[r|] w].
      * destruct (report_counts isalnum r w) as [counts w']. simpl.
        rewrite Htr. done.
      * simpl. rewrite Htr. done.
    + simpl. rewrite Htr. done.
  - rewrite Htr. split; [|done].
    intros Hlim. destruct (Hok (main_delays _ _ Hlim)) as [? [=]].
Qed.

(** With [--retries 34] the largest delay is [2 ^ 33] seconds, which
    [time.sleep] accepts, and [main] runs to its end. *)
Example main_within_sleep_limit_example :
  r_ended (main ascii_alnum ascii_lower (λ _ _ _, Failure) 9223372036
             (Some [(lit "a.pdf", true)]) (Args false 100 34) ∅)
  = Completed 1 [] None.
Proof. by vm_compute. Qed.

(** With [--retries 35] and conversions that fail, the 34th delay is
    [2 ^ 34] seconds, which [time.sleep] does not accept, and [main] ends
    with its exception. *)
Example main_sleep_error_example :
  r_ended (main ascii_alnum ascii_lower (λ _ _ _, Failure) 9223372036
             (Some [(lit "a.pdf", true)]) (Args false 100 35) ∅)
  = SleepError.
Proof. by vm_compute. Qed.

(** X18. When no pass of any supported file gives markdown, and so with
    [--retries 0], [main] writes nothing and packs nothing, also with
    [--combine] and markdown files in the output directory: the directory
    is left as it was. Where [time.sleep] accepts the delays, the engine
    was asked [retries] times for each supported file, in the order of the
    listing, and [main] runs to its end. *)
Theorem nothing_packed_without_conversion
    isalnum lower engine sleep_limit entries args out :
  (∀ f i, f ∈ supported_files lower entries → Z.of_nat i < args_retries args →
          fails (engine f (with_options lower true f) i) = true) →
  let res := main isalnum lower engine sleep_limit (Some entries) args out in
  r_dir res = out ∧ r_pack res = [] ∧ cwrites_of (r_conv res) = []
  ∧ (args_retries args ≤ 1 ∨ 2 ^ (args_retries args - 1) ≤ sleep_limit →
     converts_of (r_conv res)
     = supported_files lower entries ≫=
         (λ f, replicate (Z.to_nat (args_retries args))
                 (f, with_options lower true f))
     ∧ r_ended res
       = if bool_decide (supported_files lower entries = []) then Exited 0
         else Completed (length (supported_files lower entries)) [] None).
Proof.
  intros Hfail res. unfold res, main.
  case_bool_decide as Hsup; [by rewrite Hsup|].
  destruct (convert_files_all_fail_dir lower engine sleep_limit
              (args_retries args) (supported_files lower entries) []
              (CWorld out []) Hfail) as (evs & Hrun & Hw & Hres).
  assert (args_retries args ≤ 1 ∨ 2 ^ (args_retries args - 1) ≤ sleep_limit →
          ∃ evs',
            convert_files lower engine sleep_limit (args_retries args)
              (supported_files lower entries) [] (CWorld out [])
            = (Some [], CWorld out ([] ++ evs'))
            ∧ converts_of evs'
              = supported_files lower entries ≫=
                  (λ f, replicate (Z.to_nat (args_retries args))
                          (f, with_options lower true f))) as Hall.
  { intros Hlim.
    destruct (convert_files_all_fail lower engine sleep_limit
                (args_retries args) (supported_files lower entries) []
                (CWorld out []))
      as (evs' & Hrun' & Hc & _); [|done|by apply main_delays|by eauto].
    intros f Hf. by apply elem_of_supported_files in Hf as (_ & _ & ?). }
  destruct (convert_files _ _ _ _ _ _ _) as [res1 cw]. simpl in *.
  subst cw. destruct Hres as [->| ->].
  - simpl. split; [done|]. split; [done|]. split; [done|].
    intros Hlim. by destruct (Hall Hlim) as (evs' & [=] & _).
  - rewrite bool_decide_eq_false_2 by (intros H; by apply H).
    rewrite andb_false_r. simpl. split; [done|]. split; [done|].
    split; [done|]. intros Hlim.
    destruct (Hall Hlim) as (evs' & [= <-] & Hc). done.
Qed.

Lemma nothing_packed_without_conversion_witness :
  let entries := [(lit "a.pdf", true); (lit ".b.pdf", true);
                  (lit "c.txt", true); (lit "d.html", false);
                  (lit "e.HTML", true)] in
  let res := main ascii_alnum ascii_lower (λ _ _ _, Raised true) 9223372036
               (Some entries) (Args true 100 2) readable_dir in
  r_dir res = readable_dir ∧ r_pack res = [] ∧ cwrites_of (r_conv res) = []
  ∧ (args_retries (Args true 100 2) ≤ 1
     ∨ 2 ^ (args_retries (Args true 100 2) - 1) ≤ 9223372036 →
     converts_of (r_conv res)
     = supported_files ascii_lower entries ≫=
         (λ f, replicate (Z.to_nat (args_retries (Args true 100 2)))
                 (f, with_options ascii_lower true f))
     ∧ r_ended res
       = if bool_decide (supported_files ascii_lower entries = []) then Exited 0
         else Completed (length (supported_files ascii_lower entries)) [] None).
Proof.
  intros entries res.
  apply (nothing_packed_without_conversion ascii_alnum ascii_lower
           (λ _ _ _, Raised true) 9223372036 entries (Args true 100 2)
           readable_dir).
  intros f i _ _. reflexivity.
Defined.

(** X19. When [main] packs and the packing returns, it has packed the
    whole output directory, not only what this run converted: a readable
    markdown file that was in the output directory before the run, and
    whose stem does not start with [packed_], has its section in one of
    the bundle files, with its old text unless a conversion of this run
    has written to it or emptied it. *)
Theorem earlier_markdown_is_packed_too
    isalnum lower engine sleep_limit entries args out n succ counts p t :
  r_ended (main isalnum lower engine sleep_limit (Some entries) args out)
  = Completed n succ (Some counts) →
  out !! p = Some (File t) →
  p ∈ discover out →
  ∃ k before after t',
    r_dir (main isalnum lower engine sleep_limit (Some entries) args out)
      !! packed_path k
    = Some (File (join delimiter (before ++ section_of p t' :: after)))
    ∧ packed_path k ∈ counts.*1
    ∧ (p ∉ touched_of
             (r_conv (main isalnum lower engine sleep_limit (Some entries)
                        args out)) →
       t' = t).
Proof.
  unfold main. case_bool_decide as Hsup; [done|].
  destruct (convert_files_spec lower engine sleep_limit (args_retries args)
              (supported_files lower entries) [] (CWorld out []))
    as (evs & Htr & _ & Hfr & Hrd & Hsm & _).
  destruct (convert_files _ _ _ _ _ _ _) as [[succ'|] cw]; [|done].
  simpl in *.
  set (dconv := c_out cw) in *.
  destruct (args_combine args && bool_decide (succ' ≠ [])); [|done].
  destruct (combine_markdown_files isalnum (args_max_words args) true
              (World dconv [])) as [[r|] w] eqn:Hcomb; [|done].
  pose proof (report_counts_spec isalnum r w) as [Hdir Hnames].
  destruct (report_counts isalnum r w) as [counts' w']. simpl in *.
  intros [= _ _ <-] Hp Hdisc.
  assert (readable dconv p = true) as Hread.
  { apply Hrd. unfold readable. by rewrite Hp. }
  assert (p ∈ discover dconv) as Hdisc'.
  { apply elem_of_discover in Hdisc as (_ & Hmd & Hst).
    apply elem_of_discover. split; [|done]. apply Hsm. by rewrite Hp. }
  pose proof (members_returned isalnum (args_max_words args) true _ _ _ Hcomb)
    as Hmem. simpl in Hmem.
  assert (p ∈ concat (members <$> bundles isalnum (args_max_words args) true
                                    (World dconv []))) as Hin.
  { rewrite Hmem. apply list_elem_of_filter. split; [by apply Is_true_true|].
    by apply elem_of_sorted_inputs. }
  apply elem_of_concat_members in Hin as (k & b & Hk & Hpm).
  destruct (bundle_text_member dconv _ _ Hpm) as (l1 & l2 & Hl).
  exists k, l1, l2, (text_of dconv p).
  split; [|split].
  - rewrite Hdir. rewrite (combine_written _ _ _ _ _ _ _ _ Hcomb Hk). simpl.
    by rewrite Hl.
  - rewrite Hnames.
    pose proof (combine_spec _ _ _ _ _ _ Hcomb) as [_ _ -> _ _ _ _ _].
    apply list_elem_of_fmap. exists k. split; [done|].
    apply elem_of_seq. apply lookup_lt_Some in Hk. lia.
  - intros Hnw. unfold text_of. rewrite (Hfr p); [by rewrite Hp|].
    by rewrite Htr in Hnw.
Qed.

Lemma earlier_markdown_is_packed_too_witness :
  let res := main ascii_alnum ascii_lower (λ _ _ _, Success (lit "new text"))
               9223372036 (Some [(lit "e.HTML", true)]) (Args true 100 3)
               readable_dir in
  ∃ k before after t',
    r_dir res !! packed_path k
    = Some (File (join delimiter (before ++ section_of (lit "b.md") t' :: after)))
    ∧ packed_path k ∈ [(lit "packed_0.md", 12)].*1
    ∧ (lit "b.md" ∉ touched_of (r_conv res) → t' = lit "three, four; five").
Proof.
  intros res.
  apply (earlier_markdown_is_packed_too ascii_alnum ascii_lower
           (λ _ _ _, Success (lit "new text")) 9223372036
           [(lit "e.HTML", true)] (Args true 100 3) readable_dir
           1 [lit "e.md"] [(lit "packed_0.md", 12)] (lit "b.md")).
  - vm_compute. reflexivity.
  - vm_compute. reflexivity.
  - apply elem_of_discover. split; [|split].
    + exists (File (lit "three, four; five")). vm_compute. reflexivity.
    + vm_compute. reflexivity.
    + vm_compute. reflexivity.
Defined.

(** ** The number of bundles *)

Lemma pairs_bound (M : Z) : ∀ (n : nat) (l : list Z),
  (length l ≤ n)%nat → 0 ≤ M + 1 →
  (∀ x, x ∈ l → 0 ≤ x) →
  (∀ k x y, l !! k = Some x → l !! S k = Some y → x + y > M) →
  Z.of_nat (length l / 2) * (M + 1) ≤ foldr Z.add 0 l.
Proof.
  induction n as [|n IH]; intros l Hlen HM Hpos Hpair.
  - destruct l; [simpl; lia | simpl in Hlen; lia].
  - destruct l as [|x [|y l]].
    + simpl. lia.
    + pose proof (Hpos x (list_elem_of_here _ _)).
      cbn [length foldr]. change (1 / 2)%nat with 0%nat. lia.
    + pose proof (Hpair 0%nat x y eq_refl eq_refl) as Hxy.
      assert (Z.of_nat (length l / 2) * (M + 1) ≤ foldr Z.add 0 l) as Hl.
      { apply IH; [simpl in Hlen; lia | done | |].
        - intros z Hz. apply Hpos. by do 2 right.
        - intros k a b Ha Hb. apply (Hpair (S (S k))); done. }
      cbn [length foldr].
      replace (S (S (length l))) with (1 * 2 + length l)%nat by lia.
      rewrite Nat.div_add_l by lia. lia.
Qed.

Lemma sum_words_perm isalnum d a b :
  a ≡ₚ b → sum_words isalnum d a = sum_words isalnum d b.
Proof.
  unfold sum_words. induction 1; simpl; lia.
Qed.

Lemma sum_words_readable isalnum d fs :
  sum_words isalnum d (filter (λ f, readable d f) fs) = sum_words isalnum d fs.
Proof.
  induction fs as [|f fs IH]; [done|].
  rewrite filter_cons. destruct (decide (readable d f)) as [Hr|Hr].
  - unfold sum_words in *. simpl. by rewrite IH.
  - rewrite IH. unfold sum_words. simpl.
    rewrite (words_of_unreadable isalnum d f); [done|].
    by destruct (readable d f).
Qed.

Lemma sum_totals isalnum d bs :
  Forall (bundle_ok isalnum d) bs →
  foldr Z.add 0 (total_words <$> bs)
  = sum_words isalnum d (concat (members <$> bs)).
Proof.
  induction 1 as [|b bs [Hb _] _ IH]; [done|].
  rewrite !fmap_cons. cbn [foldr concat]. rewrite sum_words_app, IH, Hb. done.
Qed.

(** X23. Two neighbouring bundles never fit into one, so there are not many
    bundles: half their number (rounded down) times [max_words + 1] is at
    most the number of words of all inputs. In particular, when all inputs
    together have at most [max_words] words, there is at most one bundle. *)
Theorem bundle_count_bound isalnum max_words logger w :
  let bs := bundles isalnum max_words logger w in
  let total := sum_words isalnum (w_dir w) (discover (w_dir w)) in
  Z.of_nat (length bs / 2) * (max_words + 1) ≤ total
  ∧ (total ≤ max_words → (length bs ≤ 1)%nat).
Proof.
  intros bs total.
  destruct (bundles_spec isalnum max_words logger w)
    as (_ & Hbs & _ & (rest & Hmem) & _). fold bs in Hbs, Hmem.
  destruct (bundles_greedy isalnum max_words logger w) as [Hgr _].
  fold bs in Hgr.
  destruct (written_prefix_prefix (w_dir w)
              (greedy isalnum max_words (w_dir w) (sorted_inputs (w_dir w))))
    as [more Hmore]. rewrite <- Hgr in Hmore.
  assert (tight isalnum max_words (w_dir w) bs) as Htight.
  { apply (tight_prefix _ _ _ _ more). rewrite <- Hmore. apply tight_greedy. }
  assert (foldr Z.add 0 (total_words <$> bs) ≤ total) as Htot.
  { rewrite (sum_totals isalnum (w_dir w)) by done.
    assert (total = sum_words isalnum (w_dir w) (concat (members <$> bs))
                    + sum_words isalnum (w_dir w) rest) as ->.
    { rewrite <- sum_words_app, Hmem, sum_words_readable.
      apply sum_words_perm. symmetry. apply sorted_inputs_perm. }
    pose proof (sum_words_nonneg isalnum (w_dir w) rest). lia. }
  assert (0 ≤ total) as Hnn by apply sum_words_nonneg.
  assert (0 ≤ max_words + 1 →
          Z.of_nat (length bs / 2) * (max_words + 1) ≤ total) as Hbound.
  { intros HM. etransitivity; [|exact Htot].
    rewrite <- (length_fmap total_words bs).
    apply (pairs_bound max_words (length (total_words <$> bs))); [lia|done| |].
    - intros x Hx. apply list_elem_of_fmap in Hx as (b & -> & Hb).
      rewrite Forall_forall in Hbs. destruct (Hbs b Hb) as [-> _].
      apply sum_words_nonneg.
    - intros k x y Hx Hy. rewrite list_lookup_fmap in Hx, Hy.
      destruct (bs !! k) as [b|] eqn:Hk; [|done].
      destruct (bs !! S k) as [b'|] eqn:Hk'; [|done].
      simpl in Hx, Hy. injection Hx as <-. injection Hy as <-.
      rewrite Forall_forall in Hbs.
      destruct (Hbs b' (list_elem_of_lookup_2 _ _ _ Hk')) as [Ht' Hne].
      destruct (members b') as [|m ms] eqn:Hm; [done|].
      specialize (Htight k b b' m Hk Hk'). rewrite Hm in Htight.
      specialize (Htight eq_refl).
      rewrite Ht'. unfold sum_words. simpl.
      pose proof (sum_words_nonneg isalnum (w_dir w) ms) as Hms.
      unfold sum_words in Hms. lia. }
  split.
  - destruct (decide (0 ≤ max_words + 1)) as [HM|HM]; [by apply Hbound|].
    assert (0 ≤ Z.of_nat (length bs / 2)) by lia. nia.
  - intros Hfit. specialize (Hbound ltac:(lia)).
    destruct (length bs) as [|[|n]]; [lia | lia |]. exfalso.
    replace (S (S n)) with (1 * 2 + n)%nat in Hbound by lia.
    rewrite Nat.div_add_l in Hbound by lia. nia.
Qed.

(** On the example, with 8 words in all, a threshold of 8 gives one bundle
    and a threshold of 4 gives two. *)
Example bundle_count_example :
  length (bundles ascii_alnum 8 true (World example_dir [])) = 1%nat
  ∧ length (bundles ascii_alnum 4 true (World example_dir [])) = 2%nat.
Proof. vm_compute. done. Qed.
